(** * Audio-Transcriber: the large-file transcription pipeline

    A shallow embedding of the server's transcription route
    ([app.post('/transcribe')]), the chunk-duration planner
    ([calculateOptimalChunkDuration]), the oversize repair
    ([verifyAndResplitChunks]) and the concurrent chunk pool
    ([processChunks] with [checkCompletion], [processChunk],
    [checkForMoreChunks] and the chunk watcher), followed by the
    authentication middleware and its endpoints, the saved
    transcriptions and their listing, the hourly sweep
    ([cleanupOldFiles]), [cleanupFiles] and [handleLargeFile], and the
    Word export.

    Conventions of the embedding:
    - JavaScript numbers that hold byte counts, counters and seconds are
      integers ([Z], [nat]); the probed duration is a rational ([Q]) and
      the planner's divisions are exact.  [Math.floor] is [Qfloor] or
      integer division.
    - The disk, the transcription service, ffmpeg and the uuid generator
      are inputs: a directory is an association list in [readdirSync]
      order, the service's answers and ffmpeg's outputs are oracles.
    - An [async] function is cut at its [await]s: what runs between two
      suspension points is one atomic step of the event loop. *)

From Stdlib Require Import ZArith QArith Qround List String Ascii Bool Arith Lia.
From Stdlib Require Import DecimalString DecimalNat.
From stdpp Require Import base option list sorting gmap strings.

Import ListNotations.
Local Open Scope Z_scope.
Local Open Scope string_scope.

(** ** Strings *)

Module Str.

(** [String(n)] for a non-negative integer. *)
Definition ofNat (n : nat) : string := NilEmpty.string_of_uint (Nat.to_uint n).

(** [s.padStart(3, '0')] and printf's [%03d]. *)
Definition padStart3 (s : string) : string :=
  match String.length s with
  | O => "000" ++ s
  | 1%nat => "00" ++ s
  | 2%nat => "0" ++ s
  | _ => s
  end.

(** [s.startsWith(p)]. *)
Definition startsWith (p s : string) : bool := String.prefix p s.

(** [s.endsWith(suffix)]. *)
Fixpoint endsWith (suffix s : string) : bool :=
  if String.eqb s suffix then true
  else match s with
       | EmptyString => false
       | String _ s' => endsWith suffix s'
       end.

(** [s.includes(sub)]. *)
Fixpoint includes (sub s : string) : bool :=
  if String.prefix sub s then true
  else match s with
       | EmptyString => false
       | String _ s' => includes sub s'
       end.

(** [path.basename(file, ext)] for a file name without directory part:
    the suffix [ext] is removed when the name ends with it. *)
Fixpoint basename (file ext : string) : string :=
  if String.eqb file ext then EmptyString
  else match file with
       | EmptyString => EmptyString
       | String c f' => String c (basename f' ext)
       end.

(** [path.join(dir, name)] for a normalised directory and a plain file
    name, one without a separator: the two joined by [/].  What
    [path.join] does to [.] and [..] segments is not modelled. *)
Definition join (dir name : string) : string := dir ++ "/" ++ name.

Definition isDigit (c : ascii) : bool :=
  let n := nat_of_ascii c in (48 <=? n)%nat && (n <=? 57)%nat.

(** The longest run of digits at the head of [s], and [parseInt] of a
    run of digits. *)
Fixpoint digitRun (s : string) : string :=
  match s with
  | String c s' => if isDigit c then String c (digitRun s') else EmptyString
  | EmptyString => EmptyString
  end.

Definition parseDigits (s : string) : nat :=
  match NilEmpty.uint_of_string s with
  | Some d => Nat.of_uint d
  | None => O
  end.

(** [originalFilename.replace(/\.[^/.]+$/, '')] on the reversed name:
    [seen] counts the characters read since the end. *)
Fixpoint dropLastExt (rev_name : list ascii) (seen : nat) : option (list ascii) :=
  match rev_name with
  | [] => None
  | c :: rest =>
      if Ascii.eqb c "."%char then
        match seen with O => None | S _ => Some rest end
      else if Ascii.eqb c "/"%char then None
      else dropLastExt rest (S seen)
  end.

Definition stripExtension (name : string) : string :=
  match dropLastExt (rev (list_ascii_of_string name)) O with
  | Some rest => string_of_list_ascii (rev rest)
  | None => name
  end.

End Str.

(** ** Constants for file size limits and chunking *)

Definition MB : Z := 1024 * 1024.
Definition MAX_FILE_SIZE : Z := 300 * MB.
Definition OPENAI_WHISPER_LIMIT : Z := 25 * MB.
Definition OPTIMAL_CHUNK_SIZE : Z := 24 * MB.
Definition MIN_CHUNK_DURATION : Z := 120.
Definition MAX_CHUNK_DURATION : Z := 1800.
Definition MAX_CONCURRENT_CHUNKS : nat := 3.

(** ** The chunk-duration planner *)

(** [calculateOptimalChunkDuration(fileSize, fileDuration)], with its
    two locals [estimatedBitrate] and [optimalDuration] as functions of
    the arguments.  The two console lines are not modelled.  The
    quotients are exact rationals, where the code rounds each of them
    to a double: next to a whole number of seconds the floor of the code
    can differ by one from the floor here. *)
Definition estimatedBitrate (fileSize : Z) (fileDuration : Q) : Q :=
  (inject_Z fileSize / fileDuration)%Q.

Definition optimalDuration (fileSize : Z) (fileDuration : Q) : Z :=
  let targetChunkSize := 24 * MB in
  Qfloor (inject_Z targetChunkSize / estimatedBitrate fileSize fileDuration)%Q.

Definition calculateOptimalChunkDuration (fileSize : Z) (fileDuration : Q) : Z :=
  let clampedDuration :=
    Z.max MIN_CHUNK_DURATION (Z.min 1800 (optimalDuration fileSize fileDuration)) in
  clampedDuration.

(** What the service answers to one [openai.audio.transcriptions.create]
    call: a text, or a thrown error with its message. *)
Inductive ApiResponse :=
  | ApiOk (text : string)
  | ApiError (message : string).

(** ** Synchronous code with a disk and exceptions

    [M A] is a computation over a world [W] that returns an [A] or
    throws an [Error] whose message is a string.  [tryCatch] is
    [try { .. } catch (error) { .. }]. *)

Module Exn.

Definition M (W A : Type) : Type := W -> (A + string) * W.

Definition ret {W A} (a : A) : M W A := fun w => (inl a, w).

Definition bind {W A B} (m : M W A) (k : A -> M W B) : M W B :=
  fun w => match m w with
           | (inl a, w') => k a w'
           | (inr e, w') => (inr e, w')
           end.

Definition throw {W A} (message : string) : M W A := fun w => (inr message, w).

Definition tryCatch {W A} (m : M W A) (handler : string -> M W A) : M W A :=
  fun w => match m w with
           | (inl a, w') => (inl a, w')
           | (inr e, w') => handler e w'
           end.

Definition get {W} : M W W := fun w => (inl w, w).

End Exn.

Declare Scope exn_scope.
Delimit Scope exn_scope with exn.
Notation "'let*' x ':=' m 'in' k" := (Exn.bind m (fun x => k))
  (at level 10, x name, m at level 100, k at level 200) : exn_scope.
Notation "m ';;' k" := (Exn.bind m (fun _ => k))
  (at level 100, k at level 200, right associativity) : exn_scope.

(** ** The upload route, [app.post('/transcribe')] *)

Module Route.

(** [req.file] as multer fills it in. *)
Record UploadedFile := {
  originalname : string;
  path : string;
  size : Z
}.

(** The JSON objects the route sends. *)
Inductive Body :=
  | NoFileBody                                             (* { error: 'No file uploaded' } *)
  | SuccessBody (transcription : string) (savedAs : option string)
  | FailureBody (error : string).

(** What the handler does to the outside, in program order. *)
Inductive Effect :=
  | WriteFile (p content : string)
  | Unlink (p : string)
  | SendJson (statusCode : nat) (body : Body)
  | StreamWrite (json : string)
  | StreamEnd (json : string).

(** The disk maps a path to the content of the file there. *)
Record World := {
  disk : gmap string string;
  effects : list Effect
}.

(** The inputs the handler does not control. *)
Record Env := {
  now : string;                      (* the sanitised ISO timestamp *)
  transcriptionsDir : string;
  writeError : option string;        (* [Some msg]: writeFileSync throws *)
  whisper : string -> ApiResponse    (* the service on a file's content *)
}.

Definition emit (e : Effect) : Exn.M World unit :=
  fun w => (inl tt, {| disk := disk w; effects := effects w ++ [e] |}).

Definition existsSync (p : string) : Exn.M World bool :=
  fun w => (inl (bool_decide (is_Some (disk w !! p))), w).

Definition readFile (p : string) : Exn.M World string :=
  fun w => match disk w !! p with
           | Some c => (inl c, w)
           | None => (inr ("ENOENT: no such file or directory, open '" ++ p ++ "'"), w)
           end.

Definition unlinkSync (p : string) : Exn.M World unit :=
  fun w => match disk w !! p with
           | Some _ => (inl tt, {| disk := delete p (disk w); effects := effects w ++ [Unlink p] |})
           | None => (inr ("ENOENT: no such file or directory, unlink '" ++ p ++ "'"), w)
           end.

Definition writeFileSync (env : Env) (p content : string) : Exn.M World unit :=
  fun w => match writeError env with
           | Some msg => (inr msg, w)
           | None => (inl tt, {| disk := <[p := content]> (disk w);
                                 effects := effects w ++ [WriteFile p content] |})
           end.

(** [await openai.audio.transcriptions.create({ file: createReadStream(p) })]. *)
Definition transcriptionsCreate (env : Env) (p : string) : Exn.M World string :=
  (let* content := readFile p in
   match whisper env content with
   | ApiOk text => Exn.ret text
   | ApiError message => Exn.throw message
   end)%exn.

(** [saveTranscription]: the text file is written at once; the Word
    document is written by a later callback and is not modelled.  Any
    exception is caught and [null] is returned. *)
Definition saveTranscription (env : Env) (transcriptionText originalFilename : string)
  : Exn.M World (option string) :=
  Exn.tryCatch
    (let baseFilename := now env ++ "_" ++ Str.stripExtension originalFilename in
     let txtFilename := baseFilename ++ ".txt" in
     let txtFilepath := Str.join (transcriptionsDir env) txtFilename in
     (writeFileSync env txtFilepath transcriptionText ;;
      Exn.ret (Some txtFilename))%exn)
    (fun _ => Exn.ret None).

(** [error.message || 'Failed to transcribe audio']. *)
Definition orDefault (message fallback : string) : string :=
  if String.eqb message "" then fallback else message.

(** The [try]/[catch] of the route: the single-request path. *)
Definition singleRequest (env : Env) (file : UploadedFile) : Exn.M World unit :=
  Exn.tryCatch
    (let filePath := path file in
     (let* present := existsSync filePath in
      if negb present
      then Exn.throw ("File does not exist at path: " ++ filePath)
      else
        let* text := transcriptionsCreate env filePath in
        let* savedFilename := saveTranscription env text (originalname file) in
        unlinkSync filePath ;;
        emit (SendJson 200 (SuccessBody text savedFilename)))%exn)
    (fun message =>
       emit (SendJson 500 (FailureBody (orDefault message "Failed to transcribe audio")))).

(** The route handler.  [handleLargeFile] is the chunked pipeline, which
    answers on a stream. *)
Definition transcribe (handleLargeFile : UploadedFile -> World -> World)
    (env : Env) (file : option UploadedFile) (w : World) : World :=
  match file with
  | None => snd (emit (SendJson 400 NoFileBody) w)
  | Some f =>
      if size f >? OPENAI_WHISPER_LIMIT
      then handleLargeFile f w
      else snd (singleRequest env f w)
  end.

(** The effects a call added to the log. *)
Definition added (before after : World) : list Effect :=
  drop (List.length (effects before)) (effects after).

Definition isSendJson (e : Effect) : bool :=
  match e with SendJson _ _ => true | _ => false end.

Definition isStream (e : Effect) : bool :=
  match e with StreamWrite _ | StreamEnd _ => true | _ => false end.

(** A sample request: an upload on disk, and a service with a fixed
    answer. *)
Definition sampleEnv (answer : ApiResponse) : Env :=
  {| now := "2025-01-01T00-00-00-000Z"; transcriptionsDir := "transcriptions";
     writeError := None; whisper := fun _ => answer |}.

Definition sampleFile (bytes : Z) : UploadedFile :=
  {| originalname := "talk.mp3"; path := "uploads/1-2.mp3"; size := bytes |}.

Definition sampleWorld : World :=
  {| disk := {[ "uploads/1-2.mp3" := "audio" ]}; effects := [] |}.

End Route.

(** ** The oversize repair, [verifyAndResplitChunks] *)

Module Repair.

(** The chunk directory: file names with their byte sizes, in the order
    [readdirSync] lists them. *)
Definition Dir : Type := list (string * Z).

(** The [options] object.  The function reads [chunksDir], [sessionId],
    [outputExt] and [segmentDuration]; files are named relative to
    [chunksDir]. *)
Record Options := {
  chunksDir : string;
  sessionId : string;
  outputExt : string;
  segmentDuration : Z
}.

(** Calls that reach the disk or ffmpeg, in program order. *)
Inductive Op :=
  | Readdir
  | FfmpegSegment (input : string) (segment_time : Z)
  | Create (name : string) (bytes : Z)
  | Unlink (name : string)
  | Rename (oldName newName : string).

(** ffmpeg's segment muxer on a file of a given size at a given
    [-segment_time]: the sizes of the pieces it wrote, and the message of
    its ['error'] event when it failed.  [uuidv4 k] is the k-th uuid. *)
Record Env := {
  ffmpeg : string -> Z -> Z -> list Z * option string;
  uuidv4 : nat -> string
}.

Record World := {
  dir : Dir;
  drawn : nat;
  ops : list Op
}.

(** Whether the promise of the call resolved within the given number of
    scans. *)
Inductive Completion := Resolved | Pending.

Definition names (d : Dir) : list string := map fst d.

Definition sizeOf (d : Dir) (name : string) : option Z :=
  snd <$> List.find (fun e => String.eqb (fst e) name) d.

Definition removeFile (name : string) (d : Dir) : Dir :=
  List.filter (fun e => negb (String.eqb (fst e) name)) d.

(** Writing a file replaces one of the same name. *)
Definition writeFile (name : string) (bytes : Z) (d : Dir) : Dir :=
  (removeFile name d ++ [(name, bytes)])%list.

Definition log (o : Op) : Exn.M World unit :=
  fun w => (inl tt, {| dir := dir w; drawn := drawn w; ops := ops w ++ [o] |}).

Definition readdirSync : Exn.M World (list string) :=
  fun w => (inl (names (dir w)), {| dir := dir w; drawn := drawn w; ops := ops w ++ [Readdir] |}).

Definition statSize (name : string) : Exn.M World Z :=
  fun w => match sizeOf (dir w) name with
           | Some bytes => (inl bytes, w)
           | None => (inr ("ENOENT: no such file or directory, stat '" ++ name ++ "'"), w)
           end.

Definition unlinkSync (name : string) : Exn.M World unit :=
  fun w => match sizeOf (dir w) name with
           | Some _ => (inl tt, {| dir := removeFile name (dir w); drawn := drawn w;
                                   ops := ops w ++ [Unlink name] |})
           | None => (inr ("ENOENT: no such file or directory, unlink '" ++ name ++ "'"), w)
           end.

(** [fs.renameSync]: the entry keeps its place, a file already at the new
    name is replaced. *)
Definition renameSync (oldName newName : string) : Exn.M World unit :=
  fun w => match sizeOf (dir w) oldName with
           | Some _ =>
               let others := if String.eqb oldName newName then dir w
                             else removeFile newName (dir w) in
               (inl tt,
                {| dir := map (fun e => if String.eqb (fst e) oldName
                                        then (newName, snd e) else e) others;
                   drawn := drawn w;
                   ops := ops w ++ [Rename oldName newName] |})
           | None => (inr ("ENOENT: no such file or directory, rename '" ++ oldName ++ "'"), w)
           end.

(** [uuidv4().substring(0, 8)]. *)
Definition freshId (env : Env) : Exn.M World string :=
  fun w => (inl (String.substring 0 8 (uuidv4 env (drawn w))),
            {| dir := dir w; drawn := S (drawn w); ops := ops w |}).

(** The pieces ffmpeg writes for the pattern [<base>-sub-%03d<ext>]. *)
Fixpoint writePieces (base ext : string) (k : nat) (pieces : list Z) : Exn.M World unit :=
  match pieces with
  | [] => Exn.ret tt
  | bytes :: rest =>
      let name := base ++ "-sub-" ++ Str.padStart3 (Str.ofNat k) ++ ext in
      (fun w => (inl tt, {| dir := writeFile name bytes (dir w); drawn := drawn w;
                            ops := ops w ++ [Create name bytes] |})) ;;
      writePieces base ext (S k) rest
  end%exn.

(** [file.startsWith(`${sessionId}-chunk-`) && file.endsWith(outputExt)]. *)
Definition isChunkFile (options : Options) (file : string) : bool :=
  Str.startsWith (sessionId options ++ "-chunk-") file && Str.endsWith (outputExt options) file.

Definition newSegmentDuration (options : Options) : Z :=
  Z.max 1 (segmentDuration options / 2).

(** One turn of [for (const file of oversizedFiles)]: the awaited ffmpeg
    run.  On ['end'] the oversized file is unlinked; on ['error'] the
    promise rejects and the function throws. *)
Definition resplit (env : Env) (options : Options) (file : string) : Exn.M World unit :=
  (let base := Str.basename file (outputExt options) in
   let* bytes := statSize file in
   log (FfmpegSegment file (newSegmentDuration options)) ;;
   let out := ffmpeg env file bytes (newSegmentDuration options) in
   writePieces base (outputExt options) 0 (fst out) ;;
   match snd out with
   | Some err => Exn.throw err
   | None => unlinkSync file
   end)%exn.

Fixpoint resplitAll (env : Env) (options : Options) (oversizedFiles : list string)
  : Exn.M World unit :=
  match oversizedFiles with
  | [] => Exn.ret tt
  | file :: rest => (resplit env options file ;; resplitAll env options rest)%exn
  end.

(** [for (const subChunk of subChunks)]: every sub-chunk gets a new name
    in the session's chunk namespace. *)
Fixpoint renameAll (env : Env) (options : Options) (subChunks : list string)
  : Exn.M World unit :=
  match subChunks with
  | [] => Exn.ret tt
  | subChunk :: rest =>
      (let* id := freshId env in
       let newName := sessionId options ++ "-chunk-" ++ id ++ outputExt options in
       renameSync subChunk newName ;;
       renameAll env options rest)%exn
  end.

(** [files.filter(file => fs.statSync(path.join(chunksDir, file)).size >
    OPENAI_WHISPER_LIMIT)]. *)
Fixpoint oversized (files : list string) : Exn.M World (list string) :=
  match files with
  | [] => Exn.ret []
  | file :: rest =>
      (let* bytes := statSize file in
       let* others := oversized rest in
       Exn.ret (if bytes >? OPENAI_WHISPER_LIMIT then file :: others else others))%exn
  end.

(** The body of [verifyAndResplitChunks(options)]; [again] is the call
    of the function to itself on its last line. *)
Definition scan (env : Env) (options : Options) (again : Exn.M World Completion)
  : Exn.M World Completion :=
  (let* listing := readdirSync in
   let files := List.filter (isChunkFile options) listing in
   let* oversizedFiles := oversized files in
   if (List.length oversizedFiles =? 0)%nat
   then Exn.ret Resolved
   else
     resplitAll env options oversizedFiles ;;
     let* listing2 := readdirSync in
     let subChunks := List.filter (Str.includes "-sub-") listing2 in
     renameAll env options subChunks ;;
     again)%exn.

(** [verifyAndResplitChunks(options)].  The recursion of the source has
    no bound; [scans] is the number of scans the model follows, and
    [Pending] says that the last of them recursed again. *)
Fixpoint verifyAndResplitChunks (env : Env) (scans : nat) (options : Options)
  : Exn.M World Completion :=
  match scans with
  | O => Exn.ret Pending
  | S scans' => scan env options (verifyAndResplitChunks env scans' options)
  end.

(** The [-segment_time] values of the ffmpeg runs in a log. *)
Definition segmentTimes (l : list Op) : list Z :=
  omap (fun o => match o with FfmpegSegment _ t => Some t | _ => None end) l.

(** [logs P m]: every operation that [m] adds to the log satisfies [P]. *)
Definition logs {A : Type} (P : Op -> Prop) (m : Exn.M World A) : Prop :=
  forall w, exists new, ops (snd (m w)) = (ops w ++ new)%list /\ Forall P new.

(** The ffmpeg runs of a log, each with its input file and its
    [-segment_time], and the files a log unlinks. *)
Definition ffmpegRuns (l : list Op) : list (string * Z) :=
  omap (fun o => match o with FfmpegSegment input t => Some (input, t) | _ => None end) l.

Definition unlinked (l : list Op) : list string :=
  omap (fun o => match o with Unlink name => Some name | _ => None end) l.

(** [fs.statSync(path.join(chunksDir, file)).size > OPENAI_WHISPER_LIMIT]
    on a directory that holds the file. *)
Definition tooBig (d : Dir) (file : string) : bool :=
  match sizeOf d file with
  | Some bytes => bytes >? OPENAI_WHISPER_LIMIT
  | None => false
  end.

(** [oversizedFiles] of a scan of the directory [d]: the two filters of
    [verifyAndResplitChunks] on a listing all of whose files are there. *)
Definition oversizedFiles (options : Options) (d : Dir) : list string :=
  List.filter (tooBig d) (List.filter (isChunkFile options) (names d)).

(** A listing or a rename: neither an ffmpeg run nor an unlink. *)
Definition listsOrRenames (o : Op) : Prop :=
  match o with
  | Readdir | Rename _ _ => True
  | _ => False
  end.

(** An ffmpeg run at half the segment duration of the options. *)
Definition atHalf (options : Options) (o : Op) : Prop :=
  match o with
  | FfmpegSegment _ t => t = newSegmentDuration options
  | _ => True
  end.

(** Every chunk file of the session in the directory is within the
    limit. *)
Definition compliant (options : Options) (d : Dir) : Prop :=
  forall file, In file (names d) -> isChunkFile options file = true ->
    exists bytes, sizeOf d file = Some bytes /\ bytes <= OPENAI_WHISPER_LIMIT.

(** A source of constant bitrate: a file of [bytes] bytes cut every
    [segment_time] seconds at [rate] bytes per second. *)
Fixpoint cut (fuel : nat) (piece bytes : Z) : list Z :=
  match fuel with
  | O => [bytes]
  | S fuel' => if (bytes <=? piece)%Z then [bytes] else piece :: cut fuel' piece (bytes - piece)
  end.

Definition constantBitrate (rate : Z) (file : string) (bytes segment_time : Z)
  : list Z * option string :=
  (cut (Z.to_nat (bytes / (rate * segment_time))) (rate * segment_time) bytes, None).

(** A 50-second lossless recording in an .m4a file at 576,000 bytes per
    second: 28,800,000 bytes, above the limit.  The planner clamps its
    chunk duration to 120 seconds, so the split leaves one chunk. *)
Definition hiResSession : string := "3f2b8c1e-7a4d-4e9b-9c55-0d6a1e2f3b4c".

Definition hiResOptions : Options :=
  {| chunksDir := "chunks"; sessionId := hiResSession; outputExt := ".m4a";
     segmentDuration := calculateOptimalChunkDuration 28800000 50 |}.

Definition hiResEnv (uuid : nat -> string) : Env :=
  {| ffmpeg := constantBitrate 576000; uuidv4 := uuid |}.

Definition hiResWorld : World :=
  {| dir := [(hiResSession ++ "-chunk-000.m4a", 28800000)]; drawn := 0; ops := [] |}.

(** The directory holding one 28,800,000-byte chunk of the session
    called [<session>-chunk-<x>.m4a], and the operations of one scan of
    [verifyAndResplitChunks] on it when the [k]-th uuid is drawn. *)
Definition loneChunk (x : string) : string := hiResSession ++ "-chunk-" ++ x ++ ".m4a".

Definition loneChunkWorld (x : string) (k : nat) (o : list Op) : World :=
  {| dir := [(loneChunk x, 28800000)]; drawn := k; ops := o |}.

Definition loneChunkPass (uuid : nat -> string) (x : string) (k : nat) : list Op :=
  let sub := (hiResSession ++ "-chunk-" ++ x) ++ "-sub-000.m4a" in
  [Readdir; FfmpegSegment (loneChunk x) 60; Create sub 28800000; Unlink (loneChunk x);
   Readdir; Rename sub (loneChunk (String.substring 0 8 (uuid k)))].

(** A half-hour chunk of 27,000,000 bytes at 15,000 bytes per second:
    its two halves are within the limit. *)
Definition repairableOptions : Options :=
  {| chunksDir := "chunks"; sessionId := hiResSession; outputExt := ".mp3";
     segmentDuration := 1800 |}.

Definition repairableEnv : Env :=
  {| ffmpeg := constantBitrate 15000;
     uuidv4 := fun k => "9a0b1c2" ++ Str.ofNat k ++ "-0000-4000-8000-000000000000" |}.

Definition repairableWorld : World :=
  {| dir := [(hiResSession ++ "-chunk-000.mp3", 27000000);
             (hiResSession ++ "-chunk-001.mp3", 9000000)];
     drawn := 0; ops := [] |}.

(** A directory whose chunks are all within the limit. *)
Definition compliantWorld : World :=
  {| dir := [(hiResSession ++ "-chunk-000.m4a", 20000000);
             (hiResSession ++ "-chunk-001.m4a", 26214400);
             ("other-session-chunk-000.mp3", 30000000)];
     drawn := 0; ops := [] |}.

End Repair.

(** ** The chunk pool, [processChunks] *)

Module Pool.

(** An entry of [chunkQueue]. *)
Record Chunk := {
  path : string;
  index : nat
}.

Inductive Status := processing | complete | error.

(** An object written to the response stream. *)
Record ProgressEvent := {
  status : Status;
  message : string;
  progress : Z
}.

(** The value [checkCompletion] resolves the promise with. *)
Record Resolution := {
  session : string;
  chunks : list string;
  originalFilePath : string;
  combinedTranscription : string
}.

Inductive Settled :=
  | Fulfilled (value : Resolution)
  | Rejected (reason : string).

(** The variables of [splitAndProcessAudioFile] that the pool closes
    over. *)
Record Job := {
  chunksDir : string;
  sessionId : string;
  outputExt : string;
  filePath : string
}.

(** [fs.statSync(p).size], or nothing when there is no file at [p]. *)
Definition Disk : Type := string -> option Z.

(** The variables of [processChunks], the calls of [processChunk]
    suspended at the service ([awaiting]), the two event sources, the
    response stream and the promise. *)
Record State := {
  transcriptionResults : gmap nat string;
  totalChunks : nat;
  processedChunks : nat;
  chunksBeingProcessed : nat;
  isSplittingComplete : bool;
  chunkQueue : list Chunk;
  awaiting : list Chunk;
  watching : bool;               (* the interval of chunkWatcher is set *)
  splitting : bool;              (* ffmpeg has emitted neither 'end' nor 'error' *)
  written : list ProgressEvent;  (* res.write, oldest first *)
  promise : option Settled
}.

Definition initial : State := {|
  transcriptionResults := ∅;
  totalChunks := 0;
  processedChunks := 0;
  chunksBeingProcessed := 0;
  isSplittingComplete := false;
  chunkQueue := [];
  awaiting := [];
  watching := true;
  splitting := true;
  written := [];
  promise := None
|}.

Definition setResult (i : nat) (text : string) (st : State) : State :=
  {| transcriptionResults := <[i := text]> (transcriptionResults st);
     totalChunks := totalChunks st; processedChunks := processedChunks st;
     chunksBeingProcessed := chunksBeingProcessed st;
     isSplittingComplete := isSplittingComplete st; chunkQueue := chunkQueue st;
     awaiting := awaiting st; watching := watching st; splitting := splitting st;
     written := written st; promise := promise st |}.

Definition setTotal (n : nat) (st : State) : State :=
  {| transcriptionResults := transcriptionResults st;
     totalChunks := n; processedChunks := processedChunks st;
     chunksBeingProcessed := chunksBeingProcessed st;
     isSplittingComplete := isSplittingComplete st; chunkQueue := chunkQueue st;
     awaiting := awaiting st; watching := watching st; splitting := splitting st;
     written := written st; promise := promise st |}.

Definition setProcessed (n : nat) (st : State) : State :=
  {| transcriptionResults := transcriptionResults st;
     totalChunks := totalChunks st; processedChunks := n;
     chunksBeingProcessed := chunksBeingProcessed st;
     isSplittingComplete := isSplittingComplete st; chunkQueue := chunkQueue st;
     awaiting := awaiting st; watching := watching st; splitting := splitting st;
     written := written st; promise := promise st |}.

Definition setBeingProcessed (n : nat) (st : State) : State :=
  {| transcriptionResults := transcriptionResults st;
     totalChunks := totalChunks st; processedChunks := processedChunks st;
     chunksBeingProcessed := n;
     isSplittingComplete := isSplittingComplete st; chunkQueue := chunkQueue st;
     awaiting := awaiting st; watching := watching st; splitting := splitting st;
     written := written st; promise := promise st |}.

Definition setQueue (q : list Chunk) (st : State) : State :=
  {| transcriptionResults := transcriptionResults st;
     totalChunks := totalChunks st; processedChunks := processedChunks st;
     chunksBeingProcessed := chunksBeingProcessed st;
     isSplittingComplete := isSplittingComplete st; chunkQueue := q;
     awaiting := awaiting st; watching := watching st; splitting := splitting st;
     written := written st; promise := promise st |}.

Definition setAwaiting (a : list Chunk) (st : State) : State :=
  {| transcriptionResults := transcriptionResults st;
     totalChunks := totalChunks st; processedChunks := processedChunks st;
     chunksBeingProcessed := chunksBeingProcessed st;
     isSplittingComplete := isSplittingComplete st; chunkQueue := chunkQueue st;
     awaiting := a; watching := watching st; splitting := splitting st;
     written := written st; promise := promise st |}.

(** The end of the split: ['end'] sets the flag, both ['end'] and
    ['error'] clear the interval. *)
Definition splitOver (completed : bool) (st : State) : State :=
  {| transcriptionResults := transcriptionResults st;
     totalChunks := totalChunks st; processedChunks := processedChunks st;
     chunksBeingProcessed := chunksBeingProcessed st;
     isSplittingComplete := completed || isSplittingComplete st;
     chunkQueue := chunkQueue st;
     awaiting := awaiting st; watching := false; splitting := false;
     written := written st; promise := promise st |}.

Definition clearInterval (st : State) : State :=
  {| transcriptionResults := transcriptionResults st;
     totalChunks := totalChunks st; processedChunks := processedChunks st;
     chunksBeingProcessed := chunksBeingProcessed st;
     isSplittingComplete := isSplittingComplete st; chunkQueue := chunkQueue st;
     awaiting := awaiting st; watching := false; splitting := splitting st;
     written := written st; promise := promise st |}.

(** [res.write(JSON.stringify(e))]. *)
Definition write (e : ProgressEvent) (st : State) : State :=
  {| transcriptionResults := transcriptionResults st;
     totalChunks := totalChunks st; processedChunks := processedChunks st;
     chunksBeingProcessed := chunksBeingProcessed st;
     isSplittingComplete := isSplittingComplete st; chunkQueue := chunkQueue st;
     awaiting := awaiting st; watching := watching st; splitting := splitting st;
     written := written st ++ [e]; promise := promise st |}.

(** [resolve(v)] and [reject(e)]: a promise settles once. *)
Definition settle (s : Settled) (st : State) : State :=
  {| transcriptionResults := transcriptionResults st;
     totalChunks := totalChunks st; processedChunks := processedChunks st;
     chunksBeingProcessed := chunksBeingProcessed st;
     isSplittingComplete := isSplittingComplete st; chunkQueue := chunkQueue st;
     awaiting := awaiting st; watching := watching st; splitting := splitting st;
     written := written st;
     promise := match promise st with Some s0 => Some s0 | None => Some s end |}.

(** [Math.floor(20 + (processedChunks / totalChunks) * 70)].  The pool
    writes an event only when [totalChunks] is positive. *)
Definition percent (processed total : nat) : Z :=
  Qfloor (20 + (inject_Z (Z.of_nat processed) / inject_Z (Z.of_nat total)) * 70)%Q.

(** [if (transcriptionResults[i])]: a missing entry and the empty string
    are both falsy. *)
Definition truthy (entry : option string) : option string :=
  match entry with
  | Some text => if String.eqb text "" then None else Some text
  | None => None
  end.

(** The loop of [checkCompletion] that fills [combinedResults]. *)
Definition combinedResults (results : gmap nat string) (total : nat) : list string :=
  omap (fun i => truthy (results !! i)) (seq 0 total).

(** [Object.keys(transcriptionResults)]: integer keys in ascending
    order. *)
Definition keys (results : gmap nat string) : list nat :=
  merge_sort Nat.le (map fst (map_to_list results)).

Definition chunkFileName (job : Job) (idx : nat) : string :=
  sessionId job ++ "-chunk-" ++ Str.padStart3 (Str.ofNat idx) ++ outputExt job.

Definition resolution (job : Job) (st : State) : Resolution :=
  {| session := sessionId job;
     chunks := map (fun idx => Str.join (chunksDir job) (chunkFileName job idx))
                   (keys (transcriptionResults st));
     originalFilePath := filePath job;
     combinedTranscription :=
       String.concat " " (combinedResults (transcriptionResults st) (totalChunks st)) |}.

Definition checkCompletion (job : Job) (st : State) : State :=
  if isSplittingComplete st && (processedChunks st =? totalChunks st)%nat
  then settle (Fulfilled (resolution job st)) st
  else st.

(** The checks of [processChunk] before the service is called; the
    result is the message of the error thrown, if any. *)
Definition validate (disk : Disk) (chunk : Chunk) : option string :=
  match disk (path chunk) with
  | None => Some ("ENOENT: no such file or directory, stat '" ++ path chunk ++ "'")
  | Some bytes =>
      if (bytes =? 0)%Z then Some "Chunk file is empty"
      else if (bytes >? 25 * 1024 * 1024)%Z then Some "Chunk file exceeds 25MB limit"
      else None
  end.

Definition maxRetries : nat := 2.

(** The retry loop: [answers k] is what the service does on the call
    made when [retryCount] is [k].  The loop leaves by [break] or by
    re-throwing, so [budget = maxRetries + 1 - retryCount] turns suffice;
    running out of them would leave [transcription] undefined. *)
Fixpoint retryLoop (answers : nat -> ApiResponse) (budget retryCount : nat) : ApiResponse :=
  match budget with
  | O => ApiError "Cannot read properties of undefined (reading 'text')"
  | S budget' =>
      match answers retryCount with
      | ApiOk text => ApiOk text
      | ApiError message =>
          if (maxRetries <? S retryCount)%nat then ApiError message
          else retryLoop answers budget' (S retryCount)
      end
  end.

Definition transcribeWithRetry (answers : nat -> ApiResponse) : ApiResponse :=
  retryLoop answers (S maxRetries) 0.

Definition placeholder (chunkIndex : nat) (message : string) : string :=
  "[Error: Chunk " ++ Str.ofNat (chunkIndex + 1) ++ " failed to transcribe - " ++ message ++ "]".

Definition transcribing (chunkIndex : nat) (st : State) : ProgressEvent :=
  {| status := processing;
     message := "Transcribing chunk " ++ Str.ofNat (chunkIndex + 1) ++ " of "
                ++ Str.ofNat (totalChunks st) ++ "...";
     progress := percent (processedChunks st) (totalChunks st) |}.

Definition completed (st : State) : ProgressEvent :=
  {| status := processing;
     message := "Completed " ++ Str.ofNat (processedChunks st) ++ " of "
                ++ Str.ofNat (totalChunks st) ++ " chunks...";
     progress := percent (processedChunks st) (totalChunks st) |}.

Definition failed (chunkIndex : nat) (st : State) : ProgressEvent :=
  {| status := processing;
     message := "Chunk " ++ Str.ofNat (chunkIndex + 1)
                ++ " failed, continuing with remaining chunks...";
     progress := percent (processedChunks st) (totalChunks st) |}.

(** The end of the [try] block of [processChunk]. *)
Definition storeResult (chunk : Chunk) (text : string) (st : State) : State :=
  let st1 := setResult (index chunk) text st in
  let st2 := setProcessed (S (processedChunks st1)) st1 in
  write (completed st2) st2.

(** The [catch] block of [processChunk]. *)
Definition catchBlock (chunk : Chunk) (errorMessage : string) (st : State) : State :=
  let st1 := setResult (index chunk) (placeholder (index chunk) errorMessage) st in
  let st2 := setProcessed (S (processedChunks st1)) st1 in
  write (failed (index chunk) st2) st2.

(** The [finally] block of [processChunk]; [more] is
    [checkForMoreChunks]. *)
Definition finallyBlock (more : State -> State) (job : Job) (st : State) : State :=
  let st1 := setBeingProcessed (Nat.pred (chunksBeingProcessed st)) st in
  checkCompletion job (more st1).

(** [processChunk(chunkPath, chunkIndex)] up to its first suspension: it
    either stops at the service call or, when a check throws, runs its
    [catch] and [finally] blocks at once. *)
Definition processChunk (more : State -> State) (job : Job) (disk : Disk)
    (chunk : Chunk) (st : State) : State :=
  let st1 := setBeingProcessed (S (chunksBeingProcessed st)) st in
  let st2 := write (transcribing (index chunk) st1) st1 in
  match validate disk chunk with
  | Some errorMessage => finallyBlock more job (catchBlock chunk errorMessage st2)
  | None => setAwaiting (awaiting st2 ++ [chunk]) st2
  end.

(** The [while] loop of [checkForMoreChunks].  Every turn shifts the
    queue, so [length chunkQueue] turns suffice, also for the calls
    nested in [processChunk]. *)
Fixpoint checkForMoreChunksLoop (turns : nat) (job : Job) (disk : Disk) (st : State) : State :=
  match turns with
  | O => st
  | S turns' =>
      match chunkQueue st with
      | nextChunk :: rest =>
          if (chunksBeingProcessed st <? MAX_CONCURRENT_CHUNKS)%nat
          then checkForMoreChunksLoop turns' job disk
                 (processChunk (checkForMoreChunksLoop turns' job disk) job disk
                    nextChunk (setQueue rest st))
          else st
      | [] => st
      end
  end.

Definition checkForMoreChunks (job : Job) (disk : Disk) (st : State) : State :=
  checkForMoreChunksLoop (List.length (chunkQueue st)) job disk st.

(** [processChunk] from the moment the service call and its retries are
    over. *)
Definition processChunkResumed (job : Job) (disk : Disk) (chunk : Chunk)
    (answers : nat -> ApiResponse) (st : State) : State :=
  let st1 := match transcribeWithRetry answers with
             | ApiOk text => storeResult chunk text st
             | ApiError errorMessage => catchBlock chunk errorMessage st
             end in
  finallyBlock (checkForMoreChunks job disk) job st1.

(** [file.match(/chunk-(\d+)/)]: the digits at the first place where
    [chunk-] is followed by a digit. *)
Fixpoint matchChunk (file : string) : option string :=
  let here := if String.prefix "chunk-" file
              then Str.digitRun (String.substring 6 (String.length file - 6) file)
              else EmptyString in
  if negb (String.eqb here "") then Some here
  else match file with
       | EmptyString => None
       | String _ rest => matchChunk rest
       end.

(** [parseInt(file.match(/chunk-(\d+)/)[1])]; nothing when [match]
    returns [null], where the source throws a TypeError. *)
Definition chunkNum (file : string) : option nat :=
  Str.parseDigits <$> matchChunk file.

Definition isChunkFile (job : Job) (file : string) : bool :=
  Str.startsWith (sessionId job ++ "-chunk-") file && Str.endsWith (outputExt job) file.

(** [Array.prototype.sort] with the comparator [numA - numB]: a stable
    sort by number. *)
Fixpoint insertByNum (x : nat * string) (l : list (nat * string)) : list (nat * string) :=
  match l with
  | [] => [x]
  | y :: l' => if (fst x <=? fst y)%nat then x :: l else y :: insertByNum x l'
  end.

Definition sortByNum (l : list (nat * string)) : list (nat * string) :=
  foldr insertByNum [] l.

(** [currentChunks] of the watcher.  The comparator runs only when there
    are two files or more; it throws on a name without a number. *)
Definition currentChunks (job : Job) (listing : list string) : option (list string) :=
  let files := List.filter (isChunkFile job) listing in
  match files with
  | [] | [_] => Some files
  | _ =>
      keyed ← mapM (fun file => (fun n => (n, file)) <$> chunkNum file) files;
      Some (map snd (sortByNum keyed))
  end.

Definition newChunk (job : Job) (file : string) : option Chunk :=
  (fun n => {| path := Str.join (chunksDir job) file; index := n |}) <$> chunkNum file.

(** What one callback of the event loop leads to. *)
Inductive Outcome :=
  | Continues (st : State)
  | Uncaught (error : string)     (* the callback threw *)
  | NotEnabled.                   (* the event cannot occur in this state *)

Definition typeError : string := "Cannot read properties of null (reading '1')".

(** The callback of [chunkWatcher], on the listing [readdirSync] returns. *)
Definition watcherTick (job : Job) (listing : list string) (disk : Disk) (st : State) : Outcome :=
  if isSplittingComplete st then Continues (clearInterval st)
  else
    match currentChunks job listing with
    | None => Uncaught typeError
    | Some current =>
        if (totalChunks st <? List.length current)%nat then
          match mapM (newChunk job) (drop (totalChunks st) current) with
          | None => Uncaught typeError
          | Some fresh =>
              let st1 := setQueue (chunkQueue st ++ fresh) st in
              let st2 := setTotal (List.length current) st1 in
              Continues (checkForMoreChunks job disk st2)
          end
        else Continues st
    end.

(** What the event loop can run next: a tick of the watcher with the
    current directory listing, the end or the failure of the split, or
    the resumption of the [k]-th suspended [processChunk], the service
    having answered its calls with [answers].  [disk] gives the file
    sizes at that moment. *)
Inductive Event :=
  | WatcherTick (listing : list string) (disk : Disk)
  | SplitEnd
  | SplitError (message : string)
  | ServiceSettles (k : nat) (answers : Chunk -> nat -> ApiResponse) (disk : Disk).

Definition step (job : Job) (st : State) (ev : Event) : Outcome :=
  match ev with
  | WatcherTick listing disk =>
      if watching st then watcherTick job listing disk st else NotEnabled
  | SplitEnd =>
      if splitting st then Continues (checkCompletion job (splitOver true st))
      else NotEnabled
  | SplitError message =>
      if splitting st then Continues (settle (Rejected message) (splitOver false st))
      else NotEnabled
  | ServiceSettles k answers disk =>
      match awaiting st !! k with
      | Some chunk =>
          Continues (processChunkResumed job disk chunk (answers chunk)
                       (setAwaiting (delete k (awaiting st)) st))
      | None => NotEnabled
      end
  end.

Fixpoint run (job : Job) (evs : list Event) (st : State) : Outcome :=
  match evs with
  | [] => Continues st
  | ev :: evs' =>
      match step job st ev with
      | Continues st' => run job evs' st'
      | other => other
      end
  end.

(** The states a run passes through, the starting state excluded. *)
Fixpoint trajectory (job : Job) (evs : list Event) (st : State) : list State :=
  match evs with
  | [] => []
  | ev :: evs' =>
      match step job st ev with
      | Continues st' => st' :: trajectory job evs' st'
      | _ => []
      end
  end.

Fixpoint nondecreasing (l : list Z) : Prop :=
  match l with
  | x :: ((y :: _) as rest) => (x <= y)%Z /\ nondecreasing rest
  | _ => True
  end.

(** *** Sample jobs *)

Definition sampleJob : Job :=
  {| chunksDir := "chunks"; sessionId := "5d1e"; outputExt := ".mp3";
     filePath := "uploads/1700000000000-42.mp3" |}.

Definition sampleListing (n : nat) : list string :=
  map (chunkFileName sampleJob) (seq 0 n).

(** Every file is there with 20,000,000 bytes. *)
Definition sampleDisk : Disk := fun _ => Some 20000000%Z.

(** The service returns the text of the segment at the first call. *)
Definition sampleTexts (i : nat) : string :=
  match i with
  | O => "good morning"
  | 1%nat => "and welcome"
  | _ => "to the show"
  end.

Definition sampleService (c : Chunk) (attempt : nat) : ApiResponse :=
  ApiOk (sampleTexts (index c)).

Definition stateOf (o : Outcome) : State :=
  match o with Continues st => st | _ => initial end.

(** One chunk is discovered and transcribed before the watcher sees
    two more. *)
Definition growingRun : list Event :=
  [WatcherTick (sampleListing 1) sampleDisk;
   ServiceSettles 0 sampleService sampleDisk;
   WatcherTick (sampleListing 3) sampleDisk].



(** Five chunks are discovered at once: three calls start, two chunks
    wait. *)
Definition busyRun : list Event := [WatcherTick (sampleListing 5) sampleDisk].

Definition busyFinal : State := stateOf (run sampleJob busyRun initial).

(** *** Invariants of the pool *)

(** The counters agree with the suspended calls and with the queue. *)
Definition counted (st : State) : Prop :=
  chunksBeingProcessed st = List.length (awaiting st)
  /\ (chunksBeingProcessed st <= MAX_CONCURRENT_CHUNKS)%nat
  /\ totalChunks st
     = (processedChunks st + chunksBeingProcessed st + List.length (chunkQueue st))%nat.

(** Nothing waits in the queue while a slot is free. *)
Definition saturated (st : State) : Prop :=
  chunkQueue st = [] \/ (MAX_CONCURRENT_CHUNKS <= chunksBeingProcessed st)%nat.

(** The promise and the two event sources: a fulfilled promise holds the
    resolution of the current state, which is complete; a rejected one
    means the split failed; a finished split has stopped the watcher. *)
Definition settledRight (job : Job) (st : State) : Prop :=
  (forall r, promise st = Some (Fulfilled r) ->
     r = resolution job st /\ isSplittingComplete st = true
     /\ processedChunks st = totalChunks st)
  /\ (forall e, promise st = Some (Rejected e) ->
        isSplittingComplete st = false /\ splitting st = false)
  /\ (isSplittingComplete st = true -> splitting st = false /\ watching st = false)
  /\ (splitting st = false -> watching st = false).

(** Once the split is over and every chunk is processed the promise is
    settled. *)
Definition answered (st : State) : Prop :=
  isSplittingComplete st = true -> processedChunks st = totalChunks st ->
  is_Some (promise st).

(** No event is written before a chunk is discovered, and no event
    carries more than the percentage of the current counters. *)
Definition capped (st : State) : Prop :=
  (totalChunks st = 0%nat -> written st = [])
  /\ Forall (fun e => (progress e <= percent (processedChunks st) (totalChunks st))%Z)
       (written st)
  /\ nondecreasing (map progress (written st)).

(** Every event of the pool carries a percentage from 20 to 90. *)
Definition ranged (st : State) : Prop :=
  Forall (fun e => (20 <= progress e <= 90)%Z) (written st).

(** The number of discovered chunks grows only while no chunk has been
    processed: from each state of the list to the next, [totalChunks]
    stays the same unless [processedChunks] is still 0. *)
Fixpoint growsBeforeProgress (st : State) (states : list State) : Prop :=
  match states with
  | [] => True
  | st' :: rest =>
      (totalChunks st' = totalChunks st \/ processedChunks st = 0%nat)
      /\ growsBeforeProgress st' rest
  end.

(** *** Orderly jobs

    A listing is [dense] when the numbers of its chunk files, sorted,
    are 0 .. n-1, as the pattern [%03d] numbers them.  A disk is
    [healthy] when every file asked for is there, not empty and within
    the limit. *)
Definition dense (job : Job) (listing : list string) : Prop :=
  exists current, currentChunks job listing = Some current
    /\ map chunkNum current = map Some (seq 0 (List.length current)).

Definition healthy (disk : Disk) : Prop :=
  forall p, exists bytes, disk p = Some bytes /\ (0 < bytes <= OPENAI_WHISPER_LIMIT)%Z.

(** What [processChunk] stores for segment [i] when its calls to the
    service end with [o]. *)
Definition entry (i : nat) (o : ApiResponse) : string :=
  match o with
  | ApiOk text => text
  | ApiError errorMessage => placeholder i errorMessage
  end.



(** An event of a job on healthy disks in which the calls for segment
    [i], retries included, end with [outcome i]; nothing is asked of
    the numbers in the listings. *)
Definition settles (outcome : nat -> ApiResponse) (ev : Event) : Prop :=
  match ev with
  | WatcherTick _ disk => healthy disk
  | ServiceSettles _ answers disk =>
      healthy disk /\ forall c, transcribeWithRetry (answers c) = outcome (index c)
  | SplitEnd | SplitError _ => True
  end.

(** Every segment is transcribed, its text being [texts i], whatever
    the numbers of the chunk files. *)
Definition eachSucceeds (texts : nat -> string) (ev : Event) : Prop :=
  settles (fun i => ApiOk (texts i)) ev.



Definition nonEmpty (text : string) : bool := negb (String.eqb text "").



(** The indices the loop of [checkCompletion] finds an entry at: those
    below [totalChunks] that have one, in ascending order. *)
Definition present (st : State) : list nat :=
  List.filter (fun i => bool_decide (is_Some (transcriptionResults st !! i)))
    (seq 0 (totalChunks st)).

(** A service that fails every call for segment 1. *)
Definition flakyService (c : Chunk) (attempt : nat) : ApiResponse :=
  if (index c =? 1)%nat then ApiError "503 Service Unavailable"
  else ApiOk (sampleTexts (index c)).

Definition flakyRun : list Event :=
  [WatcherTick (sampleListing 3) sampleDisk;
   ServiceSettles 1 flakyService sampleDisk;
   ServiceSettles 0 flakyService sampleDisk;
   SplitEnd;
   ServiceSettles 0 flakyService sampleDisk].

Definition flakyFinal : State := stateOf (run sampleJob flakyRun initial).




(** One chunk is discovered, two more are before the first call
    returns, and the three are transcribed. *)
Definition steadyRun : list Event :=
  [WatcherTick (sampleListing 1) sampleDisk;
   WatcherTick (sampleListing 3) sampleDisk;
   ServiceSettles 0 sampleService sampleDisk;
   ServiceSettles 0 sampleService sampleDisk;
   SplitEnd;
   ServiceSettles 0 sampleService sampleDisk].

Definition steadyFinal : State := stateOf (run sampleJob steadyRun initial).

(** The repair has replaced chunk 1 by a piece it renamed with the
    first characters of a uuid, [12ab34cd]: the watcher reads the
    number 12 in that name. *)
Definition sparseListing : list string :=
  [chunkFileName sampleJob 0; "5d1e-chunk-12ab34cd.mp3"].

Definition sparseRun : list Event :=
  [WatcherTick sparseListing sampleDisk;
   ServiceSettles 0 sampleService sampleDisk;
   SplitEnd;
   ServiceSettles 0 sampleService sampleDisk].


(** A service that fails every call for segment 12. *)
Definition lostService (c : Chunk) (attempt : nat) : ApiResponse :=
  if (index c =? 12)%nat then ApiError "503 Service Unavailable"
  else ApiOk (sampleTexts (index c)).


(** The repair has renamed a piece to [chunk-0ab12cd3]: the watcher
    reads the number 0 in that name, as in [chunk-000].  The two files
    hold different speech. *)
Definition twinListing : list string :=
  [chunkFileName sampleJob 0; "5d1e-chunk-0ab12cd3.mp3"].

Definition twinService (c : Chunk) (attempt : nat) : ApiResponse :=
  ApiOk (if String.eqb (path c) "chunks/5d1e-chunk-000.mp3"
         then "good morning" else "and welcome").

Definition twinRun : list Event :=
  [WatcherTick twinListing sampleDisk;
   ServiceSettles 0 twinService sampleDisk;
   SplitEnd;
   ServiceSettles 0 twinService sampleDisk].

End Pool.

(** ** Authentication: [requireAuth], [/api/authenticate], [/api/logout] *)

Module Auth.

(** A value of a parsed JSON body, or [undefined] for a missing key. *)
Inductive Value :=
  | Undefined
  | Null
  | Bool (b : bool)
  | Number (q : Q)
  | Text (s : string)
  | Object.

(** [!v] is [negb (truthy v)]. *)
Definition truthy (v : Value) : bool :=
  match v with
  | Undefined | Null => false
  | Bool b => b
  | Number q => negb (Qeq_bool q 0)
  | Text s => negb (String.eqb s "")
  | Object => true
  end.

(** [v === process.env.X], an environment variable being a string or
    [undefined]. *)
Definition strictEq (v : Value) (variable : option string) : bool :=
  match v, variable with
  | Text s, Some p => String.eqb s p
  | Undefined, None => true
  | _, _ => false
  end.

(** [`${process.env.X}`]. *)
Definition interpolate (variable : option string) : string :=
  match variable with
  | Some p => p
  | None => "undefined"
  end.

(** What the middleware reads of a request: [req.path], whether
    [req.session.authenticated] is set, and [req.headers.authorization]. *)
Record Request := {
  path : string;
  authenticated : bool;
  authorization : option string
}.

Inductive Verdict :=
  | Next                  (* next() *)
  | Unauthorized          (* 401 { error: 'Authentication required' } *)
  | RedirectLogin.        (* res.redirect('/login.html') *)

Definition isLoginPath (p : string) : bool :=
  String.eqb p "/login.html" || String.eqb p "/login.css"
  || String.eqb p "/login.js" || String.eqb p "/api/authenticate".

(** [requireAuth(req, res, next)]; [PIN_CODE] is [process.env.PIN_CODE]. *)
Definition requireAuth (PIN_CODE : option string) (req : Request) : Verdict :=
  if isLoginPath (path req) then Next
  else if authenticated req then Next
  else if Str.startsWith "/api/" (path req) then
    match authorization req with
    | Some authHeader =>
        if negb (String.eqb authHeader "")
           && String.eqb authHeader ("Bearer " ++ interpolate PIN_CODE)
        then Next else Unauthorized
    | None => Unauthorized
    end
  else RedirectLogin.

(** A JSON answer: the status, [success], and the message or error. *)
Record Reply := {
  status : nat;
  success : bool;
  text : string
}.

(** The handler of [/api/authenticate] on [req.body.pin]: the answer and
    the session's [authenticated] flag afterwards. *)
Definition authenticate (PIN_CODE : option string) (pin : Value) (flag : bool)
  : Reply * bool :=
  if negb (truthy pin)
  then ({| status := 400; success := false; text := "PIN is required" |}, flag)
  else if strictEq pin PIN_CODE
  then ({| status := 200; success := true; text := "Authentication successful" |}, true)
  else ({| status := 401; success := false; text := "Invalid PIN" |}, flag).

(** The handler of [/api/logout].  [session] is the flag of the
    session when there is one; [destroyFails] says that the store
    reports an error, in which case the session stays. *)
Definition logout (session : option bool) (destroyFails : bool) : Reply * option bool :=
  match session with
  | Some flag =>
      if destroyFails
      then ({| status := 500; success := false; text := "Could not log out" |}, Some flag)
      else ({| status := 200; success := true; text := "Logged out successfully" |}, None)
  | None => ({| status := 200; success := true; text := "Already logged out" |}, None)
  end.

(** The flag the middleware sees on the next request. *)
Definition flagOf (session : option bool) : bool :=
  match session with Some flag => flag | None => false end.

End Auth.

(** ** Saved transcriptions: [/api/transcriptions] and
    [/api/transcriptions/:filename] *)

Module Store.

(** The answers of the download route. *)
Inductive Answer :=
  | NotFound                                   (* 404 'Transcription not found' *)
  | Content (content filename : string)        (* { success: true, content, filename } *)
  | ReadFailed.                                (* 500 'Failed to read transcription' *)

(** The handler of [GET /api/transcriptions/:filename]. *)
Definition download (env : Route.Env) (filename : string) : Exn.M Route.World Answer :=
  Exn.tryCatch
    (let filepath := Str.join (Route.transcriptionsDir env) filename in
     (let* present := Route.existsSync filepath in
      if negb present || negb (Str.endsWith ".txt" filename)
      then Exn.ret NotFound
      else
        let* content := Route.readFile filepath in
        Exn.ret (Content content filename))%exn)
    (fun _ => Exn.ret ReadFailed).

(** An entry of the transcriptions directory: [stats.mtime] in
    milliseconds and [stats.size]. *)
Record Entry := {
  name : string;
  mtime : Z;
  bytes : Z
}.

(** An element of [transcriptions] in the listing. *)
Record Item := {
  filename : string;
  baseFilename : string;
  created : Z;
  size : Z;
  hasDocx : bool
}.

(** [s.replace(pattern, '')] for a string pattern: the first occurrence
    of the pattern is removed. *)
Fixpoint removeFirst (pattern s : string) : string :=
  if String.prefix pattern s
  then String.substring (String.length pattern) (String.length s - String.length pattern) s
  else match s with
       | EmptyString => EmptyString
       | String c rest => String c (removeFirst pattern rest)
       end.

Definition toItem (dir : list Entry) (e : Entry) : Item :=
  let baseFilename := removeFirst ".txt" (name e) in
  let docxFilename := baseFilename ++ ".docx" in
  {| filename := name e;
     baseFilename := baseFilename;
     created := mtime e;
     size := bytes e;
     hasDocx := existsb (fun other => String.eqb (name other) docxFilename) dir |}.

(** [sort((a, b) => b.created - a.created)]: a stable sort, most recent
    first. *)
Fixpoint insertByCreated (x : Item) (l : list Item) : list Item :=
  match l with
  | [] => [x]
  | y :: l' => if (created y <=? created x)%Z then x :: l else y :: insertByCreated x l'
  end.

Definition sortByCreated (l : list Item) : list Item := foldr insertByCreated [] l.

(** The [transcriptions] array of [GET /api/transcriptions] on the
    entries [readdirSync] lists. *)
Definition listTranscriptions (dir : list Entry) : list Item :=
  sortByCreated (map (toItem dir) (List.filter (fun e => Str.endsWith ".txt" (name e)) dir)).

End Store.

(** ** The hourly sweep, [cleanupOldFiles] *)

Module Sweep.

Inductive Kind := File | Directory.

(** An entry of a directory with [stats.mtime.getTime()]. *)
Record Entry := {
  name : string;
  mtime : Z;
  kind : Kind
}.

Definition Dir : Type := list Entry.

(** The four directories of the server. *)
Record Disk := {
  uploadDir : Dir;
  chunksDir : Dir;
  tempDir : Dir;
  transcriptionsDir : Dir
}.

(** 24 hours in milliseconds. *)
Definition maxAge : Z := 24 * 60 * 60 * 1000.

Definition lookup (file : string) (d : Dir) : option Entry :=
  List.find (fun e => String.eqb (name e) file) d.

Definition statSync (file : string) : Exn.M Dir Entry :=
  fun d => match lookup file d with
           | Some e => (inl e, d)
           | None => (inr ("ENOENT: no such file or directory, stat '" ++ file ++ "'"), d)
           end.

(** [fs.unlinkSync] refuses a directory. *)
Definition unlinkSync (file : string) : Exn.M Dir unit :=
  fun d => match lookup file d with
           | Some e =>
               match kind e with
               | File => (inl tt, List.filter (fun e' => negb (String.eqb (name e') file)) d)
               | Directory =>
                   (inr ("EISDIR: illegal operation on a directory, unlink '" ++ file ++ "'"), d)
               end
           | None => (inr ("ENOENT: no such file or directory, unlink '" ++ file ++ "'"), d)
           end.

Definition old (now : Z) (e : Entry) : bool := (now - mtime e >? maxAge)%Z.

(** [files.forEach(file => { .. })]. *)
Fixpoint forEachFile (now : Z) (files : list string) : Exn.M Dir unit :=
  match files with
  | [] => Exn.ret tt
  | file :: rest =>
      (let* stats := statSync file in
       (if old now stats then unlinkSync file else Exn.ret tt) ;;
       forEachFile now rest)%exn
  end.

(** The [try]/[catch] around one directory. *)
Definition cleanupDir (now : Z) (d : Dir) : Dir :=
  snd (Exn.tryCatch
         (fun d0 => forEachFile now (map name d0) d0)
         (fun _ => Exn.ret tt) d).

(** [cleanupOldFiles()] at the time [now]. *)
Definition cleanupOldFiles (now : Z) (disk : Disk) : Disk :=
  {| uploadDir := cleanupDir now (uploadDir disk);
     chunksDir := cleanupDir now (chunksDir disk);
     tempDir := cleanupDir now (tempDir disk);
     transcriptionsDir := transcriptionsDir disk |}.

Definition recent (now : Z) (e : Entry) : bool := negb (old now e).

Definition sampleDir : Dir :=
  [ {| name := "1700000000000-1.mp3"; mtime := 0; kind := File |};
    {| name := "1700086400000-2.mp3"; mtime := 13600000; kind := File |};
    {| name := "1700090000000-3.mp3"; mtime := 90000000; kind := File |} ].

End Sweep.

(** ** Names of chunk files *)

Module Names.

(** [uuidv4()] returns lower-case hexadecimal digits and dashes. *)
Definition isUuidChar (c : ascii) : bool :=
  let n := nat_of_ascii c in
  Str.isDigit c || ((97 <=? n)%nat && (n <=? 102)%nat) || Ascii.eqb c "-"%char.

Fixpoint uuidLike (s : string) : bool :=
  match s with
  | EmptyString => true
  | String c s' => isUuidChar c && uuidLike s'
  end.

(** [inputExt === '.mp3' ? '.mp3' : '.m4a']. *)
Definition outputExtOf (inputExt : string) : string :=
  if String.eqb inputExt ".mp3" then ".mp3" else ".m4a".

(** The chunk the watcher queues for the file that ffmpeg writes for
    segment [idx]. *)
Definition chunkOf (job : Pool.Job) (idx : nat) : Pool.Chunk :=
  {| Pool.path := Str.join (Pool.chunksDir job) (Pool.chunkFileName job idx);
     Pool.index := idx |}.

End Names.

(** ** More sample jobs *)

Module Jobs.
Import Pool.

(** Two chunks are discovered and sent, the split fails, and the two
    calls return afterwards. *)
Definition brokenRun : list Event :=
  [WatcherTick (sampleListing 2) sampleDisk;
   SplitError "ffmpeg exited with code 1";
   ServiceSettles 0 sampleService sampleDisk;
   ServiceSettles 0 sampleService sampleDisk].

Definition brokenFinal : State := stateOf (run sampleJob brokenRun initial).

(** Chunk 1 is an empty file, chunk 2 is missing, chunk 3 has 30 MB. *)
Definition faultyDisk : Disk :=
  fun p =>
    if String.eqb p (Str.join "chunks" (chunkFileName sampleJob 1)) then Some 0%Z
    else if String.eqb p (Str.join "chunks" (chunkFileName sampleJob 2)) then None
    else if String.eqb p (Str.join "chunks" (chunkFileName sampleJob 3))
         then Some (30 * 1024 * 1024)%Z
    else Some 20000000%Z.

(** Five chunks are queued and nothing is in flight. *)
Definition queuedState : State :=
  setTotal 5
    (setQueue (map (fun i => {| path := Str.join "chunks" (chunkFileName sampleJob i);
                                index := i |}) (seq 0 5))
       initial).

(** What a call of [checkForMoreChunks] on [st0] may have led to: the
    calls suspended are those of [st0] and queued chunks that passed the
    checks, and the queue holds chunks of the queue of [st0]. *)
Definition dispatchedFrom (disk : Disk) (st0 st : State) : Prop :=
  (forall c, In c (awaiting st) ->
     In c (awaiting st0) \/ (In c (chunkQueue st0) /\ validate disk c = None))
  /\ (forall c, In c (chunkQueue st) -> In c (chunkQueue st0)).

(** The discovered indices are 0 .. total-1 whatever the service and
    the disk do: the queue holds the last of them in order, and each of
    the others, and no other number, belongs to a suspended call or has
    an entry. *)
Definition indexed (st : State) : Prop :=
  let started := (totalChunks st - List.length (chunkQueue st))%nat in
  map index (chunkQueue st) = seq started (List.length (chunkQueue st))
  /\ (forall i, (i < started)%nat ->
        In i (map index (awaiting st)) \/ is_Some (transcriptionResults st !! i))
  /\ (forall c, In c (awaiting st) -> (index c < started)%nat)
  /\ (forall i, is_Some (transcriptionResults st !! i) -> (i < started)%nat).

(** The watcher sees the files ffmpeg writes, numbered from 0. *)
Definition denseEvent (job : Job) (ev : Event) : Prop :=
  match ev with
  | WatcherTick listing _ => dense job listing
  | _ => True
  end.

(** The service is down: every call fails. *)
Definition downService (c : Chunk) (attempt : nat) : ApiResponse :=
  ApiError "connect ECONNREFUSED".

(** Three chunks are discovered, the second an empty file and the
    third already gone, and the call for the first fails. *)
Definition downRun : list Event :=
  [WatcherTick (sampleListing 3) faultyDisk;
   SplitEnd;
   ServiceSettles 0 downService faultyDisk].

Definition downFinal : State := stateOf (run sampleJob downRun initial).

End Jobs.

(** ** The chunked pipeline seen from the route: [cleanupFiles] and
    [handleLargeFile] *)

Module Large.
Import Route.

(** The objects written to the response stream. *)
Inductive Message :=
  | Processing (message : string) (progress : Z)
  | Complete (transcription : string) (savedAs : option string)
  | Failed (error : string).

(** [Math.round(x)]: the nearest integer, halves upwards. *)
Definition round (q : Q) : Z := Qfloor (q + (1 # 2)).

(** [chunks.forEach(chunk => { try { fs.unlinkSync(chunk); } catch (e) { .. } })]. *)
Fixpoint unlinkEach (chunks : list string) : Exn.M World unit :=
  match chunks with
  | [] => Exn.ret tt
  | chunk :: rest =>
      (Exn.tryCatch (unlinkSync chunk) (fun _ => Exn.ret tt) ;;
       unlinkEach rest)%exn
  end.

Definition cleanupFiles (filePath : string) (chunks : list string) : Exn.M World unit :=
  (Exn.tryCatch (unlinkSync filePath) (fun _ => Exn.ret tt) ;;
   unlinkEach chunks)%exn.

(** The first object [handleLargeFile] writes. *)
Definition startMessage (fileSize : Z) : Message :=
  Processing
    ("Processing large file ("
     ++ Str.ofNat (Z.to_nat (round (inject_Z fileSize / inject_Z MB)))
     ++ "MB). Using intelligent chunking for optimal rate limits...") 5.

Section Handler.

(** [JSON.stringify]. *)
Variable stringify : Message -> string.

Variable env : Env.

(** [await splitAndProcessAudioFile(filePath, null, res)]: what happens
    until the promise settles, and the value it is fulfilled with; an
    exception is a rejection, and [None] is a promise that never
    settles, where the handler stays suspended.  Calls of
    [processChunk] that are still in flight when the promise is
    rejected resume in later callbacks: what they write then is not
    part of the handler's run and is not modelled here. *)
Variable splitAndProcessAudioFile : string -> Exn.M World (option Pool.Resolution).

Definition handleLargeFile (file : UploadedFile) : Exn.M World unit :=
  let filePath := path file in
  let fileSize := size file in
  Exn.tryCatch
    (emit (StreamWrite (stringify (startMessage fileSize))) ;;
     let* settled := splitAndProcessAudioFile filePath in
     match settled with
     | None => Exn.ret tt
     | Some r =>
         emit (StreamWrite (stringify (Processing
            "Transcription complete. Finalizing results..." 95))) ;;
         let* savedFilename :=
           saveTranscription env (Pool.combinedTranscription r) (originalname file) in
         cleanupFiles filePath (Pool.chunks r) ;;
         emit (StreamEnd (stringify
            (Complete (Pool.combinedTranscription r) savedFilename)))
     end)%exn
    (fun error =>
       emit (StreamEnd (stringify
          (Failed (orDefault error "Failed to process audio file"))))).

(** The world in which the pipeline starts. *)
Definition started (file : UploadedFile) (w : World) : World :=
  snd (emit (StreamWrite (stringify (startMessage (size file)))) w).

(** The route with the chunked pipeline plugged in. *)
Definition route (file : option UploadedFile) (w : World) : World :=
  transcribe (fun f w0 => snd (handleLargeFile f w0)) env file w.

End Handler.

Definition isStreamEnd (e : Effect) : bool :=
  match e with StreamEnd _ => true | _ => false end.

Definition isStreamWrite (e : Effect) : bool :=
  match e with StreamWrite _ => true | _ => false end.

(** A pipeline that touches the response only by [res.write]. *)
Definition writesOnly (split : string -> Exn.M World (option Pool.Resolution)) : Prop :=
  forall p w, exists ws,
    effects (snd (split p w)) = (effects w ++ ws)%list
    /\ forallb isStreamWrite ws = true.

(** Sample pipelines: two chunks are written and transcribed; the split
    fails after one chunk is written. *)
Definition sampleStringify (m : Message) : string :=
  match m with
  | Processing message _ => "processing: " ++ message
  | Complete transcription _ => "complete: " ++ transcription
  | Failed error => "error: " ++ error
  end.

Definition twoChunks (p : string) : Exn.M World (option Pool.Resolution) :=
  fun w =>
    (inl (Some {| Pool.session := "5d1e";
                  Pool.chunks := ["chunks/5d1e-chunk-000.mp3"; "chunks/5d1e-chunk-001.mp3"];
                  Pool.originalFilePath := p;
                  Pool.combinedTranscription := "good morning and welcome" |}),
     {| disk := <["chunks/5d1e-chunk-000.mp3" := "a"]>
                  (<["chunks/5d1e-chunk-001.mp3" := "b"]> (disk w));
        effects := effects w ++ [StreamWrite "processing: Completed 2 of 2 chunks..."] |}).

Definition failingSplit (p : string) : Exn.M World (option Pool.Resolution) :=
  fun w =>
    (inr "ffmpeg exited with code 1",
     {| disk := <["chunks/5d1e-chunk-000.mp3" := "a"]> (disk w);
        effects := effects w
                   ++ [StreamWrite "processing: Analyzing audio file for optimal chunking..."] |}).

End Large.

(** ** What the repair touches *)

Module Mending.
Import Repair.

(** The operations the repair is seen to do: ffmpeg runs on and
    unlinks of chunk files of the session; files created with [-sub-]
    in their name; renames of [-sub-] files to
    [<session>-chunk-<first 8 characters of a uuid><ext>]. *)
Definition sessionOnly (env : Env) (options : Options) (o : Op) : Prop :=
  match o with
  | Readdir => True
  | FfmpegSegment input _ => isChunkFile options input = true
  | Unlink name => isChunkFile options name = true
  | Create name _ => Str.includes "-sub-" name = true
  | Rename oldName newName =>
      Str.includes "-sub-" oldName = true
      /\ exists k, newName = sessionId options ++ "-chunk-"
                             ++ String.substring 0 8 (uuidv4 env k) ++ outputExt options
  end.

(** Neither an unlink nor a rename. *)
Definition keepsFiles (o : Op) : Prop :=
  match o with
  | Unlink _ | Rename _ _ => False
  | _ => True
  end.

(** ffmpeg writes one piece and then fails. *)
Definition brokenEnv : Env :=
  {| ffmpeg := fun _ bytes _ => ([bytes / 2], Some "ffmpeg exited with code 1");
     uuidv4 := fun _ => "9a0b1c2d-0000-4000-8000-000000000000" |}.

End Mending.

(** ** Word documents: [/api/generate-word] *)

Module Docx.





Inductive Reply :=
  | Missing                      (* 400 'Missing transcription or filename' *)
  | Download (docxFilename title : string) (body : list string)
  | Failed.                      (* 500 'Failed to generate Word document' *)



End Docx.

(** * Properties *)

(** ** The planner *)

Lemma optimalDuration_at_rate (fileSize : Z) (fileDuration rate : Q) :
  (0 < fileDuration)%Q ->
  (inject_Z fileSize == rate * fileDuration)%Q ->
  optimalDuration fileSize fileDuration = Qfloor (inject_Z (24 * MB) / rate)%Q.
Proof.
  intros Hd Hr. unfold optimalDuration, estimatedBitrate.
  apply Qfloor_comp.
  assert (E : (inject_Z fileSize / fileDuration == rate)%Q).
  { rewrite Hr. field. intros H0. rewrite H0 in Hd. inversion Hd. }
  rewrite E. reflexivity.
Qed.

(** C2. For a file of positive size and positive duration the planner
    returns a duration between [MIN_CHUNK_DURATION] = 120 and
    [MAX_CHUNK_DURATION] = 1800 seconds, both included. *)
Theorem calculateOptimalChunkDuration_within_bounds (fileSize : Z) (fileDuration : Q) :
  0 < fileSize -> (0 < fileDuration)%Q ->
  MIN_CHUNK_DURATION <= calculateOptimalChunkDuration fileSize fileDuration <= MAX_CHUNK_DURATION
  /\ 120 <= calculateOptimalChunkDuration fileSize fileDuration <= 1800.
Proof.
  intros _ _. unfold calculateOptimalChunkDuration, MIN_CHUNK_DURATION, MAX_CHUNK_DURATION.
  lia.
Qed.

Lemma calculateOptimalChunkDuration_within_bounds_witness :
  120 <= calculateOptimalChunkDuration 30720000 600 <= 1800.
Proof.
  apply (calculateOptimalChunkDuration_within_bounds 30720000 600); reflexivity.
Defined.

(** C7, as the claim states it, fails: a ten-minute file of 30,720,000
    bytes has an estimated bitrate of 50 * 1024 bytes per second, and the
    planner's raw optimum and result are 491 seconds, not 480; with
    50,000 bytes per second they are 503 seconds. *)
Lemma planner_50KBps_is_not_480 :
  (estimatedBitrate 30720000 600 == 50 * 1024)%Q
  /\ optimalDuration 30720000 600 <> 480
  /\ calculateOptimalChunkDuration 30720000 600 <> 480
  /\ (estimatedBitrate 30000000 600 == 50 * 1000)%Q
  /\ calculateOptimalChunkDuration 30000000 600 <> 480.
Proof.
  repeat split; try reflexivity; vm_compute; discriminate.
Qed.

(** C7, amended. For a file whose estimated bitrate is 50 KB/s, that is
    51,200 bytes per second, the raw optimum for the 24 MB target
    (25,165,824 bytes) is 491 seconds; it lies within [120, 1800], so
    the chosen duration is 491 seconds. *)
Theorem planner_50KBps_chooses_491 (fileSize : Z) (fileDuration : Q) :
  (0 < fileDuration)%Q ->
  (inject_Z fileSize == 51200 * fileDuration)%Q ->
  optimalDuration fileSize fileDuration = 491
  /\ MIN_CHUNK_DURATION <= 491 <= MAX_CHUNK_DURATION
  /\ calculateOptimalChunkDuration fileSize fileDuration = 491.
Proof.
  intros Hd Hr.
  assert (E : optimalDuration fileSize fileDuration = 491).
  { rewrite (optimalDuration_at_rate fileSize fileDuration 51200 Hd Hr). reflexivity. }
  unfold calculateOptimalChunkDuration. rewrite E.
  repeat split; vm_compute; congruence.
Qed.

Lemma planner_50KBps_chooses_491_witness :
  calculateOptimalChunkDuration 30720000 600 = 491.
Proof.
  apply (planner_50KBps_chooses_491 30720000 600); reflexivity.
Defined.

(** ** The upload route *)

Section RouteFacts.
Import Route.

Lemma added_app (w : World) (new : list Effect) (d : gmap string string) :
  added w {| disk := d; effects := effects w ++ new |} = new.
Proof. unfold added. simpl. by rewrite drop_app_length. Qed.

(** What the single-request path does, case by case. *)
Lemma singleRequest_cases (env : Env) (f : UploadedFile) (w : World) :
  let w' := snd (singleRequest env f w) in
  match disk w !! path f with
  | None =>
      w' = {| disk := disk w;
              effects := effects w ++
                [SendJson 500 (FailureBody
                   (orDefault ("File does not exist at path: " ++ path f)
                              "Failed to transcribe audio"))] |}
  | Some content =>
      match whisper env content with
      | ApiError m =>
          w' = {| disk := disk w;
                  effects := effects w ++
                    [SendJson 500 (FailureBody (orDefault m "Failed to transcribe audio"))] |}
      | ApiOk text =>
          exists d pre saved,
            w' = {| disk := delete (path f) d;
                    effects := effects w ++ pre ++
                      [Unlink (path f); SendJson 200 (SuccessBody text saved)] |}
            /\ Forall (fun e => isSendJson e = false /\ isStream e = false) pre
      end
  end.
Proof.
  unfold singleRequest, Exn.tryCatch, Exn.bind, existsSync, transcriptionsCreate,
    Exn.bind, readFile, saveTranscription, Exn.tryCatch, Exn.bind, writeFileSync,
    unlinkSync, emit, Exn.throw, Exn.ret.
  simpl. destruct (disk w !! path f) as [content|] eqn:Hf; simpl.
  - rewrite ?Hf.
    destruct (whisper env content) as [text|m]; simpl; [|done].
    destruct (writeError env) as [msg|]; simpl.
    + rewrite Hf. simpl. exists (disk w), [], None. split; [|constructor].
      simpl. by rewrite <- app_assoc.
    + set (p := Str.join _ _).
      destruct (decide (p = path f)) as [->|Hne].
      * rewrite lookup_insert_eq. simpl.
        eexists _, [WriteFile (path f) text], _. split.
        -- by rewrite <- !app_assoc.
        -- repeat constructor.
      * rewrite lookup_insert_ne, Hf by done. simpl.
        eexists _, [WriteFile p text], _. split.
        -- by rewrite <- !app_assoc.
        -- repeat constructor.
  - done.
Qed.

(** A file above the limit is handed to the chunked pipeline. *)
Lemma transcribe_large (H : UploadedFile -> World -> World) (env : Env)
    (f : UploadedFile) (w : World) :
  OPENAI_WHISPER_LIMIT < size f -> transcribe H env (Some f) w = H f w.
Proof.
  intros Hs. unfold transcribe.
  destruct (size f >? OPENAI_WHISPER_LIMIT) eqn:E; [done|].
  rewrite Z.gtb_ltb in E. apply Z.ltb_ge in E. lia.
Qed.

Lemma transcribe_small (H : UploadedFile -> World -> World) (env : Env)
    (f : UploadedFile) (w : World) :
  size f <= OPENAI_WHISPER_LIMIT -> transcribe H env (Some f) w = snd (singleRequest env f w).
Proof.
  intros Hs. unfold transcribe.
  destruct (size f >? OPENAI_WHISPER_LIMIT) eqn:E; [|done].
  rewrite Z.gtb_ltb in E. apply Z.ltb_lt in E. lia.
Qed.

(** C9. A file of at most 25 * 1024 * 1024 bytes, the limit included, is
    handled by the single-request path: the route does what
    [singleRequest] does, whatever the chunked pipeline is.  It adds
    file operations and then exactly one JSON response to the log and
    writes nothing to a stream; the response is 200 with the text of the
    service when the upload is on disk and the service answers, and 500
    with the error otherwise.  The chunked pipeline is what the route
    runs for every file of more than 25 * 1024 * 1024 bytes, and for no
    other. *)
Theorem transcribe_small_file_single_json (H : UploadedFile -> World -> World)
    (env : Env) (f : UploadedFile) (w : World) :
  size f <= 25 * 1024 * 1024 ->
  transcribe H env (Some f) w = snd (singleRequest env f w)
  /\ (forall H', transcribe H' env (Some f) w = transcribe H env (Some f) w)
  /\ (exists pre code body,
        added w (transcribe H env (Some f) w) = (pre ++ [SendJson code body])%list
        /\ Forall (fun e => isSendJson e = false /\ isStream e = false) pre
        /\ match disk w !! path f with
           | Some content =>
               match whisper env content with
               | ApiOk text => code = 200%nat /\ exists saved, body = SuccessBody text saved
               | ApiError m =>
                   pre = [] /\ code = 500%nat
                   /\ body = FailureBody (orDefault m "Failed to transcribe audio")
               end
           | None =>
               pre = [] /\ code = 500%nat
               /\ body = FailureBody (orDefault ("File does not exist at path: " ++ path f)
                                                "Failed to transcribe audio")
           end)
  /\ (forall g w0, 25 * 1024 * 1024 < size g -> transcribe H env (Some g) w0 = H g w0).
Proof.
  intros Hs. split; [by apply transcribe_small|]. split.
  { intros H'. by rewrite !transcribe_small. }
  split.
  - rewrite transcribe_small by exact Hs.
    pose proof (singleRequest_cases env f w) as C. simpl in C.
    destruct (disk w !! path f) as [content|].
    + destruct (whisper env content) as [text|m].
      * destruct C as (d & pre & saved & -> & Hpre).
        exists (pre ++ [Unlink (path f)])%list, 200%nat, (SuccessBody text saved).
        rewrite added_app. split; [by rewrite <- app_assoc|]. split; [|eauto].
        apply Forall_app. split; [done|]. repeat constructor.
      * rewrite C, added_app.
        by exists [], 500%nat, (FailureBody (orDefault m "Failed to transcribe audio")).
    + rewrite C, added_app. eexists [], 500%nat, _. split; [reflexivity|].
      split; [constructor|done].
  - intros g w0 Hg. by apply transcribe_large.
Qed.

Lemma transcribe_small_file_single_json_witness :
  let f := sampleFile (25 * 1024 * 1024) in
  let env := sampleEnv (ApiOk "hello") in
  transcribe (fun _ w => w) env (Some f) sampleWorld = snd (singleRequest env f sampleWorld)
  /\ exists pre saved,
       added sampleWorld (transcribe (fun _ w => w) env (Some f) sampleWorld)
       = (pre ++ [SendJson 200 (SuccessBody "hello" saved)])%list
       /\ Forall (fun e => isSendJson e = false /\ isStream e = false) pre.
Proof.
  cbv zeta.
  destruct (transcribe_small_file_single_json (fun _ w => w) (sampleEnv (ApiOk "hello"))
              (sampleFile (25 * 1024 * 1024)) sampleWorld)
    as (E & _ & (pre & code & body & Ea & Hpre & Hcase) & _).
  { simpl. lia. }
  split; [exact E|].
  change (disk sampleWorld !! path (sampleFile (25 * 1024 * 1024))) with (Some "audio")
    in Hcase.
  cbn [sampleEnv whisper] in Hcase. destruct Hcase as (-> & saved & ->).
  by exists pre, saved.
Defined.

(** C10. On the single-request path, for an upload that is on disk: when
    the transcription succeeds the file is unlinked and the success
    response is the next effect after the unlink, so the file is gone
    when the response is sent; when the transcription call throws, the
    only effect is the 500 response and the disk is unchanged. *)
Theorem single_request_deletes_upload_only_on_success
    (H : UploadedFile -> World -> World) (env : Env) (f : UploadedFile) (w : World)
    (content : string) :
  size f <= OPENAI_WHISPER_LIMIT ->
  disk w !! path f = Some content ->
  let w' := transcribe H env (Some f) w in
  match whisper env content with
  | ApiOk text =>
      disk w' !! path f = None
      /\ exists pre saved,
           added w w' = (pre ++ [Unlink (path f); SendJson 200 (SuccessBody text saved)])%list
           /\ Forall (fun e => isSendJson e = false /\ isStream e = false) pre
  | ApiError m =>
      disk w' = disk w
      /\ disk w' !! path f = Some content
      /\ added w w' = [SendJson 500 (FailureBody (orDefault m "Failed to transcribe audio"))]
  end.
Proof.
  intros Hs Hf. cbv zeta. rewrite transcribe_small by exact Hs.
  pose proof (singleRequest_cases env f w) as C. simpl in C. rewrite Hf in C.
  destruct (whisper env content) as [text|m].
  - destruct C as (d & pre & saved & -> & Hpre). simpl. split.
    + apply lookup_delete_eq.
    + exists pre, saved. by rewrite added_app.
  - rewrite C. simpl. rewrite added_app. done.
Qed.

Lemma single_request_deletes_upload_only_on_success_witness :
  disk (transcribe (fun _ w => w) (sampleEnv (ApiError "429 rate limit"))
          (Some (sampleFile 1000)) sampleWorld) = disk sampleWorld
  /\ disk (transcribe (fun _ w => w) (sampleEnv (ApiOk "hello"))
             (Some (sampleFile 1000)) sampleWorld) !! "uploads/1-2.mp3" = None.
Proof.
  split.
  - apply (single_request_deletes_upload_only_on_success (fun _ w => w)
             (sampleEnv (ApiError "429 rate limit")) (sampleFile 1000) sampleWorld "audio").
    + vm_compute. discriminate.
    + reflexivity.
  - apply (single_request_deletes_upload_only_on_success (fun _ w => w)
             (sampleEnv (ApiOk "hello")) (sampleFile 1000) sampleWorld "audio").
    + vm_compute. discriminate.
    + reflexivity.
Defined.

End RouteFacts.

(** ** Strings *)

Lemma string_app_nil (s : string) : ("" ++ s)%string = s.
Proof. reflexivity. Qed.

Lemma string_app_cons (c : ascii) (a b : string) :
  (String c a ++ b)%string = String c (a ++ b).
Proof. reflexivity. Qed.

Lemma string_app_assoc (a b c : string) : ((a ++ b) ++ c = a ++ (b ++ c))%string.
Proof.
  induction a as [|ch a IH]; [done|].
  by rewrite !string_app_cons, IH.
Qed.

Lemma string_app_inv_head (a x y : string) : (a ++ x = a ++ y)%string -> x = y.
Proof.
  induction a as [|ch a IH]; [done|].
  rewrite !string_app_cons. intros E. injection E. auto.
Qed.

Lemma string_length_app (a b : string) :
  String.length (a ++ b) = (String.length a + String.length b)%nat.
Proof.
  induction a as [|ch a IH]; [done|].
  rewrite string_app_cons. simpl. by rewrite IH.
Qed.

Lemma prefix_app (p s : string) : String.prefix p (p ++ s) = true.
Proof.
  induction p as [|ch p IH]; [by destruct s|].
  rewrite string_app_cons. simpl.
  destruct (ascii_dec ch ch); [exact IH|done].
Qed.

Lemma endsWith_app (a suffix : string) : Str.endsWith suffix (a ++ suffix) = true.
Proof.
  induction a as [|ch a IH].
  - rewrite string_app_nil.
    destruct suffix; cbn [Str.endsWith]; by rewrite String.eqb_refl.
  - rewrite string_app_cons. cbn [Str.endsWith].
    destruct (String.eqb _ _); [done|exact IH].
Qed.

Lemma includes_app (a sub b : string) : Str.includes sub (a ++ sub ++ b) = true.
Proof.
  induction a as [|ch a IH].
  - rewrite string_app_nil.
    destruct (sub ++ b)%string eqn:E; cbn [Str.includes]; rewrite <- E, prefix_app; done.
  - rewrite string_app_cons. cbn [Str.includes].
    destruct (String.prefix sub _); [done|exact IH].
Qed.

Lemma basename_app (a ext : string) : Str.basename (a ++ ext) ext = a.
Proof.
  induction a as [|ch a IH].
  - rewrite string_app_nil.
    destruct ext; cbn [Str.basename]; by rewrite String.eqb_refl.
  - rewrite string_app_cons. cbn [Str.basename].
    destruct (String.eqb_spec (String ch (a ++ ext)) ext) as [E|_].
    + apply (f_equal String.length) in E. simpl in E.
      rewrite string_length_app in E. lia.
    + by rewrite IH.
Qed.

(** ** The oversize repair *)

Section RepairFacts.
Import Repair.

Lemma sizeOf_listed (d : Dir) (file : string) :
  In file (names d) -> exists bytes, sizeOf d file = Some bytes /\ In (file, bytes) d.
Proof.
  unfold sizeOf, names. induction d as [|[n b] d IH]; simpl; [done|].
  intros [->|Hin].
  - rewrite String.eqb_refl. simpl. eauto.
  - destruct (String.eqb_spec n file) as [->|Hne]; simpl; [eauto|].
    destruct (IH Hin) as (bytes & E & Hd). eauto.
Qed.

Lemma oversized_snd (files : list string) (w : World) :
  snd (oversized files w) = w.
Proof.
  induction files as [|file rest IH]; simpl; [done|].
  unfold Exn.bind, statSize.
  destruct (sizeOf (dir w) file); [|done].
  destruct (oversized rest w) as [[l|e] w1]; simpl in IH; subst w1; done.
Qed.

Lemma oversized_world (files : list string) (w w' : World) r :
  oversized files w = (r, w') -> w' = w.
Proof. intros E. pose proof (oversized_snd files w) as H. by rewrite E in H. Qed.

Lemma oversized_none (files : list string) (w : World) :
  (forall file, In file files ->
     exists bytes, sizeOf (dir w) file = Some bytes /\ bytes <= OPENAI_WHISPER_LIMIT) ->
  oversized files w = (inl [], w).
Proof.
  induction files as [|file rest IH]; simpl; intros Hall; [done|].
  unfold Exn.bind, statSize.
  destruct (Hall file) as (bytes & -> & Hb); [by left|].
  rewrite IH by (intros; apply Hall; by right).
  unfold Exn.ret. replace (bytes >? OPENAI_WHISPER_LIMIT) with false; [done|].
  symmetry. rewrite Z.gtb_ltb. apply Z.ltb_ge. exact Hb.
Qed.

Lemma oversized_nil (files : list string) (w w' : World) :
  oversized files w = (inl [], w') ->
  forall file, In file files ->
    exists bytes, sizeOf (dir w) file = Some bytes /\ bytes <= OPENAI_WHISPER_LIMIT.
Proof.
  induction files as [|file rest IH]; simpl; [done|].
  unfold Exn.bind, statSize.
  destruct (sizeOf (dir w) file) as [bytes|] eqn:Es; [|done].
  destruct (oversized rest w) as [[l|e] w1] eqn:E; [|done].
  pose proof (oversized_world _ _ _ _ E) as ->.
  unfold Exn.ret. destruct (bytes >? OPENAI_WHISPER_LIMIT) eqn:Eb; [done|].
  intros Heq f Hf. injection Heq as El Ew. subst l w'. destruct Hf as [<-|Hin].
  - exists bytes. split; [done|]. rewrite Z.gtb_ltb in Eb. by apply Z.ltb_ge in Eb.
  - by apply IH.
Qed.

(** C6. When every chunk file of the session in the directory is at or
    under the limit, a call lists the directory once and resolves: the
    directory is unchanged, no file is created, unlinked or renamed,
    ffmpeg is not run and there is no second scan, whatever the number
    of scans allowed. *)
Theorem verifyAndResplitChunks_noop_when_compliant (env : Env) (scans : nat)
    (options : Options) (w : World) :
  (forall file bytes, In (file, bytes) (dir w) -> isChunkFile options file = true ->
     bytes <= OPENAI_WHISPER_LIMIT) ->
  verifyAndResplitChunks env (S scans) options w
  = (inl Resolved, {| dir := dir w; drawn := drawn w; ops := ops w ++ [Readdir] |}).
Proof.
  intros Hall. cbn [verifyAndResplitChunks]. unfold scan.
  unfold Exn.bind at 1. unfold readdirSync at 1.
  unfold Exn.bind at 1.
  rewrite oversized_none; [done|].
  simpl. intros file Hin. apply filter_In in Hin. destruct Hin as [Hin Hc].
  destruct (sizeOf_listed _ _ Hin) as (bytes & E & Hd).
  exists bytes. split; [done|]. exact (Hall file bytes Hd Hc).
Qed.

Lemma verifyAndResplitChunks_noop_when_compliant_witness :
  verifyAndResplitChunks (hiResEnv (fun _ => "")) 5 hiResOptions compliantWorld
  = (inl Resolved, {| dir := dir compliantWorld; drawn := 0; ops := [Readdir] |}).
Proof.
  apply (verifyAndResplitChunks_noop_when_compliant (hiResEnv (fun _ => "")) 4
           hiResOptions compliantWorld).
  intros file bytes Hin Hc. simpl in Hin.
  destruct Hin as [E|[E|[E|[]]]]; inversion E; subst;
    try (vm_compute in Hc; discriminate); unfold OPENAI_WHISPER_LIMIT, MB; lia.
Defined.

(** One scan over a directory that holds a single oversized chunk
    which ffmpeg returns in one piece: the piece replaces the chunk under
    a new name and the function calls itself. *)
Lemma verifyAndResplitChunks_single_piece (env : Env) (options : Options) (n : nat)
    (name : string) (bytes : Z) (k : nat) (o : list Op) :
  let base := Str.basename name (outputExt options) in
  let sub := (base ++ "-sub-" ++ Str.padStart3 (Str.ofNat 0) ++ outputExt options)%string in
  let newName := (sessionId options ++ "-chunk-"
                  ++ String.substring 0 8 (uuidv4 env k) ++ outputExt options)%string in
  isChunkFile options name = true ->
  OPENAI_WHISPER_LIMIT < bytes ->
  ffmpeg env name bytes (newSegmentDuration options) = ([bytes], None) ->
  sub <> name ->
  Str.includes "-sub-" sub = true ->
  verifyAndResplitChunks env (S n) options {| dir := [(name, bytes)]; drawn := k; ops := o |}
  = verifyAndResplitChunks env n options
      {| dir := [(newName, bytes)]; drawn := S k;
         ops := o ++ [Readdir; FfmpegSegment name (newSegmentDuration options);
                      Create sub bytes; Unlink name; Readdir; Rename sub newName] |}.
Proof.
  intros base sub newName Hc Hb Hf Hne Hinc.
  assert (Egt : (bytes >? OPENAI_WHISPER_LIMIT) = true).
  { rewrite Z.gtb_ltb. by apply Z.ltb_lt. }
  assert (Esn : String.eqb sub name = false) by by apply String.eqb_neq.
  assert (Ens : String.eqb name sub = false) by (apply String.eqb_neq; congruence).
  cbn [verifyAndResplitChunks]. unfold scan at 1.
  repeat (progress (unfold Exn.bind, Exn.ret, Exn.get, Exn.throw, readdirSync, statSize,
                      unlinkSync, renameSync, freshId, log, resplit, sizeOf, writeFile,
                      removeFile, names;
                    fold base; fold sub; fold newName;
                    cbn -[String.eqb Str.includes Str.basename isChunkFile Z.gtb
                          String.substring Str.padStart3 Str.ofNat newSegmentDuration
                          OPENAI_WHISPER_LIMIT verifyAndResplitChunks];
                    rewrite ?String.eqb_refl, ?Hc, ?Egt, ?Hf, ?Ens, ?Esn, ?Hinc)).
  f_equal. f_equal.
  - destruct (String.eqb sub newName); cbn [negb map fst snd]; by rewrite String.eqb_refl.
  - by rewrite <- !app_assoc.
Qed.

Lemma loneChunk_pass (uuid : nat -> string) (n : nat) (x : string) (k : nat) (o : list Op) :
  verifyAndResplitChunks (hiResEnv uuid) (S n) hiResOptions (loneChunkWorld x k o)
  = verifyAndResplitChunks (hiResEnv uuid) n hiResOptions
      (loneChunkWorld (String.substring 0 8 (uuid k)) (S k) (o ++ loneChunkPass uuid x k)).
Proof.
  unfold loneChunkWorld, loneChunkPass, loneChunk.
  assert (Eb : Str.basename (hiResSession ++ "-chunk-" ++ x ++ ".m4a") ".m4a"
               = (hiResSession ++ "-chunk-" ++ x)%string).
  { replace (hiResSession ++ "-chunk-" ++ x ++ ".m4a")%string
      with ((hiResSession ++ "-chunk-" ++ x) ++ ".m4a")%string
      by (by rewrite !string_app_assoc).
    apply basename_app. }
  rewrite verifyAndResplitChunks_single_piece.
  - cbn [hiResOptions outputExt sessionId hiResEnv uuidv4]. rewrite Eb.
    change (newSegmentDuration hiResOptions) with 60.
    by rewrite !string_app_assoc.
  - unfold isChunkFile. cbn [hiResOptions outputExt sessionId].
    apply andb_true_intro. split.
    + unfold Str.startsWith. rewrite <- string_app_assoc. apply prefix_app.
    + rewrite <- !string_app_assoc. apply endsWith_app.
  - by vm_compute.
  - reflexivity.
  - cbn [hiResOptions outputExt]. rewrite Eb, string_app_assoc.
    intros E. apply string_app_inv_head in E.
    change ("-chunk-" ++ x ++ ".m4a")%string with ("-chunk-" ++ (x ++ ".m4a"))%string in E.
    rewrite string_app_assoc in E.
    apply string_app_inv_head, string_app_inv_head in E.
    apply (f_equal String.length) in E. by vm_compute in E.
  - cbn [hiResOptions outputExt]. rewrite Eb.
    apply (includes_app _ "-sub-" "000.m4a").
Qed.



Lemma loneChunk_pending (uuid : nat -> string) (n : nat) :
  forall x k o,
    fst (verifyAndResplitChunks (hiResEnv uuid) n hiResOptions (loneChunkWorld x k o))
    = inl Pending.
Proof.
  induction n as [|n IH]; intros x k o; [done|].
  rewrite loneChunk_pass. apply IH.
Qed.

(** C5, as the claim states it, fails.  For a 50-second recording of
    28,800,000 bytes the planner gives 120 seconds and the split leaves
    one oversized chunk.  Every scan re-splits it at 60 seconds, never at
    30 or 15, gets it back in one piece, and recurses: whatever the
    number of scans the call has neither resolved nor thrown. *)
Lemma repair_cycle_neither_halves_again_nor_stops :
  segmentDuration hiResOptions = 120
  /\ (forall uuid scans,
        fst (verifyAndResplitChunks (hiResEnv uuid) scans hiResOptions hiResWorld)
        = inl Pending)
  /\ (forall uuid,
        segmentTimes
          (ops (snd (verifyAndResplitChunks (hiResEnv uuid) 3 hiResOptions hiResWorld)))
        = [60; 60; 60]).
Proof.
  split; [reflexivity|]. split.
  - intros uuid scans. apply (loneChunk_pending uuid scans "000" 0%nat []).
  - intros uuid. change hiResWorld with (loneChunkWorld "000" 0 []).
    rewrite !loneChunk_pass. reflexivity.
Qed.

(** *** What a scan adds to the log *)

Lemma logs_ret {A} (P : Op -> Prop) (a : A) : logs P (Exn.ret a).
Proof. intros w. exists []. by rewrite app_nil_r. Qed.

Lemma logs_throw {A} (P : Op -> Prop) (e : string) : logs P (@Exn.throw World A e).
Proof. intros w. exists []. by rewrite app_nil_r. Qed.

Lemma logs_bind {A B} (P : Op -> Prop) (m : Exn.M World A) (k : A -> Exn.M World B) :
  logs P m -> (forall a, logs P (k a)) -> logs P (Exn.bind m k).
Proof.
  intros Hm Hk w. unfold Exn.bind. destruct (Hm w) as (n1 & E1 & F1).
  destruct (m w) as [[a|e] w1]; simpl in E1.
  - destruct (Hk a w1) as (n2 & E2 & F2). exists (n1 ++ n2)%list.
    rewrite E2, E1, app_assoc. split; [done|]. by apply Forall_app.
  - exists n1. done.
Qed.

Lemma logs_one {A} (P : Op -> Prop) (o : Op) (f : World -> (A + string) * World) :
  P o ->
  (forall w, ops (snd (f w)) = (ops w ++ [o])%list \/ ops (snd (f w)) = ops w) ->
  logs P f.
Proof.
  intros Ho Hf w. destruct (Hf w) as [E|E]; rewrite E.
  - exists [o]. split; [done|]. by constructor.
  - exists []. by rewrite app_nil_r.
Qed.

Lemma logs_statSize (P : Op -> Prop) (file : string) : logs P (statSize file).
Proof.
  intros w. unfold statSize. exists []. rewrite app_nil_r.
  by destruct (sizeOf (dir w) file).
Qed.

Lemma logs_unlinkSync (P : Op -> Prop) (file : string) :
  P (Unlink file) -> logs P (unlinkSync file).
Proof.
  intros Ho. apply (logs_one P (Unlink file)); [done|].
  intros w. unfold unlinkSync. destruct (sizeOf (dir w) file); simpl; auto.
Qed.

Lemma logs_renameSync (P : Op -> Prop) (a b : string) :
  P (Rename a b) -> logs P (renameSync a b).
Proof.
  intros Ho. apply (logs_one P (Rename a b)); [done|].
  intros w. unfold renameSync. destruct (sizeOf (dir w) a); simpl; auto.
Qed.

Lemma logs_writePieces (P : Op -> Prop) (base ext : string) (pieces : list Z) :
  (forall n b, P (Create n b)) -> forall k, logs P (writePieces base ext k pieces).
Proof.
  intros Ho. induction pieces as [|b rest IH]; intros k; cbn [writePieces].
  - apply logs_ret.
  - apply logs_bind; [|intros _; apply IH].
    eapply logs_one; [apply Ho|]. intros w. left. reflexivity.
Qed.

Lemma logs_resplit (env : Env) (options : Options) (file : string) :
  logs (atHalf options) (resplit env options file).
Proof.
  unfold resplit. apply logs_bind; [apply logs_statSize|]. intros bytes.
  apply logs_bind.
  { eapply logs_one; [|intros w; left; reflexivity]. reflexivity. }
  intros _. apply logs_bind; [by apply logs_writePieces|]. intros _.
  destruct (snd _); [apply logs_throw|by apply logs_unlinkSync].
Qed.

Lemma logs_resplitAll (env : Env) (options : Options) (files : list string) :
  logs (atHalf options) (resplitAll env options files).
Proof.
  induction files as [|file rest IH]; cbn [resplitAll]; [apply logs_ret|].
  apply logs_bind; [apply logs_resplit|by intros _].
Qed.

Lemma logs_renameAll (env : Env) (options : Options) (subChunks : list string) :
  logs (atHalf options) (renameAll env options subChunks).
Proof.
  induction subChunks as [|c rest IH]; cbn [renameAll]; [apply logs_ret|].
  apply logs_bind.
  { intros w. exists []. by rewrite app_nil_r. }
  intros id. apply logs_bind; [by apply logs_renameSync|by intros _].
Qed.

Lemma logs_readdirSync (P : Op -> Prop) : P Readdir -> logs P readdirSync.
Proof. intros Ho. eapply logs_one; [exact Ho|]. intros w. left. reflexivity. Qed.

Lemma logs_oversized (P : Op -> Prop) (files : list string) : logs P (oversized files).
Proof.
  intros w. rewrite oversized_snd. exists []. by rewrite app_nil_r.
Qed.

(** Every ffmpeg run of the repair, in any number of scans, is at
    [newSegmentDuration options]. *)
Lemma logs_verifyAndResplitChunks (env : Env) (options : Options) (scans : nat) :
  logs (atHalf options) (verifyAndResplitChunks env scans options).
Proof.
  induction scans as [|n IH]; cbn [verifyAndResplitChunks]; [apply logs_ret|].
  unfold scan.
  apply logs_bind; [by apply logs_readdirSync|]. intros listing.
  apply logs_bind; [apply logs_oversized|]. intros l.
  destruct (List.length l =? 0)%nat; [apply logs_ret|].
  apply logs_bind; [apply logs_resplitAll|]. intros _.
  apply logs_bind; [by apply logs_readdirSync|]. intros listing2.
  apply logs_bind; [apply logs_renameAll|]. by intros _.
Qed.

Lemma segmentTimes_atHalf (options : Options) (new : list Op) :
  Forall (atHalf options) new ->
  Forall (fun t => t = newSegmentDuration options) (segmentTimes new).
Proof.
  unfold segmentTimes. induction 1 as [|o l Ho _ IH]; [constructor|].
  destruct o; simpl; try exact IH. constructor; [exact Ho|exact IH].
Qed.

(** The promise resolves only on a directory whose chunks comply. *)
Lemma verifyAndResplitChunks_resolved_compliant (env : Env) (options : Options) (scans : nat) :
  forall w w', verifyAndResplitChunks env scans options w = (inl Resolved, w') ->
               compliant options (dir w').
Proof.
  induction scans as [|n IH]; intros w w'; cbn [verifyAndResplitChunks].
  - unfold Exn.ret. congruence.
  - unfold scan. unfold Exn.bind at 1. unfold readdirSync at 1.
    unfold Exn.bind at 1.
    destruct (oversized _ _) as [[l|e] w1] eqn:Eo; [|congruence].
    pose proof (oversized_world _ _ _ _ Eo) as ->.
    destruct l as [|f l]; cbn [List.length Nat.eqb].
    + unfold Exn.ret. intros [= <-]. cbn [dir].
      intros file Hin Hc. apply (oversized_nil _ _ _ Eo). apply filter_In. done.
    + unfold Exn.bind at 1. destruct (resplitAll _ _ _ _) as [[[]|e] w2]; [|congruence].
      unfold Exn.bind at 1, readdirSync at 1. unfold Exn.bind at 1.
      destruct (renameAll _ _ _ _) as [[[]|e] w3]; [|congruence].
      apply IH.
Qed.

(** A scan that ends does not depend on how the recursive call is cut
    off: more scans allowed give the same result. *)
Lemma scan_again (env : Env) (options : Options) (again again' : Exn.M World Completion) :
  (forall w r w', again w = (r, w') -> r <> inl Pending -> again' w = (r, w')) ->
  forall w r w', scan env options again w = (r, w') -> r <> inl Pending ->
                 scan env options again' w = (r, w').
Proof.
  intros Hag w r w'. unfold scan, Exn.bind.
  destruct (readdirSync w) as [[listing|e] w1]; [|done].
  destruct (oversized _ w1) as [[l|e] w2]; [|done].
  destruct (List.length l =? 0)%nat; [done|].
  destruct (resplitAll env options l w2) as [[[]|e] w3]; [|done].
  destruct (readdirSync w3) as [[listing2|e] w4]; [|done].
  destruct (renameAll _ _ _ w4) as [[[]|e] w5]; [|done].
  apply Hag.
Qed.

Lemma verifyAndResplitChunks_more_scans (env : Env) (options : Options) (n : nat) :
  forall w r w',
    verifyAndResplitChunks env n options w = (r, w') -> r <> inl Pending ->
    verifyAndResplitChunks env (S n) options w = (r, w').
Proof.
  induction n as [|n IH]; intros w r w' H Hr.
  - cbn in H. unfold Exn.ret in H. congruence.
  - change (scan env options (verifyAndResplitChunks env (S n) options) w = (r, w')).
    change (scan env options (verifyAndResplitChunks env n options) w = (r, w')) in H.
    by apply (scan_again env options _ _ IH).
Qed.

Lemma writeFile_names (name : string) (bytes : Z) (d : Dir) (f : string) :
  In f (names d) -> In f (names (writeFile name bytes d)).
Proof.
  unfold writeFile, removeFile, names. rewrite map_app, in_app_iff. simpl.
  intros Hin. destruct (String.eqb_spec f name) as [->|Hne]; [right; by left|left].
  apply in_map_iff in Hin as ([n b] & <- & Hin). apply in_map_iff. exists (n, b).
  split; [done|]. apply filter_In. split; [done|]. simpl in *.
  by destruct (String.eqb_spec n name).
Qed.

(** Writing the pieces does not throw, removes no name and only
    creates files. *)
Lemma writePieces_keeps (base ext : string) (pieces : list Z) :
  forall k w,
    fst (writePieces base ext k pieces w) = inl tt
    /\ (forall f, In f (names (dir w)) ->
                  In f (names (dir (snd (writePieces base ext k pieces w)))))
    /\ exists new, ops (snd (writePieces base ext k pieces w)) = (ops w ++ new)%list
                   /\ Forall (fun o => exists name bytes, o = Create name bytes) new.
Proof.
  induction pieces as [|b rest IH]; intros k w.
  - split; [done|]. split; [done|]. exists []. by rewrite app_nil_r.
  - set (name := (base ++ "-sub-" ++ Str.padStart3 (Str.ofNat k) ++ ext)%string).
    set (w1 := {| dir := writeFile name b (dir w); drawn := drawn w;
                  ops := ops w ++ [Create name b] |}).
    assert (E : writePieces base ext k (b :: rest) w = writePieces base ext (S k) rest w1)
      by reflexivity.
    rewrite E. destruct (IH (S k) w1) as (Hr & Hn & new & Eo & Hk).
    split; [done|]. split.
    + intros f Hf. apply Hn. cbn [dir w1]. by apply writeFile_names.
    + exists (Create name b :: new). rewrite Eo. cbn [ops w1]. rewrite <- app_assoc.
      split; [done|]. constructor; [eauto|done].
Qed.

Lemma removeFile_names (name : string) (d : Dir) (f : string) :
  In f (names d) -> f <> name -> In f (names (removeFile name d)).
Proof.
  unfold removeFile, names. intros Hin Hne.
  apply in_map_iff in Hin as ([n b] & <- & Hin). apply in_map_iff. exists (n, b).
  split; [done|]. apply filter_In. split; [done|]. simpl in *.
  by destruct (String.eqb_spec n name).
Qed.

(** The second filter of a scan, on files that are all there. *)
Lemma oversized_filter (files : list string) (w : World) :
  (forall f, In f files -> In f (names (dir w))) ->
  oversized files w = (inl (List.filter (tooBig (dir w)) files), w).
Proof.
  induction files as [|file rest IH]; intros Hall; [done|].
  destruct (sizeOf_listed (dir w) file) as (bytes & Es & _); [apply Hall; by left|].
  cbn [oversized List.filter]. unfold Exn.bind, statSize, tooBig at 1.
  rewrite Es, IH by (intros; apply Hall; by right). unfold Exn.ret.
  by destruct (bytes >? OPENAI_WHISPER_LIMIT).
Qed.

Lemma runs_app (l k : list Op) :
  ffmpegRuns (l ++ k) = (ffmpegRuns l ++ ffmpegRuns k)%list
  /\ unlinked (l ++ k) = (unlinked l ++ unlinked k)%list.
Proof. unfold ffmpegRuns, unlinked. by rewrite !omap_app. Qed.

Lemma runs_none (P : Op -> Prop) (l : list Op) :
  (forall input t, ~ P (FfmpegSegment input t)) -> (forall name, ~ P (Unlink name)) ->
  Forall P l -> ffmpegRuns l = [] /\ unlinked l = [].
Proof.
  intros H1 H2. induction 1 as [|o l Ho _ [IH1 IH2]]; [done|].
  destruct o; simpl; try done; exfalso; [by eapply H1|by eapply H2].
Qed.

(** When ffmpeg does not fail, the loop over the oversized files runs
    ffmpeg once on each of them, in order, at [newSegmentDuration], and
    unlinks each of them. *)
Lemma resplitAll_runs (env : Env) (options : Options) :
  (forall f b t, snd (ffmpeg env f b t) = None) ->
  forall l w,
    List.NoDup l -> (forall f, In f l -> In f (names (dir w))) ->
    exists w' new,
      resplitAll env options l w = (inl tt, w')
      /\ ops w' = (ops w ++ new)%list
      /\ ffmpegRuns new = map (fun f => (f, newSegmentDuration options)) l
      /\ unlinked new = l.
Proof.
  intros Hff. induction l as [|f rest IH]; intros w Hnd Hin.
  - exists w, []. by rewrite app_nil_r.
  - apply List.NoDup_cons_iff in Hnd as [Hf Hnd].
    destruct (sizeOf_listed (dir w) f) as (bytes & Es & _); [apply Hin; by left|].
    set (w1 := {| dir := dir w; drawn := drawn w;
                  ops := ops w ++ [FfmpegSegment f (newSegmentDuration options)] |}).
    set (out := ffmpeg env f bytes (newSegmentDuration options)).
    destruct (writePieces_keeps (Str.basename f (outputExt options)) (outputExt options)
                (fst out) 0%nat w1) as (Hr & Hn & created & Eo & Hk).
    destruct (writePieces (Str.basename f (outputExt options)) (outputExt options) 0
                (fst out) w1) as [[[]|e] w2] eqn:Ew; [|done].
    cbn [snd] in Hn, Eo.
    destruct (sizeOf_listed (dir w2) f) as (bytes2 & Es2 & _).
    { apply Hn. cbn [dir w1]. apply Hin. by left. }
    set (w3 := {| dir := removeFile f (dir w2); drawn := drawn w2;
                  ops := ops w2 ++ [Unlink f] |}).
    destruct (IH w3 Hnd) as (w' & new & Er & Eops & Eruns & Eunl).
    { intros g Hg. cbn [dir w3]. apply removeFile_names.
      - apply Hn. cbn [dir w1]. apply Hin. by right.
      - intros ->. by apply Hf. }
    exists w', (FfmpegSegment f (newSegmentDuration options) :: created ++ Unlink f :: new)%list.
    split.
    { cbn [resplitAll]. unfold Exn.bind at 1. unfold resplit.
      unfold Exn.bind at 1. unfold statSize at 1. rewrite Es.
      unfold Exn.bind at 1. unfold log at 1. fold w1.
      unfold Exn.bind at 1. fold out. rewrite Ew.
      unfold out. rewrite Hff. unfold unlinkSync. rewrite Es2. fold w3. exact Er. }
    split.
    { rewrite Eops. cbn [ops w3]. rewrite Eo. cbn [ops w1].
      by rewrite <- !app_assoc. }
    destruct (runs_none (fun o => exists name b, o = Create name b) created) as [Ec1 Ec2];
      [by intros ? ? (? & ? & ?)|by intros ? (? & ? & ?)|done|].
    change (FfmpegSegment f (newSegmentDuration options) :: created ++ Unlink f :: new)%list
      with ([FfmpegSegment f (newSegmentDuration options)] ++ created ++ [Unlink f] ++ new)%list.
    destruct (runs_app [FfmpegSegment f (newSegmentDuration options)]
                (created ++ [Unlink f] ++ new)) as [-> ->].
    destruct (runs_app created ([Unlink f] ++ new)) as [-> ->].
    destruct (runs_app [Unlink f] new) as [-> ->].
    rewrite Ec1, Ec2, Eruns, Eunl. done.
Qed.

Lemma listsOrRenames_renameAll (env : Env) (options : Options) (subChunks : list string) :
  logs listsOrRenames (renameAll env options subChunks).
Proof.
  induction subChunks as [|c rest IH]; cbn [renameAll]; [apply logs_ret|].
  apply logs_bind.
  { intros w. exists []. by rewrite app_nil_r. }
  intros id. apply logs_bind; [by apply logs_renameSync|by intros _].
Qed.

(** The first pass over a directory, ffmpeg not failing: the ffmpeg runs
    are on the oversized chunk files of the session, one each and in the
    order of the listing, and these files are the ones unlinked. *)
Lemma first_pass_runs (env : Env) (options : Options) (w : World) :
  List.NoDup (names (dir w)) ->
  (forall f b t, snd (ffmpeg env f b t) = None) ->
  exists new,
    ops (snd (verifyAndResplitChunks env 1 options w)) = (ops w ++ new)%list
    /\ ffmpegRuns new
       = map (fun f => (f, newSegmentDuration options)) (oversizedFiles options (dir w))
    /\ unlinked new = oversizedFiles options (dir w).
Proof.
  intros Hnd Hff.
  set (w0 := {| dir := dir w; drawn := drawn w; ops := ops w ++ [Readdir] |}).
  assert (Eov : oversized (List.filter (isChunkFile options) (names (dir w))) w0
                = (inl (oversizedFiles options (dir w)), w0)).
  { apply (oversized_filter _ w0). intros f Hf. by apply filter_In in Hf as [Hf _]. }
  cbn [verifyAndResplitChunks]. unfold scan.
  unfold Exn.bind at 1. unfold readdirSync at 1. fold w0.
  unfold Exn.bind at 1. rewrite Eov.
  destruct (oversizedFiles options (dir w)) as [|f0 rest] eqn:El.
  { exists [Readdir]. done. }
  cbn [List.length Nat.eqb].
  destruct (resplitAll_runs env options Hff (f0 :: rest) w0) as (w1 & new & Er & Eops & E1 & E2).
  { rewrite <- El. unfold oversizedFiles. by do 2 apply List.NoDup_filter. }
  { intros f Hf. rewrite <- El in Hf. unfold oversizedFiles in Hf.
    apply filter_In in Hf as [Hf _]. by apply filter_In in Hf as [Hf _]. }
  unfold Exn.bind at 1. rewrite Er.
  match goal with |- context [snd (?m w1)] =>
    assert (Hm : logs listsOrRenames m)
  end.
  { apply logs_bind; [by apply logs_readdirSync|]. intros listing2.
    apply logs_bind; [apply listsOrRenames_renameAll|]. intros _. apply logs_ret. }
  destruct (Hm w1) as (tail & -> & Htail).
  destruct (runs_none listsOrRenames tail) as [T1 T2]; [intros ? ? []|intros ? []|done|].
  exists ([Readdir] ++ new ++ tail)%list. split.
  { rewrite Eops. cbn [ops w0]. by rewrite <- !app_assoc. }
  destruct (runs_app [Readdir] (new ++ tail)) as [-> ->].
  destruct (runs_app new tail) as [-> ->].
  rewrite T1, T2, E1, E2, !app_nil_r. done.
Qed.

(** C5, amended. A pass re-splits the oversized chunks of the session
    at half the segment duration of the options, and at 1 second when
    that half is less: the duration is [segmentDuration / 2] from 2
    seconds on and never below 1, and every ffmpeg run of every pass
    uses it, so it is not halved again from one pass to the next.  When
    ffmpeg does not fail, the first pass runs ffmpeg once on each chunk
    file of the session above the limit, in the order of the listing,
    and unlinks exactly these files.  The call resolves only when a pass
    finds every chunk of the session within the limit; nothing bounds
    the number of passes. *)
Theorem verifyAndResplitChunks_splits_at_half (env : Env) (options : Options) (w : World) :
  newSegmentDuration options = Z.max 1 (segmentDuration options / 2)
  /\ 1 <= newSegmentDuration options
  /\ (2 <= segmentDuration options ->
      newSegmentDuration options = segmentDuration options / 2)
  /\ (forall scans,
        Forall (fun t => t = newSegmentDuration options)
          (segmentTimes
             (drop (List.length (ops w))
                   (ops (snd (verifyAndResplitChunks env scans options w))))))
  /\ (List.NoDup (names (dir w)) ->
      (forall f b t, snd (ffmpeg env f b t) = None) ->
      let new := drop (List.length (ops w))
                      (ops (snd (verifyAndResplitChunks env 1 options w))) in
      ffmpegRuns new
      = map (fun f => (f, newSegmentDuration options)) (oversizedFiles options (dir w))
      /\ unlinked new = oversizedFiles options (dir w))
  /\ (forall f, In f (oversizedFiles options (dir w))
                <-> In f (names (dir w)) /\ isChunkFile options f = true
                    /\ exists bytes, sizeOf (dir w) f = Some bytes
                                     /\ OPENAI_WHISPER_LIMIT < bytes)
  /\ (forall scans w',
        verifyAndResplitChunks env scans options w = (inl Resolved, w') ->
        compliant options (dir w')).
Proof.
  split; [reflexivity|]. split; [unfold newSegmentDuration; lia|]. split.
  { intros H2. unfold newSegmentDuration.
    assert (1 <= segmentDuration options / 2) by (apply Z.div_le_lower_bound; lia). lia. }
  split.
  { intros scans.
    destruct (logs_verifyAndResplitChunks env options scans w) as (new & -> & Hnew).
    rewrite drop_app_length. by apply segmentTimes_atHalf. }
  split.
  { intros Hnd Hff. cbv zeta.
    destruct (first_pass_runs env options w Hnd Hff) as (new & -> & E1 & E2).
    by rewrite drop_app_length. }
  split.
  { intros f. unfold oversizedFiles, tooBig. rewrite !filter_In. split.
    - intros [[Hin Hc] Hb]. split; [done|]. split; [done|].
      destruct (sizeOf (dir w) f) as [bytes|]; [|done]. exists bytes. split; [done|].
      rewrite Z.gtb_ltb in Hb. by apply Z.ltb_lt in Hb.
    - intros (Hin & Hc & bytes & -> & Hb). split; [done|].
      rewrite Z.gtb_ltb. by apply Z.ltb_lt. }
  intros scans w'. apply verifyAndResplitChunks_resolved_compliant.
Qed.

Lemma verifyAndResplitChunks_splits_at_half_witness :
  let first := ops (snd (verifyAndResplitChunks repairableEnv 1 repairableOptions
                           repairableWorld)) in
  oversizedFiles repairableOptions (dir repairableWorld) = [(hiResSession ++ "-chunk-000.mp3")%string]
  /\ ffmpegRuns first = [((hiResSession ++ "-chunk-000.mp3")%string, 900)]
  /\ unlinked first = [(hiResSession ++ "-chunk-000.mp3")%string]
  /\ fst (verifyAndResplitChunks repairableEnv 2 repairableOptions repairableWorld)
     = inl Resolved
  /\ compliant repairableOptions
       (dir (snd (verifyAndResplitChunks repairableEnv 2 repairableOptions repairableWorld))).
Proof.
  cbv zeta.
  destruct (verifyAndResplitChunks_splits_at_half repairableEnv repairableOptions
              repairableWorld) as (_ & _ & _ & _ & Hfirst & _ & Hres).
  destruct Hfirst as [E1 E2].
  { repeat constructor; simpl; intros H; repeat destruct H as [H|H]; done. }
  { intros f b t. reflexivity. }
  cbv zeta in E1, E2. cbn [repairableWorld ops List.length] in E1, E2. rewrite drop_0 in E1, E2.
  split; [by vm_compute|]. split; [rewrite E1; by vm_compute|].
  split; [rewrite E2; by vm_compute|]. split; [by vm_compute|].
  apply (Hres 2%nat). by vm_compute.
Defined.

End RepairFacts.

(** ** The chunk pool *)

Section PoolFacts.
Import Pool.
Local Open Scope nat_scope.

Variable job : Job.

(** A property that [processChunk] preserves whenever the nested
    [checkForMoreChunks] does is preserved by the loop. *)
Lemma checkForMoreChunksLoop_preserves (disk : Disk) (P : State -> Prop) :
  (forall (more : State -> State) st c rest,
     (forall s, P s -> P (more s)) ->
     chunkQueue st = c :: rest ->
     chunksBeingProcessed st < MAX_CONCURRENT_CHUNKS ->
     P st -> P (processChunk more job disk c (setQueue rest st))) ->
  forall turns st, P st -> P (checkForMoreChunksLoop turns job disk st).
Proof.
  intros Hstep. induction turns as [|turns IH]; intros st HP; [done|].
  cbn [checkForMoreChunksLoop].
  destruct (chunkQueue st) as [|c rest] eqn:Eq; [done|].
  destruct (Nat.ltb_spec (chunksBeingProcessed st) MAX_CONCURRENT_CHUNKS) as [Hlt|_]; [|done].
  apply IH. apply (Hstep _ st c rest); auto.
Qed.

Lemma checkForMoreChunks_preserves (disk : Disk) (P : State -> Prop) :
  (forall (more : State -> State) st c rest,
     (forall s, P s -> P (more s)) ->
     chunkQueue st = c :: rest ->
     chunksBeingProcessed st < MAX_CONCURRENT_CHUNKS ->
     P st -> P (processChunk more job disk c (setQueue rest st))) ->
  forall st, P st -> P (checkForMoreChunks job disk st).
Proof. intros H st. apply checkForMoreChunksLoop_preserves, H. Qed.

Lemma checkCompletion_queue (st : State) :
  chunkQueue (checkCompletion job st) = chunkQueue st.
Proof.
  unfold checkCompletion.
  by destruct (isSplittingComplete st && (processedChunks st =? totalChunks st)).
Qed.

(** The loop only shortens the queue, and given a turn for every queued
    chunk it runs until the queue is empty or no slot is free. *)
Lemma checkForMoreChunksLoop_queue (disk : Disk) (turns : nat) :
  forall st, List.length (chunkQueue (checkForMoreChunksLoop turns job disk st))
             <= List.length (chunkQueue st).
Proof.
  induction turns as [|turns IH]; intros st; [done|].
  cbn [checkForMoreChunksLoop].
  destruct (chunkQueue st) as [|c rest] eqn:Eq; [by rewrite Eq|].
  destruct (chunksBeingProcessed st <? MAX_CONCURRENT_CHUNKS); [|by rewrite Eq].
  etransitivity; [apply IH|]. unfold processChunk.
  destruct (validate disk c); simpl.
  - unfold finallyBlock, checkCompletion.
    match goal with |- context [if ?b then _ else _] => destruct b end; simpl;
      (etransitivity; [apply IH|]); simpl; lia.
  - lia.
Qed.

(** Turns beyond the length of the queue change nothing. *)
Lemma checkForMoreChunksLoop_enough_turns (disk : Disk) (n : nat) :
  forall m st,
    List.length (chunkQueue st) <= n -> List.length (chunkQueue st) <= m ->
    checkForMoreChunksLoop n job disk st = checkForMoreChunksLoop m job disk st.
Proof.
  induction n as [|n IH]; intros m st Hn Hm.
  - destruct (chunkQueue st) as [|c rest] eqn:Eq; [|simpl in Hn; lia].
    destruct m; simpl; by rewrite ?Eq.
  - destruct m as [|m].
    + destruct (chunkQueue st) as [|c rest] eqn:Eq; [|simpl in Hm; lia].
      simpl. by rewrite Eq.
    + cbn [checkForMoreChunksLoop].
      destruct (chunkQueue st) as [|c rest] eqn:Eq; [done|]. simpl in Hn, Hm.
      destruct (chunksBeingProcessed st <? MAX_CONCURRENT_CHUNKS); [|done].
      unfold processChunk. destruct (validate disk c) as [msg|].
      * unfold finallyBlock.
        match goal with |- context [checkForMoreChunksLoop n job disk
                                      (checkCompletion job
                                         (checkForMoreChunksLoop n job disk ?y))] =>
          assert (Ey : checkForMoreChunksLoop n job disk y
                       = checkForMoreChunksLoop m job disk y)
            by (apply IH; simpl; lia);
          assert (Hy : List.length (chunkQueue (checkForMoreChunksLoop n job disk y))
                       <= List.length rest)
            by (etransitivity; [apply checkForMoreChunksLoop_queue|simpl; lia])
        end.
        rewrite <- Ey. apply IH; rewrite checkCompletion_queue; lia.
      * apply IH; simpl; lia.
Qed.

Lemma checkForMoreChunksLoop_saturated (disk : Disk) (turns : nat) :
  forall st, List.length (chunkQueue st) <= turns ->
             saturated (checkForMoreChunksLoop turns job disk st).
Proof.
  induction turns as [|turns IH]; intros st Hlen.
  - left. simpl. destruct (chunkQueue st); [done|simpl in Hlen; lia].
  - cbn [checkForMoreChunksLoop].
    destruct (chunkQueue st) as [|c rest] eqn:Eq; [by left|].
    destruct (Nat.ltb_spec (chunksBeingProcessed st) MAX_CONCURRENT_CHUNKS) as [Hlt|Hge];
      [|by right].
    apply IH. simpl in Hlen. unfold processChunk.
    destruct (validate disk c); simpl.
    + unfold finallyBlock, checkCompletion.
      match goal with |- context [if ?b then _ else _] => destruct b end; simpl;
        (etransitivity; [apply checkForMoreChunksLoop_queue|]); simpl; lia.
    + lia.
Qed.

Lemma checkForMoreChunks_saturated (disk : Disk) (st : State) :
  saturated (checkForMoreChunks job disk st).
Proof. by apply checkForMoreChunksLoop_saturated. Qed.

Lemma checkCompletion_fields (st : State) :
  let st' := checkCompletion job st in
  transcriptionResults st' = transcriptionResults st
  /\ totalChunks st' = totalChunks st
  /\ processedChunks st' = processedChunks st
  /\ chunksBeingProcessed st' = chunksBeingProcessed st
  /\ isSplittingComplete st' = isSplittingComplete st
  /\ chunkQueue st' = chunkQueue st
  /\ awaiting st' = awaiting st
  /\ watching st' = watching st
  /\ splitting st' = splitting st
  /\ written st' = written st.
Proof.
  unfold checkCompletion. simpl.
  by destruct (isSplittingComplete st && (processedChunks st =? totalChunks st)).
Qed.

Lemma checkCompletion_counted (st : State) : counted st -> counted (checkCompletion job st).
Proof.
  unfold counted. destruct (checkCompletion_fields st) as (_ & -> & -> & -> & _ & -> & -> & _).
  done.
Qed.

Lemma processChunk_counted (disk : Disk) (more : State -> State) st c rest :
  (forall s, counted s -> counted (more s)) ->
  chunkQueue st = c :: rest ->
  chunksBeingProcessed st < MAX_CONCURRENT_CHUNKS ->
  counted st -> counted (processChunk more job disk c (setQueue rest st)).
Proof.
  intros Hmore Eq Hlt (H1 & H2 & H3). rewrite Eq in H3. simpl in H3.
  unfold processChunk. destruct (validate disk c) as [msg|].
  - unfold finallyBlock. apply checkCompletion_counted, Hmore.
    unfold counted. simpl. lia.
  - unfold counted. simpl. rewrite length_app. simpl. lia.
Qed.

Lemma checkForMoreChunks_counted (disk : Disk) (st : State) :
  counted st -> counted (checkForMoreChunks job disk st).
Proof.
  apply checkForMoreChunks_preserves. intros. by eapply processChunk_counted.
Qed.

Lemma mapM_newChunk_length (files : list string) (fresh : list Chunk) :
  mapM (newChunk job) files = Some fresh -> List.length fresh = List.length files.
Proof. intros H. symmetry. by eapply length_mapM. Qed.

(** The counters stay right from one callback to the next. *)
Lemma step_counted (st st' : State) (ev : Event) :
  counted st -> step job st ev = Continues st' -> counted st'.
Proof.
  intros Hc. destruct ev as [listing disk| |message|k answers disk]; simpl.
  - destruct (watching st); [|done]. unfold watcherTick.
    destruct (isSplittingComplete st); [by intros [= <-]|].
    destruct (currentChunks job listing) as [current|]; [|done].
    destruct (Nat.ltb_spec (totalChunks st) (List.length current)) as [Hlt|_];
      [|by intros [= <-]].
    destruct (mapM _ _) as [fresh|] eqn:Em; [|done]. intros [= <-].
    apply checkForMoreChunks_counted.
    apply mapM_newChunk_length in Em. rewrite length_drop in Em.
    destruct Hc as (H1 & H2 & H3). unfold counted. simpl.
    rewrite length_app. lia.
  - destruct (splitting st); [|done]. intros [= <-].
    by apply checkCompletion_counted.
  - destruct (splitting st); [|done]. by intros [= <-].
  - destruct (awaiting st !! k) as [chunk|] eqn:Ek; [|done]. intros [= <-].
    unfold processChunkResumed, finallyBlock.
    apply checkCompletion_counted, checkForMoreChunks_counted.
    destruct Hc as (H1 & H2 & H3).
    pose proof (lookup_lt_Some _ _ _ Ek) as Hk.
    assert (Hd : List.length (delete k (awaiting st)) = List.length (awaiting st) - 1).
    { rewrite length_delete; [lia|]. eauto. }
    unfold counted, storeResult, catchBlock.
    destruct (transcribeWithRetry (answers chunk)); simpl; rewrite Hd; lia.
Qed.

Lemma initial_counted : counted initial.
Proof. unfold counted. simpl. unfold MAX_CONCURRENT_CHUNKS. lia. Qed.

Lemma run_counted (evs : list Event) :
  forall st st', counted st -> run job evs st = Continues st' -> counted st'.
Proof.
  induction evs as [|ev evs IH]; intros st st' Hc; simpl.
  - by intros [= <-].
  - destruct (step job st ev) as [st1| |] eqn:Es; [|done|done].
    apply IH. by eapply step_counted.
Qed.

End PoolFacts.


Section PoolPromise.
Import Pool.
Local Open Scope nat_scope.

Variable job : Job.

(** Closes the conjuncts of [settledRight] from those of an earlier
    state: [K] and [M] are its first two conjuncts. *)
Ltac from_right K M :=
  unfold settledRight, settle, resolution in *; simpl in *;
  repeat split; intros;
  try match goal with
      | Hr : _ = Some (Fulfilled ?r) |- _ => pose proof (K r Hr) as (? & ? & ?)
      end;
  try match goal with
      | He : _ = Some (Rejected ?e) |- _ => pose proof (M e He) as (? & ?)
      end;
  intuition (try congruence; try lia).

Lemma checkCompletion_settledRight (st : State) :
  settledRight job st -> settledRight job (checkCompletion job st).
Proof.
  intros H. pose proof H as (K & M & N & W). unfold checkCompletion.
  destruct (isSplittingComplete st) eqn:Ec; simpl; [|exact H].
  destruct (Nat.eqb_spec (processedChunks st) (totalChunks st)) as [Ep|_]; [|exact H].
  clear H. unfold settledRight, settle, resolution in *. simpl.
  destruct (promise st) as [s|] eqn:Es; [from_right K M|].
  repeat split; intros; try congruence; try (by apply N); try (by apply W).
Qed.

Lemma checkCompletion_answered (st : State) : answered (checkCompletion job st).
Proof.
  unfold answered, checkCompletion.
  destruct (isSplittingComplete st) eqn:Ec; simpl; [|by rewrite Ec].
  destruct (Nat.eqb_spec (processedChunks st) (totalChunks st)) as [Ep|Hne]; simpl.
  - intros _ _. by destruct (promise st).
  - by rewrite Ec.
Qed.

(** A state with a queued chunk has not fulfilled its promise. *)
Lemma queued_not_fulfilled (st : State) c rest :
  counted st -> settledRight job st -> chunkQueue st = c :: rest ->
  forall r, promise st <> Some (Fulfilled r).
Proof.
  intros (_ & _ & H3) (K & _) Eq r Hr. destruct (K r Hr) as (_ & _ & Ep).
  rewrite Eq in H3. simpl in H3. lia.
Qed.

Lemma processChunk_promise (disk : Disk) (more : State -> State) st c rest :
  (forall s, counted s /\ settledRight job s -> counted (more s) /\ settledRight job (more s)) ->
  chunkQueue st = c :: rest ->
  chunksBeingProcessed st < MAX_CONCURRENT_CHUNKS ->
  counted st /\ settledRight job st ->
  counted (processChunk more job disk c (setQueue rest st))
  /\ settledRight job (processChunk more job disk c (setQueue rest st)).
Proof.
  intros Hmore Eq Hlt [Hc Hs].
  pose proof (queued_not_fulfilled st c rest Hc Hs Eq) as Hnf.
  destruct Hs as (K & M & N & W). destruct Hc as (H1 & H2 & H3).
  rewrite Eq in H3. simpl in H3.
  unfold processChunk. destruct (validate disk c) as [msg|].
  - unfold finallyBlock.
    match goal with |- counted (checkCompletion job (more ?s)) /\ _ =>
      destruct (Hmore s) as [Hc' Hs'] end.
    { split; [unfold counted; simpl; lia|].
      unfold settledRight. simpl. repeat split; intros;
        try (exfalso; by eapply Hnf); try (by eapply M); try (by apply N); by apply W. }
    split; [by apply checkCompletion_counted|by apply checkCompletion_settledRight].
  - split; [unfold counted; simpl; rewrite length_app; simpl; lia|].
    unfold settledRight. simpl. repeat split; intros;
      try (exfalso; by eapply Hnf); try (by eapply M); try (by apply N); by apply W.
Qed.

Lemma checkForMoreChunks_promise (disk : Disk) (st : State) :
  counted st /\ settledRight job st ->
  counted (checkForMoreChunks job disk st) /\ settledRight job (checkForMoreChunks job disk st).
Proof.
  apply (checkForMoreChunks_preserves job disk
           (fun s => counted s /\ settledRight job s)).
  intros. by eapply processChunk_promise.
Qed.

Lemma checkForMoreChunks_isSplittingComplete (disk : Disk) (st : State) :
  isSplittingComplete (checkForMoreChunks job disk st) = isSplittingComplete st.
Proof.
  apply (checkForMoreChunks_preserves job disk
           (fun s => isSplittingComplete s = isSplittingComplete st)); [|done].
  intros more s c rest Hmore _ _ Hs. unfold processChunk.
  destruct (validate disk c) as [msg|]; [|exact Hs].
  unfold finallyBlock.
  match goal with |- context [checkCompletion job ?x] =>
    destruct (checkCompletion_fields job x) as (_ & _ & _ & _ & -> & _) end.
  apply Hmore. exact Hs.
Qed.

(** The whole invariant of the pool. *)
Lemma step_sound (st st' : State) (ev : Event) :
  counted st -> settledRight job st -> answered st -> saturated st ->
  step job st ev = Continues st' ->
  counted st' /\ settledRight job st' /\ answered st' /\ saturated st'.
Proof.
  intros Hc Hs Ha Hq Hstep.
  split; [by eapply step_counted|].
  pose proof Hs as (K & M & N & W). pose proof Hc as (H1 & H2 & H3).
  destruct ev as [listing disk| |message|k answers disk]; simpl in Hstep.
  - destruct (watching st) eqn:Ew; [|done].
    assert (Ec : isSplittingComplete st = false).
    { destruct (isSplittingComplete st); [|done]. destruct N; congruence. }
    unfold watcherTick in Hstep. rewrite Ec in Hstep.
    destruct (currentChunks job listing) as [current|]; [|done].
    destruct (Nat.ltb_spec (totalChunks st) (List.length current)) as [Hlt|_].
    2:{ injection Hstep as <-. done. }
    destruct (mapM _ _) as [fresh|] eqn:Em; [|done]. injection Hstep as <-.
    pose proof (mapM_newChunk_length job _ _ Em) as El. rewrite length_drop in El.
    split; [|split].
    + apply checkForMoreChunks_promise. split.
      * unfold counted. simpl. rewrite length_app. lia.
      * from_right K M.
    + unfold answered. rewrite checkForMoreChunks_isSplittingComplete. simpl. congruence.
    + apply checkForMoreChunks_saturated.
  - destruct (splitting st) eqn:Esp; [|done]. injection Hstep as <-.
    assert (Ec : isSplittingComplete st = false).
    { destruct (isSplittingComplete st); [|done]. destruct N; congruence. }
    split; [|split].
    + apply checkCompletion_settledRight. from_right K M.
    + apply checkCompletion_answered.
    + unfold saturated.
      destruct (checkCompletion_fields job (splitOver true st))
        as (_ & _ & _ & -> & _ & -> & _). exact Hq.
  - destruct (splitting st) eqn:Esp; [|done]. injection Hstep as <-.
    assert (Ec : isSplittingComplete st = false).
    { destruct (isSplittingComplete st); [|done]. destruct N; congruence. }
    split; [|split].
    + assert (Hnf : forall r, promise st <> Some (Fulfilled r)).
      { intros r Hr. destruct (K r Hr) as (_ & ? & _). congruence. }
      clear Hs. unfold settledRight, settle. simpl.
      destruct (promise st) as [[r|e]|] eqn:Ep; [by destruct (Hnf r)| |];
        repeat split; intros; try congruence.
    + unfold answered. simpl. rewrite Ec. done.
    + exact Hq.
  - destruct (awaiting st !! k) as [chunk|] eqn:Ek; [|done]. injection Hstep as <-.
    pose proof (lookup_lt_Some _ _ _ Ek) as Hk.
    assert (Hnf : forall r, promise st <> Some (Fulfilled r)).
    { intros r Hr. destruct (K r Hr) as (_ & _ & Ep). lia. }
    assert (Hd : List.length (delete k (awaiting st)) = List.length (awaiting st) - 1).
    { rewrite length_delete; [lia|]. eauto. }
    unfold processChunkResumed, finallyBlock.
    split; [|split].
    + apply checkCompletion_settledRight, checkForMoreChunks_promise. split.
      * unfold counted, storeResult, catchBlock.
        destruct (transcribeWithRetry (answers chunk)); simpl; rewrite Hd; lia.
      * unfold storeResult, catchBlock.
        destruct (transcribeWithRetry (answers chunk)); unfold settledRight; simpl;
          repeat split; intros;
          try (exfalso; by eapply Hnf); try (by eapply M); try (by apply N); by apply W.
    + apply checkCompletion_answered.
    + unfold saturated.
      match goal with |- context [checkCompletion job ?s] =>
        destruct (checkCompletion_fields job s) as (_ & _ & _ & -> & _ & -> & _) end.
      apply checkForMoreChunks_saturated.
Qed.

Lemma initial_sound :
  counted initial /\ settledRight job initial /\ answered initial /\ saturated initial.
Proof.
  split; [apply initial_counted|]. unfold settledRight, answered, saturated. simpl.
  repeat split; try done. by left.
Qed.

Lemma run_sound (evs : list Event) :
  forall st st',
    counted st /\ settledRight job st /\ answered st /\ saturated st ->
    run job evs st = Continues st' ->
    counted st' /\ settledRight job st' /\ answered st' /\ saturated st'.
Proof.
  induction evs as [|ev evs IH]; intros st st' H; simpl.
  - by intros [= <-].
  - destruct (step job st ev) as [st1| |] eqn:Es; [|done|done].
    apply IH. destruct H as (Hc & Hs & Ha & Hq). by eapply step_sound.
Qed.

(** When the split has ended and no call is suspended, the promise is
    fulfilled with the resolution of the final state, and every
    discovered chunk is processed. *)
Lemma drained_fulfilled (st : State) :
  counted st -> settledRight job st -> answered st -> saturated st ->
  isSplittingComplete st = true -> awaiting st = [] ->
  promise st = Some (Fulfilled (resolution job st))
  /\ processedChunks st = totalChunks st /\ chunkQueue st = [].
Proof.
  intros (H1 & H2 & H3) (K & M & N & W) Ha Hq Ec Ew.
  rewrite Ew in H1. simpl in H1.
  assert (Eq : chunkQueue st = []).
  { destruct Hq as [Hq|Hq]; [done|]. unfold MAX_CONCURRENT_CHUNKS in Hq. lia. }
  rewrite Eq in H3. simpl in H3.
  assert (Ep : processedChunks st = totalChunks st) by lia.
  destruct (Ha Ec Ep) as [[r|e] Hp].
  - destruct (K r Hp) as (-> & _). done.
  - destruct (M e Hp). congruence.
Qed.

(** At the cap nothing is dispatched. *)
Lemma checkForMoreChunks_at_cap (disk : Disk) (st : State) :
  MAX_CONCURRENT_CHUNKS <= chunksBeingProcessed st ->
  checkForMoreChunks job disk st = st.
Proof.
  intros Hcap. unfold checkForMoreChunks.
  destruct (chunkQueue st) as [|c rest] eqn:Eq; [done|].
  cbn [List.length checkForMoreChunksLoop]. rewrite Eq.
  by destruct (Nat.ltb_spec (chunksBeingProcessed st) MAX_CONCURRENT_CHUNKS); [lia|].
Qed.

End PoolPromise.

(** C8. In every state a job reaches, under every interleaving of
    watcher ticks, split events and service answers, the calls
    suspended at the transcription service are as many as the counter
    [chunksBeingProcessed] says, and that is at most
    [MAX_CONCURRENT_CHUNKS] = 3.  With three calls in flight
    [checkForMoreChunks] dispatches nothing, and a chunk stays in the
    queue only then. *)
Theorem calls_in_flight_at_most_three (job : Pool.Job) (evs : list Pool.Event)
    (st : Pool.State) :
  Pool.run job evs Pool.initial = Pool.Continues st ->
  List.length (Pool.awaiting st) = Pool.chunksBeingProcessed st
  /\ (Pool.chunksBeingProcessed st <= 3)%nat
  /\ (List.length (Pool.awaiting st) <= MAX_CONCURRENT_CHUNKS)%nat
  /\ (forall disk, (3 <= Pool.chunksBeingProcessed st)%nat ->
        Pool.checkForMoreChunks job disk st = st)
  /\ (Pool.chunkQueue st = [] \/ Pool.chunksBeingProcessed st = 3%nat).
Proof.
  intros Hrun.
  destruct (run_sound job evs _ _ (initial_sound job) Hrun)
    as ((H1 & H2 & _) & _ & _ & Hq).
  unfold Pool.saturated, MAX_CONCURRENT_CHUNKS in *.
  repeat split; try lia.
  - intros disk Hcap. by apply checkForMoreChunks_at_cap.
  - destruct Hq as [Hq|Hq]; [by left|right; lia].
Qed.

Lemma calls_in_flight_at_most_three_witness :
  List.length (Pool.awaiting Pool.busyFinal) = 3%nat
  /\ List.length (Pool.chunkQueue Pool.busyFinal) = 2%nat
  /\ (Pool.chunksBeingProcessed Pool.busyFinal <= 3)%nat.
Proof.
  split; [by vm_compute|]. split; [by vm_compute|].
  apply (calls_in_flight_at_most_three Pool.sampleJob Pool.busyRun Pool.busyFinal).
  by vm_compute.
Defined.

Section PoolProgress.
Import Pool.
Local Open Scope nat_scope.

Variable job : Job.

Lemma percent_mono (p p' t : nat) : p <= p' -> (percent p t <= percent p' t)%Z.
Proof.
  intros Hp. unfold percent. apply Qfloor_resp_le.
  apply Qplus_le_r. apply Qmult_le_compat_r; [|done].
  unfold Qdiv. apply Qmult_le_compat_r.
  - rewrite <- Zle_Qle. lia.
  - apply Qinv_le_0_compat. replace 0%Q with (inject_Z 0) by done.
    rewrite <- Zle_Qle. lia.
Qed.

Lemma percent_range (p t : nat) : p <= t -> 0 < t -> (20 <= percent p t <= 90)%Z.
Proof.
  intros Hp Ht. unfold percent.
  set (x := (inject_Z (Z.of_nat p) / inject_Z (Z.of_nat t) * 70)%Q).
  assert (Ht' : (0 < inject_Z (Z.of_nat t))%Q).
  { replace 0%Q with (inject_Z 0) by done. rewrite <- Zlt_Qlt. lia. }
  assert (H0 : (0 <= x)%Q).
  { unfold x. apply Qmult_le_0_compat; [|done]. apply Qle_shift_div_l; [done|].
    rewrite Qmult_0_l. replace 0%Q with (inject_Z 0) by done. rewrite <- Zle_Qle. lia. }
  assert (H70 : (x <= 70)%Q).
  { unfold x. apply Qle_trans with (1 * 70)%Q; [|done].
    apply Qmult_le_compat_r; [|done]. apply Qle_shift_div_r; [done|].
    rewrite Qmult_1_l. rewrite <- Zle_Qle. lia. }
  split.
  - change 20%Z with (Qfloor 20). apply Qfloor_resp_le.
    apply Qle_trans with (20 + 0)%Q; [done|]. by apply Qplus_le_r.
  - change 90%Z with (Qfloor 90). apply Qfloor_resp_le.
    apply Qle_trans with (20 + 70)%Q; [|done]. by apply Qplus_le_r.
Qed.

Lemma percent_zero (t : nat) : percent 0 t = 20%Z.
Proof.
  unfold percent.
  assert (E : (20 + inject_Z (Z.of_nat 0) / inject_Z (Z.of_nat t) * 70 == 20)%Q).
  { unfold Qdiv. change (inject_Z (Z.of_nat 0)) with 0%Q.
    rewrite !Qmult_0_l. apply Qplus_0_r. }
  by rewrite E.
Qed.

Lemma nondecreasing_snoc (l : list Z) (x : Z) :
  nondecreasing l -> Forall (fun y => (y <= x)%Z) l -> nondecreasing (l ++ [x]).
Proof.
  induction l as [|a l IH]; [done|]. intros Hl Hall.
  apply Forall_cons in Hall as [Ha Hall].
  destruct l as [|b l]; [simpl; done|].
  destruct Hl as [Hab Hl]. split; [done|]. by apply IH.
Qed.

Lemma capped_ext (s s' : State) :
  totalChunks s' = totalChunks s -> processedChunks s' = processedChunks s ->
  written s' = written s -> capped s -> capped s'.
Proof. unfold capped. by intros -> -> ->. Qed.

Lemma capped_write (e : ProgressEvent) (st : State) :
  totalChunks st <> 0 ->
  progress e = percent (processedChunks st) (totalChunks st) ->
  capped st -> capped (write e st).
Proof.
  intros Ht Ee (C0 & C1 & C2). unfold capped. simpl. split; [done|]. split.
  - apply Forall_app. split; [done|]. constructor; [lia|constructor].
  - rewrite map_app. apply nondecreasing_snoc; [done|].
    rewrite Forall_map. rewrite Ee. exact C1.
Qed.

Lemma capped_setProcessed (st : State) :
  capped st -> capped (setProcessed (S (processedChunks st)) st).
Proof.
  intros (C0 & C1 & C2). unfold capped. simpl. split; [done|]. split; [|done].
  eapply Forall_impl; [exact C1|]. simpl. intros e He.
  etransitivity; [exact He|]. apply percent_mono. lia.
Qed.

Lemma capped_storeResult (c : Chunk) (text : string) (st : State) :
  totalChunks st <> 0 -> capped st -> capped (storeResult c text st).
Proof.
  intros Ht Hc. unfold storeResult. apply capped_write; [done|done|].
  apply (capped_ext (setProcessed (S (processedChunks st)) st)); try done.
  by apply capped_setProcessed.
Qed.

Lemma capped_catchBlock (c : Chunk) (msg : string) (st : State) :
  totalChunks st <> 0 -> capped st -> capped (catchBlock c msg st).
Proof.
  intros Ht Hc. unfold catchBlock. apply capped_write; [done|done|].
  apply (capped_ext (setProcessed (S (processedChunks st)) st)); try done.
  by apply capped_setProcessed.
Qed.

Lemma checkCompletion_capped (st : State) : capped st -> capped (checkCompletion job st).
Proof.
  destruct (checkCompletion_fields job st) as (_ & Et & Ep & _ & _ & _ & _ & _ & _ & Ew).
  by apply capped_ext.
Qed.

Lemma processChunk_capped (disk : Disk) (T : nat) (more : State -> State) st c rest :
  (forall s, counted s /\ capped s /\ totalChunks s = T ->
             counted (more s) /\ capped (more s) /\ totalChunks (more s) = T) ->
  chunkQueue st = c :: rest ->
  chunksBeingProcessed st < MAX_CONCURRENT_CHUNKS ->
  counted st /\ capped st /\ totalChunks st = T ->
  counted (processChunk more job disk c (setQueue rest st))
  /\ capped (processChunk more job disk c (setQueue rest st))
  /\ totalChunks (processChunk more job disk c (setQueue rest st)) = T.
Proof.
  intros Hmore Eq Hlt (Hc & Hcap & Ht).
  pose proof Hc as (H1 & H2 & H3). rewrite Eq in H3. simpl in H3.
  assert (Hpos : totalChunks st <> 0) by lia.
  set (st1 := setBeingProcessed (S (chunksBeingProcessed (setQueue rest st)))
                (setQueue rest st)).
  assert (Hw : capped (write (transcribing (index c) st1) st1)).
  { apply capped_write; [done|done|]. by apply (capped_ext st). }
  unfold processChunk. fold st1. destruct (validate disk c) as [msg|].
  - unfold finallyBlock.
    match goal with |- counted (checkCompletion job (more ?x)) /\ _ =>
      destruct (Hmore x) as (Hc' & Hcap' & Ht') end.
    { split; [unfold counted; simpl; lia|]. split; [|done].
      eapply capped_ext; [| | |apply (capped_catchBlock c msg (write (transcribing (index c) st1) st1) Hpos Hw)]; done. }
    split; [by apply checkCompletion_counted|].
    split; [by apply checkCompletion_capped|].
    match goal with |- context [checkCompletion job ?x] =>
      destruct (checkCompletion_fields job x) as (_ & -> & _) end. done.
  - split; [unfold counted; simpl; rewrite length_app; simpl; lia|].
    split; [|done]. eapply capped_ext; [| | |exact Hw]; done.
Qed.

Lemma checkForMoreChunks_capped (disk : Disk) (st : State) :
  counted st -> capped st ->
  capped (checkForMoreChunks job disk st)
  /\ totalChunks (checkForMoreChunks job disk st) = totalChunks st.
Proof.
  intros Hc Hcap.
  apply (checkForMoreChunks_preserves job disk
           (fun s => counted s /\ capped s /\ totalChunks s = totalChunks st)); [|done].
  intros. by eapply processChunk_capped.
Qed.

Lemma checkForMoreChunks_totalChunks (disk : Disk) (st : State) :
  totalChunks (checkForMoreChunks job disk st) = totalChunks st.
Proof.
  apply (checkForMoreChunks_preserves job disk
           (fun s => totalChunks s = totalChunks st)); [|done].
  intros more s c rest Hmore _ _ Hs. unfold processChunk.
  destruct (validate disk c) as [msg|]; [|exact Hs].
  unfold finallyBlock.
  match goal with |- context [checkCompletion job ?x] =>
    destruct (checkCompletion_fields job x) as (_ & -> & _) end.
  apply Hmore. exact Hs.
Qed.

(** From one callback to the next the events stay in order when the
    number of discovered chunks stays the same, or grows while no chunk
    has been processed, all events so far carrying 20. *)
Lemma step_capped (st st' : State) (ev : Event) :
  counted st -> capped st ->
  step job st ev = Continues st' ->
  totalChunks st' = totalChunks st \/ processedChunks st = 0 ->
  capped st'.
Proof.
  intros Hc Hcap Hstep HT. pose proof Hc as (H1 & H2 & H3).
  destruct ev as [listing disk| |message|k answers disk]; simpl in Hstep.
  - destruct (watching st); [|done]. unfold watcherTick in Hstep.
    destruct (isSplittingComplete st); [injection Hstep as <-; by apply (capped_ext st)|].
    destruct (currentChunks job listing) as [current|]; [|done].
    destruct (Nat.ltb_spec (totalChunks st) (List.length current)) as [Hlt|_].
    2:{ by injection Hstep as <-. }
    destruct (mapM _ _) as [fresh|] eqn:Em; [|done]. injection Hstep as <-.
    pose proof (mapM_newChunk_length job _ _ Em) as El. rewrite length_drop in El.
    rewrite checkForMoreChunks_totalChunks in HT. simpl in HT.
    assert (E0 : processedChunks st = 0) by lia.
    destruct Hcap as (C0 & C1 & C2).
    apply checkForMoreChunks_capped.
    + unfold counted. simpl. rewrite length_app. lia.
    + unfold capped. simpl. split; [lia|]. split; [|done].
      rewrite E0 in *. eapply Forall_impl; [exact C1|]. simpl. intros e He.
      by rewrite percent_zero in *.
  - destruct (splitting st); [|done]. injection Hstep as <-.
    apply checkCompletion_capped. by apply (capped_ext st).
  - destruct (splitting st); [|done]. injection Hstep as <-. by apply (capped_ext st).
  - destruct (awaiting st !! k) as [chunk|] eqn:Ek; [|done]. injection Hstep as <-.
    pose proof (lookup_lt_Some _ _ _ Ek) as Hk.
    assert (Hd : List.length (delete k (awaiting st)) = List.length (awaiting st) - 1).
    { rewrite length_delete; [lia|]. eauto. }
    assert (Hpos : totalChunks st <> 0) by lia.
    set (st0 := setAwaiting (delete k (awaiting st)) st).
    assert (Hcap0 : capped st0) by by apply (capped_ext st).
    unfold processChunkResumed, finallyBlock.
    apply checkCompletion_capped, checkForMoreChunks_capped.
    + unfold counted, storeResult, catchBlock, st0.
      destruct (transcribeWithRetry (answers chunk)); simpl; rewrite Hd; lia.
    + destruct (transcribeWithRetry (answers chunk)) as [text|msg].
      * eapply capped_ext; [| | |apply (capped_storeResult chunk text st0 Hpos Hcap0)]; done.
      * eapply capped_ext; [| | |apply (capped_catchBlock chunk msg st0 Hpos Hcap0)]; done.
Qed.

Lemma initial_capped : capped initial.
Proof. unfold capped. simpl. repeat split; constructor. Qed.

Lemma run_capped (evs : list Event) :
  forall st st',
    counted st -> capped st ->
    growsBeforeProgress st (trajectory job evs st) ->
    run job evs st = Continues st' -> capped st'.
Proof.
  induction evs as [|ev evs IH]; intros st st' Hc Hcap Htraj; simpl.
  - by intros [= <-].
  - simpl in Htraj. destruct (step job st ev) as [st1| |] eqn:Es; [|done|done].
    destruct Htraj as [HT Htraj].
    apply IH; try done.
    + by eapply step_counted.
    + by eapply step_capped.
Qed.

Lemma ranged_ext (s s' : State) : written s' = written s -> ranged s -> ranged s'.
Proof. unfold ranged. by intros ->. Qed.

Lemma ranged_write (e : ProgressEvent) (st : State) :
  processedChunks st <= totalChunks st -> 0 < totalChunks st ->
  progress e = percent (processedChunks st) (totalChunks st) ->
  ranged st -> ranged (write e st).
Proof.
  intros Hp Ht Ee Hr. unfold ranged. simpl. apply Forall_app. split; [done|].
  constructor; [|constructor]. rewrite Ee. by apply percent_range.
Qed.

Lemma ranged_storeResult (c : Chunk) (text : string) (st : State) :
  processedChunks st < totalChunks st -> ranged st -> ranged (storeResult c text st).
Proof.
  intros Hp Hr. unfold storeResult. apply ranged_write; simpl; [lia|lia|done|].
  by apply (ranged_ext st).
Qed.

Lemma ranged_catchBlock (c : Chunk) (msg : string) (st : State) :
  processedChunks st < totalChunks st -> ranged st -> ranged (catchBlock c msg st).
Proof.
  intros Hp Hr. unfold catchBlock. apply ranged_write; simpl; [lia|lia|done|].
  by apply (ranged_ext st).
Qed.

Lemma processChunk_ranged (disk : Disk) (more : State -> State) st c rest :
  (forall s, counted s /\ ranged s -> counted (more s) /\ ranged (more s)) ->
  chunkQueue st = c :: rest ->
  chunksBeingProcessed st < MAX_CONCURRENT_CHUNKS ->
  counted st /\ ranged st ->
  counted (processChunk more job disk c (setQueue rest st))
  /\ ranged (processChunk more job disk c (setQueue rest st)).
Proof.
  intros Hmore Eq Hlt (Hc & Hr).
  pose proof Hc as (H1 & H2 & H3). rewrite Eq in H3. simpl in H3.
  set (st1 := setBeingProcessed (S (chunksBeingProcessed (setQueue rest st)))
                (setQueue rest st)).
  assert (Hw : ranged (write (transcribing (index c) st1) st1)).
  { apply ranged_write; simpl; [lia|lia|done|]. by apply (ranged_ext st). }
  unfold processChunk. fold st1. destruct (validate disk c) as [msg|].
  - unfold finallyBlock.
    match goal with |- counted (checkCompletion job (more ?x)) /\ _ =>
      destruct (Hmore x) as (Hc' & Hr') end.
    { split; [unfold counted; simpl; lia|].
      eapply ranged_ext;
        [|apply (ranged_catchBlock c msg (write (transcribing (index c) st1) st1));
          [simpl; lia|exact Hw]].
      done. }
    split; [by apply checkCompletion_counted|].
    eapply ranged_ext; [|exact Hr'].
    match goal with |- context [checkCompletion job ?x] =>
      by destruct (checkCompletion_fields job x) as (_ & _ & _ & _ & _ & _ & _ & _ & _ & ->)
    end.
  - split; [unfold counted; simpl; rewrite length_app; simpl; lia|].
    eapply ranged_ext; [|exact Hw]. done.
Qed.

Lemma checkForMoreChunks_ranged (disk : Disk) (st : State) :
  counted st -> ranged st -> ranged (checkForMoreChunks job disk st).
Proof.
  intros Hc Hr.
  apply (checkForMoreChunks_preserves job disk (fun s => counted s /\ ranged s)); [|done].
  intros. by eapply processChunk_ranged.
Qed.

Lemma step_ranged (st st' : State) (ev : Event) :
  counted st -> ranged st -> step job st ev = Continues st' -> ranged st'.
Proof.
  intros Hc Hr Hstep. pose proof Hc as (H1 & H2 & H3).
  destruct ev as [listing disk| |message|k answers disk]; simpl in Hstep.
  - destruct (watching st); [|done]. unfold watcherTick in Hstep.
    destruct (isSplittingComplete st); [injection Hstep as <-; by apply (ranged_ext st)|].
    destruct (currentChunks job listing) as [current|]; [|done].
    destruct (Nat.ltb_spec (totalChunks st) (List.length current)) as [Hlt|_].
    2:{ by injection Hstep as <-. }
    destruct (mapM _ _) as [fresh|] eqn:Em; [|done]. injection Hstep as <-.
    pose proof (mapM_newChunk_length job _ _ Em) as El. rewrite length_drop in El.
    apply checkForMoreChunks_ranged; [|by apply (ranged_ext st)].
    unfold counted. simpl. rewrite length_app. lia.
  - destruct (splitting st); [|done]. injection Hstep as <-.
    eapply ranged_ext; [|exact Hr].
    by destruct (checkCompletion_fields job (splitOver true st))
      as (_ & _ & _ & _ & _ & _ & _ & _ & _ & ->).
  - destruct (splitting st); [|done]. injection Hstep as <-. by apply (ranged_ext st).
  - destruct (awaiting st !! k) as [chunk|] eqn:Ek; [|done]. injection Hstep as <-.
    pose proof (lookup_lt_Some _ _ _ Ek) as Hk.
    assert (Hd : List.length (delete k (awaiting st)) = List.length (awaiting st) - 1).
    { rewrite length_delete; [lia|]. eauto. }
    unfold processChunkResumed, finallyBlock.
    eapply ranged_ext.
    { match goal with |- context [checkCompletion job ?x] =>
        by destruct (checkCompletion_fields job x) as (_ & _ & _ & _ & _ & _ & _ & _ & _ & ->)
      end. }
    apply checkForMoreChunks_ranged.
    + unfold counted, storeResult, catchBlock.
      destruct (transcribeWithRetry (answers chunk)); simpl; rewrite Hd; lia.
    + set (st0 := setAwaiting (delete k (awaiting st)) st).
      assert (Hr0 : ranged st0) by by apply (ranged_ext st).
      assert (Hp0 : processedChunks st0 < totalChunks st0) by (simpl; lia).
      destruct (transcribeWithRetry (answers chunk)) as [text|msg].
      * eapply ranged_ext; [|apply (ranged_storeResult chunk text st0 Hp0 Hr0)]. done.
      * eapply ranged_ext; [|apply (ranged_catchBlock chunk msg st0 Hp0 Hr0)]. done.
Qed.

Lemma run_ranged (evs : list Event) :
  forall st st', counted st -> ranged st -> run job evs st = Continues st' -> ranged st'.
Proof.
  induction evs as [|ev evs IH]; intros st st' Hc Hr; simpl.
  - by intros [= <-].
  - destruct (step job st ev) as [st1| |] eqn:Es; [|done|done].
    apply IH; [by eapply step_counted|by eapply step_ranged].
Qed.

End PoolProgress.

(** C3, as the claim states it, fails: a job discovers one chunk and
    finishes it (20, then 90), then discovers two more; the next events
    carry 43. *)
Lemma progress_drops_when_more_chunks_are_discovered :
  exists st,
    Pool.run Pool.sampleJob Pool.growingRun Pool.initial = Pool.Continues st
    /\ map Pool.progress (Pool.written st) = [20; 90; 43; 43]
    /\ ~ Pool.nondecreasing (map Pool.progress (Pool.written st)).
Proof.
  eexists. split; [by vm_compute|]. split; [by vm_compute|].
  vm_compute. intros (_ & H & _). by apply H.
Qed.

(** C3, amended. In a job where the number of discovered chunks grows
    only while no chunk has been processed, and stays the same from the
    first processed chunk on, every event the pool writes carries a
    percentage greater than or equal to that of the event before it,
    and every one of these percentages is between 20 and 90. *)
Theorem progress_nondecreasing_when_total_is_fixed (job : Pool.Job)
    (evs : list Pool.Event) (st : Pool.State) :
  Pool.run job evs Pool.initial = Pool.Continues st ->
  Pool.growsBeforeProgress Pool.initial (Pool.trajectory job evs Pool.initial) ->
  Pool.nondecreasing (map Pool.progress (Pool.written st))
  /\ Forall (fun e => 20 <= Pool.progress e <= 90) (Pool.written st).
Proof.
  intros Hrun Htraj.
  destruct (run_capped job evs Pool.initial st
              initial_counted initial_capped Htraj Hrun)
    as (_ & _ & Hnd).
  split; [exact Hnd|].
  apply (run_ranged job evs Pool.initial st initial_counted); [constructor|exact Hrun].
Qed.

Lemma progress_nondecreasing_when_total_is_fixed_witness :
  map Pool.totalChunks (Pool.trajectory Pool.sampleJob Pool.steadyRun Pool.initial)
  = [1; 3; 3; 3; 3; 3]%nat
  /\ map Pool.progress (Pool.written Pool.steadyFinal) = [20; 20; 20; 43; 66; 90]
  /\ Pool.nondecreasing (map Pool.progress (Pool.written Pool.steadyFinal)).
Proof.
  split; [by vm_compute|]. split; [by vm_compute|].
  apply (progress_nondecreasing_when_total_is_fixed Pool.sampleJob Pool.steadyRun
           Pool.steadyFinal).
  - by vm_compute.
  - vm_compute. repeat split; auto.
Defined.

Section PoolOrder.
Import Pool.
Local Open Scope nat_scope.

Variable job : Job.






Lemma newChunk_indices (files : list string) (fresh : list Chunk) :
  mapM (newChunk job) files = Some fresh ->
  map chunkNum files = map Some (map index fresh).
Proof.
  intros H. apply mapM_Some_1 in H.
  induction H as [|file c files fresh Hf _ IH]; [done|].
  simpl. rewrite IH. f_equal. unfold newChunk in Hf.
  destruct (chunkNum file); simpl in Hf; [|done]. by injection Hf as <-.
Qed.

Lemma map_Some_inj {A} (l k : list A) : map Some l = map Some k -> l = k.
Proof.
  revert k. induction l as [|x l IH]; intros [|y k]; simpl; try done.
  intros [= -> E]. f_equal. by apply IH.
Qed.

Lemma dense_fresh (current : list string) (fresh : list Chunk) (t : nat) :
  map chunkNum current = map Some (seq 0 (List.length current)) ->
  mapM (newChunk job) (drop t current) = Some fresh ->
  map index fresh = seq t (List.length current - t).
Proof.
  intros Hd Hm. apply newChunk_indices in Hm.
  apply map_Some_inj. rewrite <- Hm.
  change (drop t current) with (skipn t current).
  rewrite <- skipn_map, Hd, skipn_map, skipn_seq. done.
Qed.

Lemma In_delete {A} (l : list A) (k : nat) (x y : A) :
  l !! k = Some y -> In x l -> x <> y -> In x (delete k l).
Proof.
  intros Hk Hin Hne. rewrite delete_take_drop.
  rewrite <- (take_drop_middle l k y Hk) in Hin.
  rewrite in_app_iff in *. simpl in Hin. intuition congruence.
Qed.







End PoolOrder.

(** *** Jobs whose chunk files are numbered with gaps

    What follows asks nothing of the numbers in the listings. *)

Section PoolSettled.
Import Pool.
Local Open Scope nat_scope.

Variable job : Job.
Variable outcome : nat -> ApiResponse.













End PoolSettled.

Section PoolSamples.
Import Pool.
Local Open Scope nat_scope.

Lemma sampleDisk_healthy : healthy sampleDisk.
Proof.
  intros p. exists 20000000%Z. split; [reflexivity|].
  unfold OPENAI_WHISPER_LIMIT, MB. lia.
Qed.

Lemma sampleListing_dense (n : nat) : n <= 5 -> dense sampleJob (sampleListing n).
Proof.
  intros Hn. unfold dense.
  destruct n as [|[|[|[|[|[|n]]]]]]; [| | | | | |lia];
    (eexists; split; [by vm_compute|by vm_compute]).
Qed.

(** The retry loop ends within its three calls: with the first text, or
    with the error of the third call. *)
Lemma transcribeWithRetry_calls (answers : nat -> ApiResponse) :
  transcribeWithRetry answers
  = match answers 0 with
    | ApiOk text => ApiOk text
    | ApiError _ =>
        match answers 1 with
        | ApiOk text => ApiOk text
        | ApiError _ => answers 2
        end
    end.
Proof.
  unfold transcribeWithRetry, maxRetries. simpl.
  destruct (answers 0); [done|]. destruct (answers 1); [done|]. by destruct (answers 2).
Qed.


Lemma placeholder_nonEmpty (i : nat) (msg : string) : nonEmpty (placeholder i msg) = true.
Proof. reflexivity. Qed.

End PoolSamples.

(** Goes through the events of a sample run. *)
Ltac each_event :=
  repeat match goal with
         | |- Forall _ (_ :: _) => constructor
         | |- Forall _ [] => constructor
         end;
  try exact I;
  try apply sampleDisk_healthy;
  try (split; [apply sampleListing_dense; lia|apply sampleDisk_healthy]);
  try (split;
       [apply sampleDisk_healthy
       |let c := fresh "c" in
        intros c;
        first [reflexivity
              |unfold Pool.flakyService; by destruct (Pool.index c =? 1)%nat
              |unfold Pool.lostService; by destruct (Pool.index c =? 12)%nat]]).


(** C1, as the claim states it, fails in a second way: the repair has
    renamed a piece to [chunk-12ab34cd], the watcher reads index 12 in
    that name, and the two segments discovered are both transcribed.
    The loop of [checkCompletion] reads the indices 0 and 1 only, and
    the text stored at index 12 is not in the transcript. *)
Lemma sparse_index_is_left_out_of_transcript :
  Forall (Pool.eachSucceeds Pool.sampleTexts) Pool.sparseRun
  /\ exists st r,
       Pool.run Pool.sampleJob Pool.sparseRun Pool.initial = Pool.Continues st
       /\ Pool.promise st = Some (Pool.Fulfilled r)
       /\ Pool.totalChunks st = 2%nat
       /\ Pool.transcriptionResults st !! 0%nat = Some "good morning"
       /\ Pool.transcriptionResults st !! 12%nat = Some "to the show"
       /\ Pool.combinedTranscription r = "good morning".
Proof.
  split.
  - unfold Pool.sparseRun. each_event.
  - eexists. eexists. split; [by vm_compute|]. split; [by vm_compute|].
    split; [by vm_compute|]. split; [by vm_compute|]. split; by vm_compute.
Qed.

(** And in a third way: the repair has renamed a piece to
    [chunk-0ab12cd3], the watcher reads index 0 in that name as in
    [chunk-000], and both segments are transcribed.  The entry at index
    0 is written twice, the text of the call that returns last
    replacing the other, which is not in the transcript. *)
Lemma same_number_keeps_one_text_only :
  (forall c attempt, exists text, Pool.twinService c attempt = ApiOk text)
  /\ exists st r,
       Pool.run Pool.sampleJob Pool.twinRun Pool.initial = Pool.Continues st
       /\ Pool.promise st = Some (Pool.Fulfilled r)
       /\ Pool.totalChunks st = 2%nat
       /\ Pool.processedChunks st = 2%nat
       /\ (exists st1,
            Pool.run Pool.sampleJob (take 2 Pool.twinRun) Pool.initial = Pool.Continues st1
            /\ Pool.transcriptionResults st1 !! 0%nat = Some "good morning")
       /\ Pool.transcriptionResults st !! 0%nat = Some "and welcome"
       /\ Pool.combinedTranscription r = "and welcome".
Proof.
  split.
  - intros c attempt. unfold Pool.twinService. eauto.
  - eexists. eexists. split; [by vm_compute|]. split; [by vm_compute|].
    split; [by vm_compute|]. split; [by vm_compute|].
    split; [eexists; split; by vm_compute|]. split; by vm_compute.
Qed.






(** * Further properties *)

(** ** The planner *)

Lemma Qdiv_mult_cancel (a b : Q) : (0 < b)%Q -> (a / b * b == a)%Q.
Proof.
  intros Hb. field. intros E. rewrite E in Hb. by apply Qlt_irrefl in Hb.
Qed.


(** ** Authentication *)

Section AuthFacts.
Import Auth.

Lemma truthy_strictEq (pin : Value) (PIN_CODE : option string) :
  truthy pin && strictEq pin PIN_CODE = true
  <-> exists p, pin = Text p /\ PIN_CODE = Some p /\ p <> "".
Proof.
  split.
  - destruct pin as [| | | |s|], PIN_CODE as [p|]; simpl; try (intros H; by destruct_and?);
      rewrite ?andb_false_r; try done.
    intros H. apply andb_true_iff in H as [Hs He].
    apply String.eqb_eq in He as ->. exists p. repeat split.
    intros ->. done.
  - intros (p & -> & -> & Hp). simpl. rewrite String.eqb_refl, andb_true_r.
    by destruct (String.eqb_spec p "").
Qed.

(** X2. [/api/authenticate] answers with success exactly when the pin
    sent is a string equal to a configured, non-empty [PIN_CODE]; the
    session is authenticated afterwards exactly when it was before or
    the answer is a success.  A pin sent as a number, and any pin when
    [PIN_CODE] is unset or empty, is refused. *)
Theorem authenticate_accepts_only_the_configured_pin (PIN_CODE : option string)
    (pin : Value) (flag : bool) :
  (success (fst (authenticate PIN_CODE pin flag)) = true
   <-> exists p, pin = Text p /\ PIN_CODE = Some p /\ p <> "")
  /\ (snd (authenticate PIN_CODE pin flag) = true
      <-> flag = true \/ success (fst (authenticate PIN_CODE pin flag)) = true)
  /\ (success (fst (authenticate PIN_CODE pin flag)) = true
      <-> status (fst (authenticate PIN_CODE pin flag)) = 200%nat).
Proof.
  pose proof (truthy_strictEq pin PIN_CODE) as H. unfold authenticate.
  destruct (truthy pin); simpl in *; [destruct (strictEq pin PIN_CODE)|]; simpl;
    (split; [exact H|]); (split; [intuition congruence|]);
    (split; intros E; [first [reflexivity|discriminate E]
                      |first [reflexivity|exfalso; lia]]).
Qed.

(** X3. Without an authenticated session, [requireAuth] lets a request
    through only on one of the four login paths, or on a path under
    [/api/] whose authorization header is [Bearer] followed by
    [PIN_CODE]; every other path under [/api/] is answered 401 and
    every other path is redirected to the login page. *)
Theorem requireAuth_gate (PIN_CODE : option string) (req : Request) :
  authenticated req = false ->
  (requireAuth PIN_CODE req = Next
   <-> isLoginPath (path req) = true
       \/ (Str.startsWith "/api/" (path req) = true
           /\ authorization req = Some ("Bearer " ++ interpolate PIN_CODE)%string))
  /\ (requireAuth PIN_CODE req = Unauthorized -> Str.startsWith "/api/" (path req) = true)
  /\ (requireAuth PIN_CODE req = RedirectLogin -> Str.startsWith "/api/" (path req) = false).
Proof.
  intros Hf. unfold requireAuth. rewrite Hf.
  destruct (isLoginPath (path req)); [repeat split; auto; done|].
  destruct (Str.startsWith "/api/" (path req)).
  2:{ repeat split; try done. intros [?|[? _]]; done. }
  destruct (authorization req) as [h|].
  2:{ repeat split; try done. intros [?|[_ ?]]; done. }
  destruct (String.eqb_spec h ("Bearer " ++ interpolate PIN_CODE)%string) as [->|Hne].
  - replace (String.eqb ("Bearer " ++ interpolate PIN_CODE) "") with false by done.
    simpl. repeat split; auto; done.
  - rewrite andb_false_r. repeat split; try done.
    intros [?|[_ [= ->]]]; done.
Qed.

Lemma requireAuth_gate_witness :
  requireAuth (Some "4821")
    {| path := "/transcribe"; authenticated := false; authorization := None |}
  = RedirectLogin
  /\ (requireAuth (Some "4821")
        {| path := "/api/transcriptions"; authenticated := false;
           authorization := Some "Bearer 4821" |} = Next).
Proof.
  split; [reflexivity|].
  apply (requireAuth_gate (Some "4821")
           {| path := "/api/transcriptions"; authenticated := false;
              authorization := Some "Bearer 4821" |}); [reflexivity|].
  right. split; reflexivity.
Defined.

(** X4. A session that [/api/authenticate] has accepted passes
    [requireAuth] on every path, with or without a header; once
    [/api/logout] has destroyed it, the next request without a header is
    let through on the login paths only. *)
Theorem login_opens_and_logout_closes (p : string) (flag : bool) (req : Request) :
  p <> "" ->
  let session := snd (authenticate (Some p) (Text p) flag) in
  requireAuth (Some p)
    {| path := path req; authenticated := session; authorization := authorization req |}
  = Next
  /\ (isLoginPath (path req) = false ->
      requireAuth (Some p)
        {| path := path req;
           authenticated := flagOf (snd (logout (Some session) false));
           authorization := None |}
      <> Next).
Proof.
  intros Hp. simpl. unfold authenticate. simpl. rewrite String.eqb_refl.
  destruct (String.eqb_spec p ""); [done|]. simpl. split.
  - unfold requireAuth. simpl. by destruct (isLoginPath (path req)).
  - intros Hl. unfold requireAuth. simpl. rewrite Hl.
    by destruct (Str.startsWith "/api/" (path req)).
Qed.

Lemma login_opens_and_logout_closes_witness :
  requireAuth (Some "4821")
    {| path := "/transcribe";
       authenticated := snd (authenticate (Some "4821") (Text "4821") false);
       authorization := None |} = Next.
Proof.
  apply (login_opens_and_logout_closes "4821" false
           {| path := "/transcribe"; authenticated := false; authorization := None |}).
  discriminate.
Defined.

(** X5. When [PIN_CODE] is unset or empty no pin is accepted by
    [/api/authenticate] and the session is left as it was; yet when it
    is unset, a request carrying the header [Bearer undefined], the
    interpolated variable, passes [requireAuth] on every path under
    [/api/]. *)
Theorem unset_pin_closes_login_but_not_the_bearer_header (PIN_CODE : option string)
    (pin : Value) (flag : bool) (p : string) :
  PIN_CODE = None \/ PIN_CODE = Some "" ->
  Str.startsWith "/api/" p = true ->
  success (fst (authenticate PIN_CODE pin flag)) = false
  /\ snd (authenticate PIN_CODE pin flag) = flag
  /\ requireAuth None
       {| path := p; authenticated := false; authorization := Some "Bearer undefined" |}
     = Next.
Proof.
  intros HP Hapi.
  assert (Hno : truthy pin && strictEq pin PIN_CODE = false).
  { destruct (truthy pin && strictEq pin PIN_CODE) eqn:E; [|done].
    apply truthy_strictEq in E as (q & _ & Eq & Hq). destruct HP; congruence. }
  split; [|split].
  - unfold authenticate. destruct (truthy pin); [|done].
    simpl in Hno. by rewrite Hno.
  - unfold authenticate. destruct (truthy pin); [|done].
    simpl in Hno. by rewrite Hno.
  - unfold requireAuth. simpl. rewrite Hapi. by destruct (isLoginPath p).
Qed.

Lemma unset_pin_closes_login_but_not_the_bearer_header_witness :
  requireAuth None
    {| path := "/api/transcriptions"; authenticated := false;
       authorization := Some "Bearer undefined" |} = Next.
Proof.
  apply (unset_pin_closes_login_but_not_the_bearer_header None (Text "0000") false
           "/api/transcriptions"); [by left|reflexivity].
Defined.

End AuthFacts.

(** ** Saved transcriptions *)

Section StoreFacts.
Import Store.

(** X6. [saveTranscription] never throws.  When the write succeeds it
    returns the name [<timestamp>_<original name without extension>.txt],
    and the download route then answers that name with the text that was
    saved, leaving the disk as it is; when the write fails it returns
    [null] and changes nothing. *)
Theorem saved_transcription_is_served_back (env : Route.Env) (text originalFilename : string)
    (w : Route.World) :
  let saved := Route.saveTranscription env text originalFilename w in
  match Route.writeError env with
  | None =>
      let f := (Route.now env ++ "_" ++ Str.stripExtension originalFilename ++ ".txt")%string in
      fst saved = inl (Some f)
      /\ download env f (snd saved) = (inl (Content text f), snd saved)
  | Some _ => saved = (inl None, w)
  end.
Proof.
  unfold Route.saveTranscription, Exn.tryCatch, Exn.bind, Route.writeFileSync, Exn.ret.
  simpl. destruct (Route.writeError env) as [msg|]; [done|]. simpl. split.
  - by rewrite !string_app_assoc.
  - unfold download, Exn.tryCatch, Exn.bind, Route.existsSync, Route.readFile, Exn.ret.
    simpl. rewrite <- !string_app_assoc.
    set (f := ((Route.now env ++ "_") ++ Str.stripExtension originalFilename)%string).
    rewrite lookup_insert_eq.
    rewrite bool_decide_eq_true_2 by eauto.
    rewrite endsWith_app. simpl.
    by rewrite lookup_insert_eq.
Qed.

Lemma download_eq (env : Route.Env) (filename : string) (w : Route.World) :
  download env filename w
  = (inl (match Route.disk w !! Str.join (Route.transcriptionsDir env) filename with
          | Some c => if Str.endsWith ".txt" filename then Content c filename else NotFound
          | None => NotFound
          end), w).
Proof.
  unfold download, Exn.tryCatch, Exn.bind, Route.existsSync, Route.readFile, Exn.ret.
  cbv zeta.
  destruct (Route.disk w !! Str.join (Route.transcriptionsDir env) filename) as [c0|] eqn:Ed.
  - rewrite bool_decide_eq_true_2 by eauto.
    destruct (Str.endsWith ".txt" filename); simpl; [|done]. by rewrite Ed.
  - rewrite bool_decide_eq_false_2 by (by intros [? ?]). done.
Qed.

(** X7. The download route never changes the disk, and a name that
    does not end in [.txt] is answered 404 even when the file exists.
    For a plain file name, one without a separator, it answers with a
    content exactly when the name ends in [.txt] and a file of that name
    is in the transcriptions directory, the content being that of the
    file.  Nothing is said here of a name with a separator, which
    [path.join] may resolve to a file outside the directory. *)
Theorem download_serves_only_existing_txt (env : Route.Env) (filename : string)
    (w : Route.World) :
  snd (download env filename w) = w
  /\ (Str.endsWith ".txt" filename = false -> fst (download env filename w) = inl NotFound)
  /\ (Str.includes "/" filename = false ->
      forall c f,
        fst (download env filename w) = inl (Content c f)
        <-> f = filename /\ Str.endsWith ".txt" filename = true
            /\ Route.disk w !! Str.join (Route.transcriptionsDir env) filename = Some c).
Proof.
  rewrite download_eq. simpl.
  destruct (Route.disk w !! Str.join (Route.transcriptionsDir env) filename) as [c0|];
    destruct (Str.endsWith ".txt" filename).
  - split; [done|]. split; [done|]. intros _ c f. split.
    + intros E. injection E as -> ->. done.
    + intros (-> & _ & E). by injection E as ->.
  - split; [done|]. split; [done|]. intros _ c f. split; [done|]. by intros (_ & ? & _).
  - split; [done|]. split; [done|]. intros _ c f. split; [done|]. by intros (_ & _ & ?).
  - split; [done|]. split; [done|]. intros _ c f. split; [done|]. by intros (_ & ? & _).
Qed.

Lemma download_serves_only_existing_txt_witness :
  let w := {| Route.disk := {[ "transcriptions/talk.txt" := "hello";
                               "transcriptions/talk.docx" := "PK" ]};
              Route.effects := [] |} in
  fst (download (Route.sampleEnv (ApiOk "")) "talk.txt" w) = inl (Content "hello" "talk.txt")
  /\ fst (download (Route.sampleEnv (ApiOk "")) "talk.docx" w) = inl NotFound.
Proof.
  cbv zeta. split.
  - apply (proj2 (proj2 (download_serves_only_existing_txt (Route.sampleEnv (ApiOk ""))
                           "talk.txt" _))); [reflexivity|].
    split; [reflexivity|]. split; reflexivity.
  - apply (proj1 (proj2 (download_serves_only_existing_txt (Route.sampleEnv (ApiOk ""))
                           "talk.docx" _))). reflexivity.
Defined.

Lemma insertByCreated_Permutation (x : Item) (l : list Item) :
  insertByCreated x l ≡ₚ x :: l.
Proof.
  induction l as [|y l IH]; simpl; [done|].
  destruct (created y <=? created x)%Z; [done|].
  rewrite IH. apply Permutation_swap.
Qed.

Lemma insertByCreated_sorted (x : Item) (l : list Item) :
  StronglySorted (fun a b => created b <= created a) l ->
  StronglySorted (fun a b => created b <= created a) (insertByCreated x l).
Proof.
  induction 1 as [|y l Hl IH Hy]; simpl; [repeat constructor|].
  destruct (Z.leb_spec (created y) (created x)) as [Hle|Hgt].
  - constructor; [by constructor|]. constructor; [done|].
    eapply Forall_impl; [exact Hy|]. simpl. lia.
  - constructor; [done|].
    rewrite (insertByCreated_Permutation x l). constructor; [lia|done].
Qed.

Lemma sortByCreated_Permutation (l : list Item) : sortByCreated l ≡ₚ l.
Proof.
  induction l as [|x l IH]; [done|].
  change (sortByCreated (x :: l)) with (insertByCreated x (sortByCreated l)).
  by rewrite insertByCreated_Permutation, IH.
Qed.

Lemma sortByCreated_sorted (l : list Item) :
  StronglySorted (fun a b => created b <= created a) (sortByCreated l).
Proof.
  induction l as [|x l IH]; [constructor|].
  change (sortByCreated (x :: l)) with (insertByCreated x (sortByCreated l)).
  by apply insertByCreated_sorted.
Qed.

(** X8. The listing holds one item for each entry of the directory
    whose name ends in [.txt], and no other; the items come most recent
    first. *)
Theorem listing_is_txt_files_most_recent_first (dir : list Entry) :
  listTranscriptions dir
    ≡ₚ map (toItem dir) (List.filter (fun e => Str.endsWith ".txt" (name e)) dir)
  /\ StronglySorted (fun a b => created b <= created a) (listTranscriptions dir)
  /\ Forall (fun i => Str.endsWith ".txt" (filename i) = true
                      /\ exists e, In e dir /\ filename i = name e /\ created i = mtime e)
            (listTranscriptions dir).
Proof.
  unfold listTranscriptions.
  split; [apply sortByCreated_Permutation|].
  split; [apply sortByCreated_sorted|].
  rewrite sortByCreated_Permutation, Forall_map. apply List.Forall_forall.
  intros e He. apply filter_In in He as [Hin Ht]. simpl. eauto.
Qed.

End StoreFacts.

(** ** The hourly sweep *)

Section SweepFacts.
Import Sweep.
Local Open Scope list_scope.

Lemma lookup_middle (kept rest : Dir) (x : Entry) :
  NoDup (map name (kept ++ x :: rest)) -> lookup (name x) (kept ++ x :: rest) = Some x.
Proof.
  unfold lookup. induction kept as [|k kept IH]; simpl; intros Hnd.
  - by rewrite String.eqb_refl.
  - apply NoDup_cons in Hnd as [Hk Hnd].
    destruct (String.eqb_spec (name k) (name x)) as [E|_]; [|by apply IH].
    exfalso. apply Hk. rewrite E, map_app. simpl.
    apply elem_of_app. right. apply list_elem_of_here.
Qed.

Lemma remove_middle (kept rest : Dir) (x : Entry) :
  NoDup (map name (kept ++ x :: rest)) ->
  List.filter (fun e' => negb (String.eqb (name e') (name x))) (kept ++ x :: rest)
  = kept ++ rest.
Proof.
  intros Hnd.
  assert (Hall : forall l : Dir, name x ∉ map name l ->
            List.filter (fun e' => negb (String.eqb (name e') (name x))) l = l).
  { induction l as [|y l IH]; simpl; [done|]. intros Hn.
    destruct (String.eqb_spec (name y) (name x)) as [E|_]; simpl.
    - exfalso. apply Hn. rewrite E. apply list_elem_of_here.
    - f_equal. apply IH. intros Hin. apply Hn. by apply list_elem_of_further. }
  rewrite map_app in Hnd. simpl in Hnd.
  apply NoDup_app in Hnd as (_ & Hdisj & Hnd). apply NoDup_cons in Hnd as [Hx _].
  rewrite List.filter_app. simpl. rewrite String.eqb_refl. simpl.
  rewrite !Hall; [done|done|]. intros Hin. apply (Hdisj _ Hin). apply list_elem_of_here.
Qed.

Lemma NoDup_drop_middle (kept rest : Dir) (x : Entry) :
  NoDup (map name (kept ++ x :: rest)) -> NoDup (map name (kept ++ rest)).
Proof.
  rewrite !map_app. simpl. intros H.
  apply NoDup_app in H as (H1 & H2 & H3). apply NoDup_cons in H3 as [_ H3].
  apply NoDup_app. split; [done|]. split; [|done]. intros y Hy Hy'. apply (H2 y Hy).
  by apply list_elem_of_further.
Qed.

(** The loop over the names still to visit, when no entry old enough to
    be deleted is a directory. *)
Lemma forEachFile_complete (now : Z) (todo kept : Dir) :
  NoDup (map name (kept ++ todo)) ->
  (forall e, In e todo -> old now e = true -> kind e = File) ->
  forEachFile now (map name todo) (kept ++ todo)
  = (inl tt, kept ++ List.filter (recent now) todo).
Proof.
  revert kept. induction todo as [|x todo IH]; intros kept Hnd Hfile; [done|].
  simpl. unfold Exn.bind at 1, statSync. rewrite (lookup_middle _ _ _ Hnd).
  unfold recent. destruct (old now x) eqn:Ho; simpl.
  - unfold Exn.bind, unlinkSync. rewrite (lookup_middle _ _ _ Hnd).
    rewrite (Hfile x (or_introl eq_refl) Ho), (remove_middle _ _ _ Hnd).
    apply IH; [by eapply NoDup_drop_middle|]. intros e He. apply Hfile. by right.
  - unfold Exn.bind at 1, Exn.ret.
    replace (kept ++ x :: todo) with ((kept ++ [x]) ++ todo) in * by by rewrite <- app_assoc.
    rewrite IH; [by rewrite <- app_assoc|done|]. intros e He. apply Hfile. by right.
Qed.

(** The loop stops at the first old directory. *)
Lemma forEachFile_aborts (now : Z) (pre post kept : Dir) (x : Entry) :
  NoDup (map name (kept ++ pre ++ x :: post)) ->
  (forall e, In e pre -> old now e = true -> kind e = File) ->
  old now x = true -> kind x = Directory ->
  exists msg,
    forEachFile now (map name (pre ++ x :: post)) (kept ++ pre ++ x :: post)
    = (inr msg, kept ++ List.filter (recent now) pre ++ x :: post).
Proof.
  revert kept. induction pre as [|y pre IH]; intros kept Hnd Hfile Hox Hkx.
  - simpl. unfold Exn.bind at 1, statSync. rewrite (lookup_middle _ _ _ Hnd).
    rewrite Hox. unfold Exn.bind, unlinkSync. rewrite (lookup_middle _ _ _ Hnd), Hkx.
    eauto.
  - simpl. simpl in Hnd. unfold Exn.bind at 1, statSync. rewrite (lookup_middle _ _ _ Hnd).
    unfold recent. destruct (old now y) eqn:Ho; simpl.
    + unfold Exn.bind at 1, unlinkSync. rewrite (lookup_middle _ _ _ Hnd).
      rewrite (Hfile y (or_introl eq_refl) Ho), (remove_middle _ _ _ Hnd).
      apply IH; [by eapply NoDup_drop_middle| |done|done].
      intros e He. apply Hfile. by right.
    + unfold Exn.bind at 1, Exn.ret.
      replace (kept ++ y :: pre ++ x :: post) with ((kept ++ [y]) ++ pre ++ x :: post) in *
        by by rewrite <- app_assoc.
      destruct (IH (kept ++ [y])) as [msg Hmsg]; [done| |done|done|].
      { intros e He. apply Hfile. by right. }
      exists msg. rewrite Hmsg. by rewrite <- app_assoc.
Qed.

(** Either no old entry is a directory, or there is a first one. *)
Lemma first_old_directory (now : Z) (d : Dir) :
  (forall e, In e d -> old now e = true -> kind e = File)
  \/ exists pre x post,
       d = pre ++ x :: post
       /\ (forall e, In e pre -> old now e = true -> kind e = File)
       /\ old now x = true /\ kind x = Directory.
Proof.
  induction d as [|y d IH]; [left; intros e []|].
  destruct (old now y) eqn:Ho; [destruct (kind y) eqn:Hk|].
  - destruct IH as [IH|(pre & x & post & -> & Hpre & Hx)].
    + left. intros e [<-|He]; [done|by apply IH].
    + right. exists (y :: pre), x, post. split; [done|]. split; [|done].
      intros e [<-|He]; [done|by apply Hpre].
  - right. exists [], y, d. split; [done|]. split; [intros e []|done].
  - destruct IH as [IH|(pre & x & post & -> & Hpre & Hx)].
    + left. intros e [<-|He]; [congruence|by apply IH].
    + right. exists (y :: pre), x, post. split; [done|]. split; [|done].
      intros e [<-|He]; [congruence|by apply Hpre].
Qed.

(** X9. In a directory whose old entries are all files, the sweep
    leaves exactly the entries modified within the last 24 hours, in
    their order: an entry goes when [now - mtime] exceeds 86,400,000 ms
    and stays at exactly 24 hours. *)
Theorem cleanupDir_keeps_exactly_the_recent (now : Z) (d : Dir) :
  NoDup (map name d) ->
  (forall e, In e d -> old now e = true -> kind e = File) ->
  cleanupDir now d = List.filter (fun e => (now - mtime e <=? 86400000)%Z) d.
Proof.
  intros Hnd Hfile. unfold cleanupDir, Exn.tryCatch.
  pose proof (forEachFile_complete now d [] Hnd Hfile) as Hrun. simpl in Hrun.
  rewrite Hrun. simpl. apply filter_ext. intros e. unfold recent, old, maxAge.
  rewrite Z.gtb_ltb. destruct (Z.ltb_spec (24 * 60 * 60 * 1000) (now - mtime e));
    destruct (Z.leb_spec (now - mtime e) 86400000); simpl; lia.
Qed.

Lemma cleanupDir_keeps_exactly_the_recent_witness :
  cleanupDir 100000000 sampleDir
  = List.filter (fun e => (100000000 - mtime e <=? 86400000)%Z) sampleDir.
Proof.
  apply cleanupDir_keeps_exactly_the_recent.
  - unfold sampleDir. simpl. by apply (bool_decide_unpack _).
  - intros e He _. unfold sampleDir in He. simpl in He.
    destruct He as [<-|[<-|[<-|[]]]]; reflexivity.
Defined.

(** X10. An old directory stops the sweep of its parent: the old
    files listed before it are deleted, the directory itself and every
    entry listed after it stay, however old. *)
Theorem old_directory_stops_the_sweep (now : Z) (pre post : Dir) (x : Entry) :
  NoDup (map name (pre ++ x :: post)) ->
  (forall e, In e pre -> old now e = true -> kind e = File) ->
  old now x = true -> kind x = Directory ->
  cleanupDir now (pre ++ x :: post) = (List.filter (recent now) pre ++ x :: post)%list.
Proof.
  intros Hnd Hfile Hox Hkx. unfold cleanupDir, Exn.tryCatch.
  destruct (forEachFile_aborts now pre post [] x Hnd Hfile Hox Hkx) as [msg Hmsg].
  simpl in Hmsg. by rewrite Hmsg.
Qed.

Lemma old_directory_stops_the_sweep_witness :
  cleanupDir 100000000
    ([ {| name := "a.mp3"; mtime := 0; kind := File |} ]
       ++ {| name := "backup"; mtime := 0; kind := Directory |}
       :: [ {| name := "b.mp3"; mtime := 0; kind := File |} ])
  = [ {| name := "backup"; mtime := 0; kind := Directory |};
      {| name := "b.mp3"; mtime := 0; kind := File |} ].
Proof.
  apply (old_directory_stops_the_sweep 100000000
           [ {| name := "a.mp3"; mtime := 0; kind := File |} ]
           [ {| name := "b.mp3"; mtime := 0; kind := File |} ]
           {| name := "backup"; mtime := 0; kind := Directory |}).
  - simpl. by apply (bool_decide_unpack _).
  - intros e [<-|[]] _. reflexivity.
  - reflexivity.
  - reflexivity.
Defined.

(** X11. Whatever the directories hold, the sweep deletes no entry
    modified within the last 24 hours, creates none, and leaves the
    saved transcriptions alone. *)
Theorem cleanupOldFiles_spares_recent_files (now : Z) (disk : Disk) :
  NoDup (map name (uploadDir disk)) ->
  NoDup (map name (chunksDir disk)) ->
  NoDup (map name (tempDir disk)) ->
  let after := cleanupOldFiles now disk in
  transcriptionsDir after = transcriptionsDir disk
  /\ Forall (fun '(before, after) =>
               sublist after before
               /\ forall e, In e before -> (now - mtime e <= 86400000)%Z -> In e after)
       [ (uploadDir disk, uploadDir after);
         (chunksDir disk, chunksDir after);
         (tempDir disk, tempDir after) ].
Proof.
  assert (Hdir : forall d, NoDup (map name d) ->
            sublist (cleanupDir now d) d
            /\ forall e, In e d -> (now - mtime e <= 86400000)%Z -> In e (cleanupDir now d)).
  { intros d Hnd.
    assert (Hrec : forall e, (now - mtime e <= 86400000)%Z -> recent now e = true).
    { intros e He. unfold recent, old, maxAge. rewrite Z.gtb_ltb.
      destruct (Z.ltb_spec (24 * 60 * 60 * 1000) (now - mtime e)); [lia|done]. }
    assert (Hsub : forall l : Dir, sublist (List.filter (recent now) l) l).
    { induction l as [|y l IH]; simpl; [constructor|].
      destruct (recent now y); by constructor. }
    destruct (first_old_directory now d) as [Hfile|(pre & x & post & -> & Hpre & Hox & Hkx)].
    - unfold cleanupDir, Exn.tryCatch.
      pose proof (forEachFile_complete now d [] Hnd Hfile) as Hrun. simpl in Hrun.
      rewrite Hrun. simpl. split; [apply Hsub|].
      intros e He Hage. apply filter_In. split; [done|by apply Hrec].
    - unfold cleanupDir, Exn.tryCatch.
      destruct (forEachFile_aborts now pre post [] x Hnd Hpre Hox Hkx) as [msg Hmsg].
      simpl in Hmsg. rewrite Hmsg. simpl. split.
      + apply sublist_app; [apply Hsub|done].
      + intros e He Hage. apply in_app_iff. apply in_app_iff in He as [He|He]; [left|by right].
        apply filter_In. split; [done|by apply Hrec]. }
  intros Hu Hc Ht. simpl. split; [done|].
  repeat constructor; by apply Hdir.
Qed.

Lemma cleanupOldFiles_spares_recent_files_witness :
  let disk := {| uploadDir := sampleDir; chunksDir := []; tempDir := [];
                 transcriptionsDir := sampleDir |} in
  let after := cleanupOldFiles 100000000 disk in
  transcriptionsDir after = transcriptionsDir disk
  /\ Forall (fun '(before, after) =>
               sublist after before
               /\ forall e, In e before -> (100000000 - mtime e <= 86400000)%Z -> In e after)
       [ (uploadDir disk, uploadDir after);
         (chunksDir disk, chunksDir after);
         (tempDir disk, tempDir after) ].
Proof.
  apply (cleanupOldFiles_spares_recent_files 100000000
           {| uploadDir := sampleDir; chunksDir := []; tempDir := [];
              transcriptionsDir := sampleDir |}).
  - unfold sampleDir. simpl. by apply (bool_decide_unpack _).
  - simpl. apply NoDup_nil_2.
  - simpl. apply NoDup_nil_2.
Defined.

End SweepFacts.

(** ** The chunk pool under arbitrary events *)

Section PoolRobust.
Import Pool.
Local Open Scope nat_scope.

Variable job : Job.

Lemma run_app (evs evs' : list Event) (st : State) :
  run job (evs ++ evs') st
  = match run job evs st with
    | Continues st1 => run job evs' st1
    | other => other
    end.
Proof.
  revert st. induction evs as [|ev evs IH]; intros st; simpl; [done|].
  destruct (step job st ev); [apply IH|done|done].
Qed.

Lemma checkCompletion_promise_stable (s : Settled) (st : State) :
  promise st = Some s -> promise (checkCompletion job st) = Some s.
Proof.
  intros Hp. unfold checkCompletion.
  destruct (isSplittingComplete st && (processedChunks st =? totalChunks st)); [|done].
  simpl. by rewrite Hp.
Qed.

Lemma checkForMoreChunks_promise_stable (disk : Disk) (s : Settled) (st : State) :
  promise st = Some s -> promise (checkForMoreChunks job disk st) = Some s.
Proof.
  apply (checkForMoreChunks_preserves job disk (fun x => promise x = Some s)).
  intros more st0 c rest Hmore _ _ Hp. unfold processChunk.
  destruct (validate disk c) as [msg|]; [|done].
  unfold finallyBlock. apply checkCompletion_promise_stable, Hmore. done.
Qed.

(** A settled promise keeps its value. *)
Lemma step_promise_stable (s : Settled) (st st' : State) (ev : Event) :
  promise st = Some s -> step job st ev = Continues st' -> promise st' = Some s.
Proof.
  intros Hp. destruct ev as [listing disk| |message|k answers disk]; simpl.
  - destruct (watching st); [|done]. unfold watcherTick.
    destruct (isSplittingComplete st); [by intros [= <-]|].
    destruct (currentChunks job listing) as [current|]; [|done].
    destruct (totalChunks st <? List.length current); [|by intros [= <-]].
    destruct (mapM _ _) as [fresh|]; [|done]. intros [= <-].
    by apply checkForMoreChunks_promise_stable.
  - destruct (splitting st); [|done]. intros [= <-].
    by apply checkCompletion_promise_stable.
  - destruct (splitting st); [|done]. intros [= <-]. simpl. by rewrite Hp.
  - destruct (awaiting st !! k) as [chunk|]; [|done]. intros [= <-].
    unfold processChunkResumed, finallyBlock.
    apply checkCompletion_promise_stable, checkForMoreChunks_promise_stable.
    by destruct (transcribeWithRetry (answers chunk)).
Qed.

Lemma run_promise_stable (s : Settled) (evs : list Event) :
  forall st st', promise st = Some s -> run job evs st = Continues st' -> promise st' = Some s.
Proof.
  induction evs as [|ev evs IH]; intros st st' Hp; simpl.
  - by intros [= <-].
  - destruct (step job st ev) as [st1| |] eqn:Es; [|done|done].
    apply IH. by eapply step_promise_stable.
Qed.

(** The flag [isSplittingComplete] is set by the end of the split
    only. *)
Lemma step_split_flag (st st' : State) (ev : Event) :
  splitting st = false -> isSplittingComplete st = false ->
  step job st ev = Continues st' ->
  splitting st' = false /\ isSplittingComplete st' = false.
Proof.
  intros Hs Hc. destruct ev as [listing disk| |message|k answers disk]; simpl.
  - destruct (watching st); [|done]. unfold watcherTick. rewrite Hc.
    destruct (currentChunks job listing) as [current|]; [|done].
    destruct (totalChunks st <? List.length current); [|by intros [= <-]].
    destruct (mapM _ _) as [fresh|]; [|done]. intros [= <-].
    apply (checkForMoreChunks_preserves job disk
             (fun x => splitting x = false /\ isSplittingComplete x = false)); [|done].
    intros more st0 c rest Hmore _ _ Hp. unfold processChunk.
    destruct (validate disk c) as [msg|]; [|done]. unfold finallyBlock.
    match goal with |- context [checkCompletion job ?x] =>
      destruct (checkCompletion_fields job x) as (_ & _ & _ & _ & -> & _ & _ & _ & -> & _)
    end.
    by apply Hmore.
  - by rewrite Hs.
  - by rewrite Hs.
  - destruct (awaiting st !! k) as [chunk|]; [|done]. intros [= <-].
    unfold processChunkResumed, finallyBlock.
    match goal with |- context [checkCompletion job ?x] =>
      destruct (checkCompletion_fields job x) as (_ & _ & _ & _ & -> & _ & _ & _ & -> & _)
    end.
    apply (checkForMoreChunks_preserves job disk
             (fun x => splitting x = false /\ isSplittingComplete x = false)).
    + intros more st0 c rest Hmore _ _ Hp. unfold processChunk.
      destruct (validate disk c) as [msg|]; [|done]. unfold finallyBlock.
      match goal with |- context [checkCompletion job ?x] =>
        destruct (checkCompletion_fields job x) as (_ & _ & _ & _ & -> & _ & _ & _ & -> & _)
      end.
      by apply Hmore.
    + by destruct (transcribeWithRetry (answers chunk)).
Qed.

Lemma run_split_flag (evs : list Event) :
  forall st st',
    splitting st = false -> isSplittingComplete st = false ->
    run job evs st = Continues st' ->
    splitting st' = false /\ isSplittingComplete st' = false.
Proof.
  induction evs as [|ev evs IH]; intros st st' Hs Hc; simpl.
  - by intros [= <-].
  - destruct (step job st ev) as [st1| |] eqn:Es; [|done|done].
    destruct (step_split_flag _ _ _ Hs Hc Es). by apply IH.
Qed.

End PoolRobust.

(** X12. Whatever the service answers and whatever is on disk, in every
    state a job reaches the promise is fulfilled exactly when the split
    has ended and no call is suspended at the service; the value is the
    resolution of that state, every discovered chunk counts as
    processed, and from then on no callback of the job runs. *)
Theorem job_fulfils_exactly_when_drained (job : Pool.Job) (evs : list Pool.Event)
    (st : Pool.State) :
  Pool.run job evs Pool.initial = Pool.Continues st ->
  forall r,
    (Pool.promise st = Some (Pool.Fulfilled r)
     <-> Pool.isSplittingComplete st = true /\ Pool.awaiting st = []
         /\ r = Pool.resolution job st)
    /\ (Pool.promise st = Some (Pool.Fulfilled r) ->
        Pool.processedChunks st = Pool.totalChunks st
        /\ Pool.chunkQueue st = []
        /\ forall ev, Pool.step job st ev = Pool.NotEnabled).
Proof.
  intros Hrun r.
  destruct (run_sound job evs _ _ (initial_sound job) Hrun) as (Hc & Hs & Ha & Hq).
  assert (Hfwd : Pool.promise st = Some (Pool.Fulfilled r) ->
                 Pool.isSplittingComplete st = true /\ Pool.awaiting st = []
                 /\ r = Pool.resolution job st).
  { intros Hp. destruct Hs as (K & _). destruct (K r Hp) as (-> & Ec & Ep).
    destruct Hc as (H1 & _ & H3). split; [done|]. split; [|done].
    destruct (Pool.awaiting st); [done|]. simpl in H1. lia. }
  split; [split; [exact Hfwd|]|].
  - intros (Ec & Ew & ->). by destruct (drained_fulfilled job st Hc Hs Ha Hq Ec Ew).
  - intros Hp. destruct (Hfwd Hp) as (Ec & Ew & _).
    destruct (drained_fulfilled job st Hc Hs Ha Hq Ec Ew) as (_ & Ep & Eq).
    split; [done|]. split; [done|].
    destruct Hs as (_ & _ & N & _). destruct (N Ec) as [Esp Ewa].
    intros [listing disk| |message|k answers disk]; simpl; rewrite ?Ewa, ?Esp, ?Ew; done.
Qed.

Lemma job_fulfils_exactly_when_drained_witness :
  Pool.promise Pool.flakyFinal
  = Some (Pool.Fulfilled (Pool.resolution Pool.sampleJob Pool.flakyFinal))
  /\ Pool.processedChunks Pool.flakyFinal = 3%nat.
Proof.
  destruct (job_fulfils_exactly_when_drained Pool.sampleJob Pool.flakyRun Pool.flakyFinal
              ltac:(by vm_compute) (Pool.resolution Pool.sampleJob Pool.flakyFinal))
    as [[_ Hback] _].
  split; [|by vm_compute].
  apply Hback. split; [by vm_compute|]. split; [by vm_compute|reflexivity].
Defined.

(** X13. When the split fails, the promise is rejected with the error
    of the split, and nothing that happens afterwards changes that:
    the watcher is stopped, the calls in flight still return and are
    counted, but the promise is never fulfilled. *)
Theorem split_error_rejects_for_good (job : Pool.Job) (evs evs' : list Pool.Event)
    (message : string) (st : Pool.State) :
  Pool.run job (evs ++ Pool.SplitError message :: evs') Pool.initial = Pool.Continues st ->
  Pool.promise st = Some (Pool.Rejected message)
  /\ Pool.isSplittingComplete st = false
  /\ Pool.watching st = false.
Proof.
  rewrite run_app. destruct (Pool.run job evs Pool.initial) as [st0| |] eqn:E0; [|done|done].
  destruct (run_sound job evs _ _ (initial_sound job) E0) as (Hc & Hs & Ha & Hq).
  cbn [Pool.run Pool.step]. destruct (Pool.splitting st0) eqn:Esp; [|done].
  intros Hrun.
  pose proof Hs as (K & M & N & W).
  assert (Ec : Pool.isSplittingComplete st0 = false).
  { destruct (Pool.isSplittingComplete st0); [|done]. destruct N; congruence. }
  assert (Hp : Pool.promise st0 = None).
  { destruct (Pool.promise st0) as [[r|e]|] eqn:Ep; [| |done].
    - destruct (K r eq_refl) as (_ & ? & _). congruence.
    - destruct (M e eq_refl). congruence. }
  set (st1 := Pool.settle (Pool.Rejected message) (Pool.splitOver false st0)) in Hrun.
  assert (Hp1 : Pool.promise st1 = Some (Pool.Rejected message)) by (simpl; by rewrite Hp).
  split; [by eapply run_promise_stable|].
  destruct (run_split_flag job evs' st1 st) as [Hs' Hc']; [done|simpl; by rewrite Ec|done|].
  split; [done|].
  assert (Hsound : Pool.counted st1 /\ Pool.settledRight job st1 /\ Pool.answered st1
                   /\ Pool.saturated st1).
  { apply (step_sound job st0 st1 (Pool.SplitError message)); try done.
    simpl. by rewrite Esp. }
  destruct (run_sound job evs' _ _ Hsound Hrun) as (_ & (_ & _ & _ & W') & _).
  by apply W'.
Qed.

Lemma split_error_rejects_for_good_witness :
  Pool.promise Jobs.brokenFinal = Some (Pool.Rejected "ffmpeg exited with code 1")
  /\ Pool.isSplittingComplete Jobs.brokenFinal = false
  /\ Pool.watching Jobs.brokenFinal = false.
Proof.
  apply (split_error_rejects_for_good Pool.sampleJob
           [Pool.WatcherTick (Pool.sampleListing 2) Pool.sampleDisk]
           [Pool.ServiceSettles 0 Pool.sampleService Pool.sampleDisk;
            Pool.ServiceSettles 0 Pool.sampleService Pool.sampleDisk]).
  by vm_compute.
Defined.

(** X14. Whatever happens, every progress event the pool writes
    carries a percentage between 20 and 90, and the chunks counted as
    processed never exceed the chunks discovered. *)
Theorem pool_progress_between_20_and_90 (job : Pool.Job) (evs : list Pool.Event)
    (st : Pool.State) :
  Pool.run job evs Pool.initial = Pool.Continues st ->
  Forall (fun e => (20 <= Pool.progress e <= 90)%Z) (Pool.written st)
  /\ (Pool.processedChunks st <= Pool.totalChunks st)%nat.
Proof.
  intros Hrun. split.
  - apply (run_ranged job evs Pool.initial st initial_counted); [constructor|exact Hrun].
  - destruct (run_counted job evs _ _ initial_counted Hrun) as (_ & _ & H3). lia.
Qed.

Lemma pool_progress_between_20_and_90_witness :
  Forall (fun e => (20 <= Pool.progress e <= 90)%Z) (Pool.written Pool.flakyFinal)
  /\ (Pool.processedChunks Pool.flakyFinal <= Pool.totalChunks Pool.flakyFinal)%nat.
Proof.
  apply (pool_progress_between_20_and_90 Pool.sampleJob Pool.flakyRun). by vm_compute.
Defined.

(** ** Dispatch and retries *)

Section PoolDispatch.
Import Pool Jobs.
Local Open Scope nat_scope.

Variable job : Job.

Lemma checkForMoreChunks_dispatchedFrom (disk : Disk) (st0 : State) :
  dispatchedFrom disk st0 (checkForMoreChunks job disk st0).
Proof.
  apply (checkForMoreChunks_preserves job disk (dispatchedFrom disk st0)).
  - intros more st c rest Hmore Eq _ [Ha Hq]. unfold processChunk.
    destruct (validate disk c) as [msg|] eqn:Ev.
    + unfold finallyBlock. unfold dispatchedFrom.
      match goal with |- context [checkCompletion job ?x] =>
        destruct (checkCompletion_fields job x) as (_ & _ & _ & _ & _ & -> & -> & _)
      end.
      apply Hmore. split; simpl.
      * exact Ha.
      * intros c' Hc'. apply Hq. rewrite Eq. by right.
    + split; simpl.
      * intros c' Hc'. apply in_app_iff in Hc' as [Hc'|[<-|[]]]; [by apply Ha|].
        right. split; [|done]. apply Hq. rewrite Eq. by left.
      * intros c' Hc'. apply Hq. rewrite Eq. by right.
  - split; [by left|done].
Qed.

End PoolDispatch.

(** X15. A queued chunk whose file is missing, empty or larger than
    25 MB is never sent to the service: after [checkForMoreChunks] the
    suspended calls are those there were before and queued chunks whose
    file passed the checks, and every chunk is still queued, suspended
    or counted as processed. *)
Theorem invalid_chunk_is_never_sent (job : Pool.Job) (disk : Pool.Disk) (st : Pool.State) :
  Pool.counted st ->
  let st' := Pool.checkForMoreChunks job disk st in
  (forall c, In c (Pool.awaiting st') ->
     In c (Pool.awaiting st)
     \/ (In c (Pool.chunkQueue st)
         /\ exists bytes, disk (Pool.path c) = Some bytes
                          /\ bytes <> 0%Z /\ (bytes <= 25 * 1024 * 1024)%Z))
  /\ (Pool.processedChunks st' + List.length (Pool.awaiting st')
      + List.length (Pool.chunkQueue st')
      = Pool.processedChunks st + List.length (Pool.awaiting st)
        + List.length (Pool.chunkQueue st))%nat
  /\ Pool.totalChunks st' = Pool.totalChunks st.
Proof.
  intros Hc. cbv zeta. split; [|split].
  - intros c Hin.
    destruct (checkForMoreChunks_dispatchedFrom job disk st) as [Ha _].
    destruct (Ha c Hin) as [Hold|[Hq Hv]]; [by left|right]. split; [done|].
    unfold Pool.validate in Hv. destruct (disk (Pool.path c)) as [bytes|]; [|done].
    exists bytes. split; [done|].
    destruct (Z.eqb_spec bytes 0); [done|].
    rewrite Z.gtb_ltb in Hv.
    destruct (Z.ltb_spec (25 * 1024 * 1024) bytes); [done|]. by split.
  - pose proof (checkForMoreChunks_counted job disk st Hc) as (H1 & _ & H3).
    pose proof (checkForMoreChunks_totalChunks job disk st) as Et.
    destruct Hc as (G1 & _ & G3). lia.
  - apply checkForMoreChunks_totalChunks.
Qed.

Lemma invalid_chunk_is_never_sent_witness :
  let st' := Pool.checkForMoreChunks Pool.sampleJob Jobs.faultyDisk Jobs.queuedState in
  map Pool.index (Pool.awaiting st') = [0; 4]%nat
  /\ (forall c, In c (Pool.awaiting st') ->
        In c (Pool.awaiting Jobs.queuedState)
        \/ (In c (Pool.chunkQueue Jobs.queuedState)
            /\ exists bytes, Jobs.faultyDisk (Pool.path c) = Some bytes
                             /\ bytes <> 0%Z /\ (bytes <= 25 * 1024 * 1024)%Z)).
Proof.
  split; [by vm_compute|].
  apply (invalid_chunk_is_never_sent Pool.sampleJob Jobs.faultyDisk Jobs.queuedState).
  unfold Pool.counted, MAX_CONCURRENT_CHUNKS. simpl. lia.
Defined.

(** ** Names of chunk files *)

Section NameFacts.
Import Pool Names.
Local Open Scope nat_scope.

Lemma prefix_nil (s : string) : String.prefix "" s = true.
Proof. by destruct s. Qed.

Lemma substring_all (s : string) : String.substring 0 (String.length s) s = s.
Proof. induction s as [|c s IH]; [done|]. simpl. by rewrite IH. Qed.

Lemma matchChunk_cons (a : ascii) (file : string) :
  matchChunk (String a file)
  = let here := if String.prefix "chunk-" (String a file)
                then Str.digitRun (String.substring 6 (String.length (String a file) - 6)
                                     (String a file))
                else EmptyString in
    if negb (String.eqb here "") then Some here else matchChunk file.
Proof. reflexivity. Qed.

Lemma matchChunk_at_chunk (rest : string) :
  Str.digitRun rest <> ""%string ->
  matchChunk ("chunk-" ++ rest) = Some (Str.digitRun rest).
Proof.
  intros Hne.
  change ("chunk-" ++ rest)%string
    with (String "c" (String "h" (String "u" (String "n" (String "k" (String "-" rest)))))).
  rewrite matchChunk_cons. cbv zeta.
  assert (Hp : String.prefix "chunk-"
                 (String "c" (String "h" (String "u" (String "n" (String "k"
                    (String "-" rest)))))) = true).
  { simpl. apply prefix_nil. }
  rewrite Hp.
  assert (Hs : String.substring 6
                 (String.length (String "c" (String "h" (String "u" (String "n"
                    (String "k" (String "-" rest)))))) - 6)
                 (String "c" (String "h" (String "u" (String "n" (String "k"
                    (String "-" rest)))))) = rest).
  { simpl. rewrite Nat.sub_0_r. apply substring_all. }
  rewrite Hs.
  destruct (String.eqb_spec (Str.digitRun rest) "") as [E|_]; [by destruct Hne|done].
Qed.

Lemma isUuidChar_not_h (b : ascii) : isUuidChar b = true -> b <> "h"%char.
Proof. intros H ->. by vm_compute in H. Qed.

(** The session id holds no place where [chunk-] starts. *)
Lemma matchChunk_skip_session (sid rest : string) :
  uuidLike sid = true ->
  matchChunk (sid ++ "-chunk-" ++ rest) = matchChunk ("chunk-" ++ rest).
Proof.
  induction sid as [|a sid IH]; intros Hu.
  - rewrite string_app_nil.
    change ("-chunk-" ++ rest)%string with (String "-" ("chunk-" ++ rest)).
    by rewrite matchChunk_cons.
  - simpl in Hu. apply andb_true_iff in Hu as [Ha Hu].
    rewrite string_app_cons, matchChunk_cons. cbv zeta.
    assert (Hp : String.prefix "chunk-" (String a (sid ++ "-chunk-" ++ rest)) = false).
    { cbn [String.prefix]. destruct (ascii_dec "c" a) as [_|]; [|done].
      destruct sid as [|b sid].
      - rewrite string_app_nil.
        change ("-chunk-" ++ rest)%string with (String "-" ("chunk-" ++ rest)).
        cbn [String.prefix]. by destruct (ascii_dec "h" "-").
      - rewrite string_app_cons. cbn [String.prefix].
        destruct (ascii_dec "h" b) as [<-|]; [|done].
        exfalso. cbn [uuidLike] in Hu. apply andb_true_iff in Hu as [Hb _].
        by apply isUuidChar_not_h in Hb. }
    rewrite Hp. simpl. by apply IH.
Qed.

Lemma digitRun_uint (d : Decimal.uint) (tail : string) :
  Str.digitRun tail = ""%string ->
  Str.digitRun (NilEmpty.string_of_uint d ++ tail) = NilEmpty.string_of_uint d.
Proof.
  intros Ht. induction d; cbn [NilEmpty.string_of_uint];
    rewrite ?string_app_nil, ?string_app_cons; [done|..];
    cbn [Str.digitRun]; (replace (Str.isDigit _) with true by by vm_compute);
    by rewrite IHd.
Qed.

(** Padding adds leading zeros, which do not change the number. *)
Lemma padStart3_uint (d : Decimal.uint) :
  exists d', Str.padStart3 (NilEmpty.string_of_uint d) = NilEmpty.string_of_uint d'
             /\ Nat.of_uint d' = Nat.of_uint d
             /\ NilEmpty.string_of_uint d' <> ""%string.
Proof.
  unfold Str.padStart3.
  destruct (String.length (NilEmpty.string_of_uint d)) as [|[|[|n]]] eqn:El.
  - by exists (Decimal.D0 (Decimal.D0 (Decimal.D0 d))).
  - by exists (Decimal.D0 (Decimal.D0 d)).
  - by exists (Decimal.D0 d).
  - exists d. split; [done|]. split; [done|]. intros E. by rewrite E in El.
Qed.

Lemma chunkNum_chunkFileName (job : Job) (inputExt : string) (idx : nat) :
  uuidLike (sessionId job) = true ->
  outputExt job = outputExtOf inputExt ->
  chunkNum (chunkFileName job idx) = Some idx.
Proof.
  intros Hu He. unfold chunkNum, chunkFileName.
  rewrite matchChunk_skip_session by done.
  destruct (padStart3_uint (Nat.to_uint idx)) as (d' & Ed & En & Hne).
  unfold Str.ofNat. rewrite Ed.
  assert (Hrun : Str.digitRun (NilEmpty.string_of_uint d' ++ outputExt job)
                 = NilEmpty.string_of_uint d').
  { apply digitRun_uint. rewrite He. unfold outputExtOf. by destruct (String.eqb _ _). }
  rewrite matchChunk_at_chunk; rewrite Hrun; [|done].
  simpl. unfold Str.parseDigits. rewrite NilEmpty.usu, En.
  by rewrite Stdlib.Numbers.DecimalNat.Unsigned.of_to.
Qed.

Lemma isChunkFile_chunkFileName (job : Job) (idx : nat) :
  isChunkFile job (chunkFileName job idx) = true.
Proof.
  unfold isChunkFile, chunkFileName, Str.startsWith. apply andb_true_iff. split.
  - rewrite <- (string_app_assoc (sessionId job) "-chunk-"). apply prefix_app.
  - rewrite <- !string_app_assoc. apply endsWith_app.
Qed.

End NameFacts.

(** X16. The watcher reads back the index from the name ffmpeg writes:
    for a session id made of hexadecimal digits and dashes, the file
    [<session>-chunk-<idx padded to three digits><ext>] is taken for a
    chunk of the session and queued with the index [idx], for every
    [idx], also beyond 999. *)
Theorem chunk_name_round_trip (job : Pool.Job) (inputExt : string) (idx : nat) :
  Names.uuidLike (Pool.sessionId job) = true ->
  Pool.outputExt job = Names.outputExtOf inputExt ->
  Pool.isChunkFile job (Pool.chunkFileName job idx) = true
  /\ Pool.newChunk job (Pool.chunkFileName job idx) = Some (Names.chunkOf job idx).
Proof.
  intros Hu He. split; [apply isChunkFile_chunkFileName|].
  unfold Pool.newChunk. by rewrite (chunkNum_chunkFileName job inputExt idx Hu He).
Qed.

Lemma chunk_name_round_trip_witness :
  Pool.isChunkFile Pool.sampleJob (Pool.chunkFileName Pool.sampleJob 1234) = true
  /\ Pool.newChunk Pool.sampleJob (Pool.chunkFileName Pool.sampleJob 1234)
     = Some (Names.chunkOf Pool.sampleJob 1234).
Proof.
  apply (chunk_name_round_trip Pool.sampleJob ".mp3" 1234); reflexivity.
Defined.

Section WatcherFacts.
Import Pool Names.
Local Open Scope nat_scope.
Local Open Scope list_scope.

Variable job : Job.
Variable inputExt : string.
Hypothesis session_is_uuid : uuidLike (sessionId job) = true.
Hypothesis ext_is_chosen : outputExt job = outputExtOf inputExt.






End WatcherFacts.



(** ** The chunk files a job hands to the cleanup *)

Section PoolIndexed.
Import Pool Jobs.
Local Open Scope nat_scope.

Variable job : Job.

Lemma checkCompletion_indexed (st : State) : indexed st -> indexed (checkCompletion job st).
Proof.
  unfold indexed.
  destruct (checkCompletion_fields job st) as (-> & -> & _ & _ & _ & -> & -> & _). done.
Qed.

Lemma processChunk_indexed (disk : Disk) (more : State -> State) st c rest :
  (forall s, counted s /\ indexed s -> counted (more s) /\ indexed (more s)) ->
  chunkQueue st = c :: rest ->
  chunksBeingProcessed st < MAX_CONCURRENT_CHUNKS ->
  counted st /\ indexed st ->
  counted (processChunk more job disk c (setQueue rest st))
  /\ indexed (processChunk more job disk c (setQueue rest st)).
Proof.
  intros Hmore Eq Hlt [Hc (A & B & C & D)].
  pose proof Hc as (H1 & H2 & H3).
  rewrite Eq in H3, A, B, C, D. simpl in H3, A, B, C, D.
  injection A as Ec Er.
  unfold processChunk. destruct (validate disk c) as [msg|].
  - unfold finallyBlock.
    match goal with |- counted (checkCompletion job (more ?x)) /\ _ =>
      destruct (Hmore x) as (Hc' & Hi') end.
    { split; [unfold counted; simpl; lia|].
      unfold indexed. simpl.
      replace (totalChunks st - List.length rest) with (S (index c)) by lia.
      split; [by rewrite Er, Ec|]. split; [|split].
      - intros i Hi. destruct (decide (i = index c)) as [->|Hne].
        + right. rewrite lookup_insert_eq. eauto.
        + rewrite lookup_insert_ne by done. apply B. lia.
      - intros c' Hc''. specialize (C c' Hc''). lia.
      - intros i. destruct (decide (i = index c)) as [->|Hne]; [lia|].
        rewrite lookup_insert_ne by done. intros Hs. specialize (D i Hs). lia. }
    split; [by apply checkCompletion_counted|by apply checkCompletion_indexed].
  - split; [unfold counted; simpl; rewrite length_app; simpl; lia|].
    unfold indexed. simpl.
    replace (totalChunks st - List.length rest) with (S (index c)) by lia.
    split; [by rewrite Er, Ec|]. split; [|split].
    + intros i Hi. rewrite map_app, in_app_iff. simpl.
      destruct (decide (i = index c)) as [->|Hne]; [left; right; by left|].
      destruct (B i) as [Hin|Hs]; [lia|by left; left|by right].
    + intros c' Hc'. apply in_app_iff in Hc' as [Hc'|[<-|[]]]; [|lia].
      specialize (C c' Hc'). lia.
    + intros i Hs. specialize (D i Hs). lia.
Qed.

Lemma checkForMoreChunks_indexed (disk : Disk) (st : State) :
  counted st -> indexed st -> indexed (checkForMoreChunks job disk st).
Proof.
  intros Hc Hi.
  apply (checkForMoreChunks_preserves job disk (fun s => counted s /\ indexed s)); [|done].
  intros. by eapply processChunk_indexed.
Qed.

Lemma step_indexed (st st' : State) (ev : Event) :
  counted st -> indexed st -> denseEvent job ev ->
  step job st ev = Continues st' -> indexed st'.
Proof.
  intros Hc Hi Hev Hstep. pose proof Hc as (H1 & H2 & H3).
  pose proof Hi as (A & B & C & D).
  destruct ev as [listing disk| |message|k answers disk]; simpl in Hstep, Hev.
  - destruct Hev as (current & Ecur & Hdense).
    destruct (watching st); [|done]. unfold watcherTick in Hstep.
    destruct (isSplittingComplete st); [by injection Hstep as <-|].
    rewrite Ecur in Hstep.
    destruct (Nat.ltb_spec (totalChunks st) (List.length current)) as [Hlt|_].
    2:{ by injection Hstep as <-. }
    destruct (mapM _ _) as [fresh|] eqn:Em; [|done]. injection Hstep as <-.
    pose proof (mapM_newChunk_length job _ _ Em) as El. rewrite length_drop in El.
    pose proof (dense_fresh job current fresh _ Hdense Em) as Ef.
    apply checkForMoreChunks_indexed.
    + unfold counted. simpl. rewrite length_app. lia.
    + unfold indexed. simpl. rewrite length_app, El.
      replace (List.length current - (List.length (chunkQueue st)
                 + (List.length current - totalChunks st)))
        with (totalChunks st - List.length (chunkQueue st)) by lia.
      split; [|done].
      rewrite map_app, A, Ef, seq_app. do 2 f_equal. lia.
  - destruct (splitting st); [|done]. injection Hstep as <-.
    by apply checkCompletion_indexed.
  - destruct (splitting st); [|done]. by injection Hstep as <-.
  - destruct (awaiting st !! k) as [chunk|] eqn:Ek; [|done]. injection Hstep as <-.
    pose proof (lookup_lt_Some _ _ _ Ek) as Hk.
    assert (Hdl : List.length (delete k (awaiting st)) = List.length (awaiting st) - 1).
    { rewrite length_delete; [lia|]. eauto. }
    assert (Hin : In chunk (awaiting st)).
    { apply list_elem_of_In. by eapply list_elem_of_lookup_2. }
    unfold processChunkResumed, finallyBlock.
    apply checkCompletion_indexed, checkForMoreChunks_indexed.
    + unfold counted, storeResult, catchBlock.
      destruct (transcribeWithRetry (answers chunk)); simpl; rewrite Hdl; lia.
    + assert (Hgen : forall v,
                indexed
                  (setBeingProcessed (Nat.pred (chunksBeingProcessed st))
                     (setProcessed (S (processedChunks st))
                        (setResult (index chunk) v
                           (setAwaiting (delete k (awaiting st)) st))))).
      { intros v. unfold indexed. simpl. split; [done|]. split; [|split].
        - intros i Hi'.
          destruct (decide (i = index chunk)) as [->|Hne].
          + right. rewrite lookup_insert_eq. eauto.
          + destruct (B i Hi') as [Hin'|Hs].
            * left. apply in_map_iff in Hin' as (c' & Ec' & Hin').
              apply in_map_iff. exists c'. split; [done|].
              eapply In_delete; [exact Ek|done|congruence].
            * right. by rewrite lookup_insert_ne.
        - intros c' Hc'. apply C. rewrite delete_take_drop in Hc'.
          rewrite <- (take_drop_middle _ k chunk Ek).
          rewrite in_app_iff in *. simpl. tauto.
        - intros i. destruct (decide (i = index chunk)) as [->|Hne]; [intros _; by apply C|].
          rewrite lookup_insert_ne by done. apply D. }
      destruct (transcribeWithRetry (answers chunk)) as [text|msg].
      * unfold storeResult. simpl. apply (Hgen text).
      * unfold catchBlock. simpl. apply (Hgen (placeholder (index chunk) msg)).
Qed.

Lemma initial_indexed : indexed initial.
Proof.
  unfold indexed. simpl. split; [done|]. split; [intros i Hi; lia|].
  split; [by intros c []|]. intros i. rewrite lookup_empty. by intros [? ?].
Qed.

Lemma run_indexed (evs : list Event) :
  forall st st',
    counted st -> indexed st -> Forall (denseEvent job) evs ->
    run job evs st = Continues st' -> indexed st'.
Proof.
  induction evs as [|ev evs IH]; intros st st' Hc Hi Hall; simpl.
  - by intros [= <-].
  - apply Forall_cons in Hall as [Hev Hall].
    destruct (step job st ev) as [st1| |] eqn:Es; [|done|done].
    apply IH; [by eapply step_counted|by eapply step_indexed|done].
Qed.

Lemma seq_StronglySorted (a n : nat) : StronglySorted Nat.le (seq a n).
Proof.
  revert a. induction n as [|n IH]; intros a; [constructor|].
  simpl. constructor; [apply IH|]. apply List.Forall_forall. intros x Hx.
  apply in_seq in Hx. unfold Nat.le. lia.
Qed.

(** [Object.keys] of an object whose keys are 0 .. n-1. *)
Lemma keys_seq (results : gmap nat string) (n : nat) :
  (forall i, is_Some (results !! i) <-> i < n) -> keys results = seq 0 n.
Proof.
  intros H. unfold keys.
  apply (StronglySorted_unique Nat.le).
  - apply StronglySorted_merge_sort; apply _.
  - apply seq_StronglySorted.
  - rewrite merge_sort_Permutation. apply NoDup_Permutation.
    + apply NoDup_fst_map_to_list.
    + apply NoDup_ListNoDup, List.seq_NoDup.
    + intros i. split.
      * intros Hin. apply list_elem_of_fmap in Hin as ([i' v] & -> & Hiv).
        apply elem_of_map_to_list in Hiv. simpl.
        apply list_elem_of_In, in_seq. assert (i' < n) by (apply H; eauto). lia.
      * intros Hin. apply list_elem_of_In, in_seq in Hin.
        destruct (proj2 (H i)) as [v Hv]; [lia|].
        apply list_elem_of_fmap. exists (i, v).
        split; [done|]. by apply elem_of_map_to_list.
Qed.

End PoolIndexed.

(** X18. In a job whose watcher sees the files ffmpeg writes, numbered
    from 0, whatever the service answers and whatever the disk holds
    when a chunk is picked up: once the split has ended and every call
    has returned, every segment 0 .. N-1 has an entry, a text or a
    placeholder, and the list of chunk files in the resolution, which
    the caller deletes, is exactly the files of segments 0 .. N-1 in
    index order. *)
Theorem resolution_lists_every_chunk_file (job : Pool.Job) (evs : list Pool.Event)
    (st : Pool.State) :
  Forall (Jobs.denseEvent job) evs ->
  Pool.run job evs Pool.initial = Pool.Continues st ->
  Pool.isSplittingComplete st = true ->
  Pool.awaiting st = [] ->
  exists r,
    Pool.promise st = Some (Pool.Fulfilled r)
    /\ Pool.chunks r
       = map (fun i => Str.join (Pool.chunksDir job) (Pool.chunkFileName job i))
             (seq 0 (Pool.totalChunks st))
    /\ Pool.originalFilePath r = Pool.filePath job
    /\ forall i, is_Some (Pool.transcriptionResults st !! i) <-> (i < Pool.totalChunks st)%nat.
Proof.
  intros Hall Hrun Ec Ew.
  destruct (run_sound job evs _ _ (initial_sound job) Hrun) as (Hc & Hs & Ha & Hq).
  destruct (drained_fulfilled job st Hc Hs Ha Hq Ec Ew) as (Hp & Ep & Eq).
  pose proof (run_indexed job evs _ _ initial_counted initial_indexed Hall Hrun)
    as (_ & B & _ & D).
  rewrite Eq, Ew in B. rewrite Eq in D. simpl in B, D. rewrite Nat.sub_0_r in B, D.
  assert (Hdom : forall i, is_Some (Pool.transcriptionResults st !! i)
                           <-> (i < Pool.totalChunks st)%nat).
  { intros i. split; [apply D|]. intros Hi. by destruct (B i Hi) as [[]|Hs']. }
  exists (Pool.resolution job st). split; [done|]. split; [|done].
  unfold Pool.resolution. simpl. by rewrite (keys_seq _ _ Hdom).
Qed.

Lemma resolution_lists_every_chunk_file_witness :
  exists r,
    Pool.promise Jobs.downFinal = Some (Pool.Fulfilled r)
    /\ Pool.chunks r
       = ["chunks/5d1e-chunk-000.mp3"; "chunks/5d1e-chunk-001.mp3";
          "chunks/5d1e-chunk-002.mp3"].
Proof.
  destruct (resolution_lists_every_chunk_file Pool.sampleJob Jobs.downRun Jobs.downFinal)
    as (r & Hp & Hchunks & _).
  - repeat constructor. apply sampleListing_dense. lia.
  - by vm_compute.
  - by vm_compute.
  - by vm_compute.
  - exists r. split; [done|]. rewrite Hchunks. by vm_compute.
Defined.

(** ** The chunked pipeline seen from the route *)

Section LargeFacts.
Import Route Large.
Local Open Scope list_scope.

Lemma unlinkEach_spec (l : list string) :
  forall w,
    fst (unlinkEach l w) = inl tt
    /\ disk (snd (unlinkEach l w)) = foldl (fun d p => delete p d) (disk w) l
    /\ exists new,
         effects (snd (unlinkEach l w)) = effects w ++ new
         /\ Forall (fun e => exists p, e = Unlink p /\ In p l /\ is_Some (disk w !! p)) new.
Proof.
  induction l as [|p l IH]; intros w.
  - simpl. split; [done|]. split; [done|]. exists []. by rewrite app_nil_r.
  - cbn [unlinkEach]. unfold Exn.bind, Exn.tryCatch, unlinkSync, Exn.ret.
    destruct (disk w !! p) as [c|] eqn:Ep.
    + cbn [fst snd].
      set (w1 := {| disk := delete p (disk w); effects := effects w ++ [Unlink p] |}).
      destruct (IH w1) as (Hr & Hd & new & He & Hall).
      destruct (unlinkEach l w1) as [[[]|e] w2] eqn:E; [|done].
      simpl in *. split; [done|]. split; [done|].
      exists (Unlink p :: new). split; [by rewrite He, <- app_assoc|].
      constructor; [exists p; rewrite Ep; eauto|].
      eapply Forall_impl; [exact Hall|]. intros e (q & -> & Hq & Hs). exists q.
      split; [done|]. split; [by right|].
      destruct (decide (q = p)) as [->|Hne]; [by rewrite Ep|].
      by rewrite lookup_delete_ne in Hs.
    + cbn [fst snd].
      destruct (IH w) as (Hr & Hd & new & He & Hall).
      destruct (unlinkEach l w) as [[[]|e] w2] eqn:E; [|done].
      simpl in *. split; [done|]. split.
      * rewrite Hd. f_equal. symmetry. by apply delete_id.
      * exists new. split; [done|].
        eapply Forall_impl; [exact Hall|]. intros e (q & -> & Hq & Hs). exists q. eauto.
Qed.

Lemma lookup_foldl_delete (l : list string) (d : gmap string string) (p : string) :
  (In p l -> foldl (fun d p => delete p d) d l !! p = None)
  /\ (~ In p l -> foldl (fun d p => delete p d) d l !! p = d !! p).
Proof.
  revert d. induction l as [|q l IH]; intros d; [by split|].
  simpl. destruct (IH (delete q d)) as [IH1 IH2].
  destruct (decide (q = p)) as [->|Hne].
  - split; [|intros Hn; destruct Hn; by left]. intros _.
    destruct (decide (p ∈ l)) as [Hin|Hnin].
    + apply IH1. by apply list_elem_of_In.
    + rewrite IH2 by (by rewrite <- list_elem_of_In). apply lookup_delete_eq.
  - split.
    + intros [?|Hin]; [done|]. by apply IH1.
    + intros Hn. rewrite IH2 by tauto. by apply lookup_delete_ne.
Qed.

End LargeFacts.

(** X19. [cleanupFiles] never throws.  Afterwards none of the paths it
    was given, the upload and the chunks, is on disk, every other file
    is as before, and what it unlinked are exactly paths it was given
    that were there; a path that is missing is skipped. *)
Theorem cleanupFiles_removes_exactly_the_listed_files (filePath : string)
    (chunks : list string) (w : Route.World) :
  let w' := snd (Large.cleanupFiles filePath chunks w) in
  fst (Large.cleanupFiles filePath chunks w) = inl tt
  /\ (forall p, In p (filePath :: chunks) -> Route.disk w' !! p = None)
  /\ (forall p, ~ In p (filePath :: chunks) -> Route.disk w' !! p = Route.disk w !! p)
  /\ Forall (fun e => exists p, e = Route.Unlink p /\ In p (filePath :: chunks)
                                /\ is_Some (Route.disk w !! p))
            (Route.added w w').
Proof.
  change (Large.cleanupFiles filePath chunks) with (Large.unlinkEach (filePath :: chunks)).
  destruct (unlinkEach_spec (filePath :: chunks) w) as (Hr & Hd & new & He & Hall).
  cbv zeta. split; [done|]. split; [|split].
  - intros p Hp. rewrite Hd. by apply lookup_foldl_delete.
  - intros p Hp. rewrite Hd. by apply lookup_foldl_delete.
  - unfold Route.added. rewrite He, drop_app_length. exact Hall.
Qed.

Section HandlerFacts.
Import Route Large.
Local Open Scope list_scope.

Variable stringify : Message -> string.
Variable env : Env.
Variable split : string -> Exn.M World (option Pool.Resolution).

Lemma saveTranscription_total (text original : string) (w : World) :
  exists saved new,
    saveTranscription env text original w
    = (inl saved,
       {| disk := match saved with
                  | Some f => <[Str.join (transcriptionsDir env) f := text]> (disk w)
                  | None => disk w
                  end;
          effects := effects w ++ new |})
    /\ Forall (fun e => exists p c, e = WriteFile p c) new
    /\ (is_Some saved <-> writeError env = None).
Proof.
  unfold saveTranscription, Exn.tryCatch, Exn.bind, writeFileSync, Exn.ret. cbv zeta.
  destruct (writeError env) as [msg|].
  - exists None, []. rewrite app_nil_r. destruct w. simpl. split; [done|].
    split; [constructor|]. split; [by intros [? ?]|done].
  - eexists (Some _), [_]. simpl. split; [reflexivity|].
    split; [repeat constructor; eauto|]. split; eauto.
Qed.

(** The three ways [handleLargeFile] can go. *)
Lemma handleLargeFile_cases (f : UploadedFile) (w : World) :
  let w2 := snd (split (path f) (started stringify f w)) in
  match fst (split (path f) (started stringify f w)) with
  | inr e =>
      handleLargeFile stringify env split f w
      = (inl tt,
         {| disk := disk w2;
            effects := effects w2
                       ++ [StreamEnd (stringify
                             (Failed (orDefault e "Failed to process audio file")))] |})
  | inl None => handleLargeFile stringify env split f w = (inl tt, w2)
  | inl (Some r) =>
      exists saved w4 new,
        saveTranscription env (Pool.combinedTranscription r) (originalname f)
          (snd (emit (StreamWrite (stringify
                  (Processing "Transcription complete. Finalizing results..." 95))) w2))
        = (inl saved, w4)
        /\ (is_Some saved <-> writeError env = None)
        /\ effects w4
           = effects w2
             ++ StreamWrite (stringify
                  (Processing "Transcription complete. Finalizing results..." 95)) :: new
        /\ Forall (fun e => exists p c, e = WriteFile p c) new
        /\ handleLargeFile stringify env split f w
           = (inl tt,
              {| disk := disk (snd (cleanupFiles (path f) (Pool.chunks r) w4));
                 effects := effects (snd (cleanupFiles (path f) (Pool.chunks r) w4))
                            ++ [StreamEnd (stringify
                                  (Complete (Pool.combinedTranscription r) saved))] |})
  end.
Proof.
  cbv zeta.
  destruct (split (path f) (started stringify f w)) as [[[r|]|e] w2] eqn:Es; cbn [fst snd].
  - match goal with |- context [saveTranscription env ?t ?o ?w0] =>
      destruct (saveTranscription_total t o w0) as (saved & new & Esave & Hnew & Hsaved)
    end.
    cbn [emit snd disk effects] in Esave.
    eexists saved, _, new. split; [exact Esave|]. split; [done|].
    cbn [effects]. split; [by rewrite <- app_assoc|]. split; [done|].
    match goal with |- context [cleanupFiles ?p ?c ?w0] =>
      pose proof (unlinkEach_spec (p :: c) w0) as (Hr & _);
      change (unlinkEach (p :: c)) with (cleanupFiles p c) in Hr;
      destruct (cleanupFiles p c w0) as [[[]|e] w5] eqn:Ec; [|done]
    end.
    unfold handleLargeFile. cbv zeta.
    unfold Exn.tryCatch at 1. unfold Exn.bind at 1. unfold emit at 1. cbn [fst snd].
    unfold Exn.bind at 1.
    unfold started, emit in Es. cbn [snd] in Es. rewrite Es.
    unfold Exn.bind at 1. unfold emit at 1. cbn [fst snd].
    unfold Exn.bind at 1. rewrite Esave.
    unfold Exn.bind at 1. rewrite Ec. done.
  - unfold handleLargeFile. cbv zeta.
    unfold Exn.tryCatch at 1. unfold Exn.bind at 1. unfold emit at 1. cbn [fst snd].
    unfold Exn.bind at 1.
    unfold started, emit in Es. cbn [snd] in Es. by rewrite Es.
  - unfold handleLargeFile. cbv zeta.
    unfold Exn.tryCatch at 1. unfold Exn.bind at 1. unfold emit at 1. cbn [fst snd].
    unfold Exn.bind at 1.
    unfold started, emit in Es. cbn [snd] in Es. by rewrite Es.
Qed.

End HandlerFacts.

(** X20. An upload of more than 25 MB is answered on the stream only:
    whatever the pipeline does, as long as it only writes progress
    events, the handler sends no [res.json], and it ends the stream
    exactly once when the pipeline's promise settles: with the
    transcript, as its last effect, when the promise is fulfilled, and
    with the error when it is rejected.  While the promise is not
    settled the stream is not ended.  What calls still in flight write
    after a rejection comes from later callbacks and is not among the
    effects of the handler. *)
Theorem large_upload_is_answered_on_the_stream (stringify : Large.Message -> string)
    (env : Route.Env) (split : string -> Exn.M Route.World (option Pool.Resolution))
    (f : Route.UploadedFile) (w : Route.World) :
  Large.writesOnly split ->
  (Route.size f > OPENAI_WHISPER_LIMIT)%Z ->
  let new := Route.added w (Large.route stringify env split (Some f) w) in
  forallb (fun e => negb (Route.isSendJson e)) new = true
  /\ List.length (List.filter Large.isStreamEnd new)
     = match fst (split (Route.path f) (Large.started stringify f w)) with
       | inl None => 0%nat
       | _ => 1%nat
       end
  /\ match fst (split (Route.path f) (Large.started stringify f w)) with
     | inl (Some r) =>
         exists saved,
           last new = Some (Route.StreamEnd
                              (stringify (Large.Complete (Pool.combinedTranscription r) saved)))
     | inl None => True
     | inr e =>
         In (Route.StreamEnd
               (stringify (Large.Failed (Route.orDefault e "Failed to process audio file"))))
            new
     end.
Proof.
  intros Hsplit Hsize. cbv zeta. unfold Large.route.
  rewrite transcribe_large by lia.
  pose proof (handleLargeFile_cases stringify env split f w) as Hcases.
  destruct (Hsplit (Route.path f) (Large.started stringify f w)) as (ws & Ews & Hws).
  cbv zeta in Hcases.
  assert (Hstart : Route.effects (Large.started stringify f w)
                   = (Route.effects w
                      ++ [Route.StreamWrite (stringify (Large.startMessage (Route.size f)))])%list)
    by done.
  rewrite Hstart in Ews.
  assert (Hnot : forall l, forallb Large.isStreamWrite l = true ->
            forallb (fun e => negb (Route.isSendJson e)) l = true
            /\ List.filter Large.isStreamEnd l = []).
  { induction l as [|e l IH]; [done|]. simpl. intros H.
    apply andb_true_iff in H as [He Hl]. destruct (IH Hl) as [-> ->].
    by destruct e. }
  destruct (Hnot ws Hws) as [Hws1 Hws2].
  destruct (fst (split (Route.path f) (Large.started stringify f w))) as [[r|]|e].
  - destruct Hcases as (saved & w4 & wnew & Esave & _ & Ew4 & Hwnew & ->).
    destruct (unlinkEach_spec (Route.path f :: Pool.chunks r) w4)
      as (_ & _ & unl & Eunl & Hunl).
    change (Large.unlinkEach (Route.path f :: Pool.chunks r))
      with (Large.cleanupFiles (Route.path f) (Pool.chunks r)) in Eunl.
    cbn [snd Route.effects]. rewrite Eunl, Ew4, Ews.
    unfold Route.added. cbn [Route.effects].
    rewrite <- !app_assoc, drop_app_length.
    assert (H1 : forallb (fun e => negb (Route.isSendJson e)) wnew = true
                 /\ List.filter Large.isStreamEnd wnew = []).
    { clear -Hwnew. induction Hwnew as [|e l (p & c & ->) _ [IH1 IH2]]; [done|].
      simpl. by rewrite IH1, IH2. }
    assert (H2 : forallb (fun e => negb (Route.isSendJson e)) unl = true
                 /\ List.filter Large.isStreamEnd unl = []).
    { clear -Hunl. induction Hunl as [|e l (p & -> & _) _ [IH1 IH2]]; [done|].
      simpl. by rewrite IH1, IH2. }
    destruct H1 as [H1 H1'], H2 as [H2 H2']. split; [|split].
    + repeat first [rewrite forallb_app | progress cbn [forallb app]].
      by rewrite Hws1, H1, H2.
    + repeat first [rewrite List.filter_app | progress cbn [List.filter app Large.isStreamEnd]].
      by rewrite Hws2, H1', H2'.
    + exists saved.
      match goal with |- context [(?a ++ ws ++ ?b ++ unl ++ [?c])%list] =>
        replace (a ++ ws ++ b ++ unl ++ [c])%list with ((a ++ ws ++ b ++ unl) ++ [c])%list
          by (by rewrite <- !app_assoc)
      end.
      apply last_snoc.
  - rewrite Hcases. cbn [snd]. unfold Route.added. rewrite Ews.
    rewrite <- !app_assoc, drop_app_length. split; [|split; [|done]].
    + repeat first [rewrite forallb_app | progress cbn [forallb app]].
      by rewrite Hws1.
    + repeat first [rewrite List.filter_app | progress cbn [List.filter app Large.isStreamEnd]].
      by rewrite Hws2.
  - rewrite Hcases. cbn [snd]. unfold Route.added. cbn [Route.effects]. rewrite Ews.
    rewrite <- !app_assoc, drop_app_length. split; [|split].
    + repeat first [rewrite forallb_app | progress cbn [forallb app]].
      by rewrite Hws1.
    + repeat first [rewrite List.filter_app | progress cbn [List.filter app Large.isStreamEnd]].
      by rewrite Hws2.
    + rewrite !in_app_iff. right. right. by left.
Qed.

Lemma large_upload_is_answered_on_the_stream_witness :
  let new := Route.added Route.sampleWorld
               (Large.route Large.sampleStringify (Route.sampleEnv (ApiOk ""))
                  Large.failingSplit (Some (Route.sampleFile 31457280)) Route.sampleWorld) in
  forallb (fun e => negb (Route.isSendJson e)) new = true
  /\ List.length (List.filter Large.isStreamEnd new) = 1%nat
  /\ In (Route.StreamEnd "error: ffmpeg exited with code 1") new.
Proof.
  apply (large_upload_is_answered_on_the_stream Large.sampleStringify
           (Route.sampleEnv (ApiOk "")) Large.failingSplit
           (Route.sampleFile 31457280) Route.sampleWorld).
  - intros p w. eexists [_]. split; reflexivity.
  - reflexivity.
Defined.

(** X21. The chunked pipeline deletes the upload only when it
    succeeds.  When the promise is fulfilled, the upload and every
    chunk file of the resolution are gone afterwards and the stream
    ends with the transcript, [savedAs] being a file name exactly when
    the text file could be written.  When the promise is rejected or
    never settles, nothing is deleted: the disk is as the pipeline left
    it, upload and chunks included. *)
Theorem large_upload_is_deleted_only_on_success (stringify : Large.Message -> string)
    (env : Route.Env) (split : string -> Exn.M Route.World (option Pool.Resolution))
    (f : Route.UploadedFile) (w : Route.World) :
  (Route.size f > OPENAI_WHISPER_LIMIT)%Z ->
  let w' := Large.route stringify env split (Some f) w in
  match split (Route.path f) (Large.started stringify f w) with
  | (inl (Some r), _) =>
      (forall p, In p (Route.path f :: Pool.chunks r) -> Route.disk w' !! p = None)
      /\ exists saved,
           last (Route.effects w')
           = Some (Route.StreamEnd
                     (stringify (Large.Complete (Pool.combinedTranscription r) saved)))
           /\ (is_Some saved <-> Route.writeError env = None)
  | (inl None, w2) => w' = w2
  | (inr e, w2) =>
      Route.disk w' = Route.disk w2
      /\ last (Route.effects w')
         = Some (Route.StreamEnd
                   (stringify (Large.Failed
                      (Route.orDefault e "Failed to process audio file"))))
  end.
Proof.
  intros Hsize. cbv zeta. unfold Large.route. rewrite transcribe_large by lia.
  pose proof (handleLargeFile_cases stringify env split f w) as Hcases.
  cbv zeta in Hcases.
  destruct (split (Route.path f) (Large.started stringify f w)) as [[[r|]|e] w2];
    cbn [fst snd] in Hcases.
  - destruct Hcases as (saved & w4 & wnew & _ & Hsaved & _ & _ & ->).
    cbn [snd Route.disk Route.effects]. split.
    + intros p Hp.
      destruct (unlinkEach_spec (Route.path f :: Pool.chunks r) w4) as (_ & Hd & _).
      change (Large.unlinkEach (Route.path f :: Pool.chunks r))
        with (Large.cleanupFiles (Route.path f) (Pool.chunks r)) in Hd.
      rewrite Hd. by apply lookup_foldl_delete.
    + exists saved. split; [apply last_snoc|done].
  - by rewrite Hcases.
  - rewrite Hcases. cbn [snd Route.disk Route.effects]. split; [done|apply last_snoc].
Qed.

Lemma large_upload_is_deleted_only_on_success_witness :
  let w' := Large.route Large.sampleStringify (Route.sampleEnv (ApiOk ""))
              Large.twoChunks (Some (Route.sampleFile 31457280)) Route.sampleWorld in
  (forall p, In p ["uploads/1-2.mp3"; "chunks/5d1e-chunk-000.mp3";
                   "chunks/5d1e-chunk-001.mp3"] ->
             Route.disk w' !! p = None)
  /\ exists saved,
       last (Route.effects w')
       = Some (Route.StreamEnd
                 (Large.sampleStringify (Large.Complete "good morning and welcome" saved)))
       /\ (is_Some saved <-> Route.writeError (Route.sampleEnv (ApiOk "")) = None).
Proof.
  apply (large_upload_is_deleted_only_on_success Large.sampleStringify
           (Route.sampleEnv (ApiOk "")) Large.twoChunks
           (Route.sampleFile 31457280) Route.sampleWorld).
  reflexivity.
Defined.

(** ** Chunk names after a repair *)

Section RenamedFacts.
Import Pool Names.
Local Open Scope nat_scope.

(** A run of uuid characters holds no place where [chunk-] starts. *)
Lemma matchChunk_skip_uuid (s tail : string) :
  uuidLike s = true -> String.prefix "h" tail = false ->
  matchChunk (s ++ tail) = matchChunk tail.
Proof.
  intros Hu Ht. induction s as [|a s IH]; [by rewrite string_app_nil|].
  simpl in Hu. apply andb_true_iff in Hu as [Ha Hu].
  rewrite string_app_cons, matchChunk_cons. cbv zeta.
  assert (Hp : String.prefix "chunk-" (String a (s ++ tail)) = false).
  { cbn [String.prefix]. destruct (ascii_dec "c" a) as [_|]; [|done].
    destruct s as [|b s].
    - rewrite string_app_nil. destruct tail as [|b tail]; [done|].
      cbn [String.prefix] in *.
      destruct (ascii_dec "h" b); [by rewrite prefix_nil in Ht|done].
    - rewrite string_app_cons. cbn [String.prefix].
      destruct (ascii_dec "h" b) as [<-|]; [|done].
      exfalso. cbn [uuidLike] in Hu. apply andb_true_iff in Hu as [Hb _].
      by apply isUuidChar_not_h in Hb. }
  rewrite Hp. simpl. by apply IH.
Qed.

Lemma digitRun_app_nil (id tail : string) :
  Str.digitRun id = ""%string -> Str.digitRun tail = ""%string ->
  Str.digitRun (id ++ tail) = ""%string.
Proof.
  intros Hi Ht. destruct id as [|c id]; [by rewrite string_app_nil|].
  rewrite string_app_cons. cbn [Str.digitRun] in *. by destruct (Str.isDigit c).
Qed.

Lemma chunkNum_renamed (job : Job) (inputExt id : string) :
  uuidLike (sessionId job) = true ->
  uuidLike id = true -> Str.digitRun id = ""%string ->
  outputExt job = outputExtOf inputExt ->
  chunkNum (sessionId job ++ "-chunk-" ++ id ++ outputExt job) = None.
Proof.
  intros Hs Hi Hd He. unfold chunkNum.
  rewrite (matchChunk_skip_uuid (sessionId job)) by done.
  assert (Hext : Str.digitRun (outputExt job) = ""%string
                 /\ String.prefix "h" (outputExt job) = false
                 /\ matchChunk (outputExt job) = None).
  { rewrite He. unfold outputExtOf. by destruct (String.eqb inputExt ".mp3"). }
  destruct Hext as (Hx1 & Hx2 & Hx3).
  change ("-chunk-" ++ id ++ outputExt job)%string
    with (String "-" (String "c" (String "h" (String "u" (String "n" (String "k"
            (String "-" (id ++ outputExt job)))))))).
  rewrite matchChunk_cons. cbv zeta.
  match goal with |- context [String.prefix "chunk-" (String ?c ?r)] =>
    replace (String.prefix "chunk-" (String c r)) with false by done
  end.
  cbn [String.eqb negb].
  rewrite matchChunk_cons. cbv zeta.
  assert (Hp : String.prefix "chunk-"
                 (String "c" (String "h" (String "u" (String "n" (String "k"
                    (String "-" (id ++ outputExt job))))))) = true).
  { simpl. apply prefix_nil. }
  rewrite Hp.
  assert (Hsub : String.substring 6
                 (String.length (String "c" (String "h" (String "u" (String "n"
                    (String "k" (String "-" (id ++ outputExt job))))))) - 6)
                 (String "c" (String "h" (String "u" (String "n" (String "k"
                    (String "-" (id ++ outputExt job)))))))
                 = (id ++ outputExt job)%string).
  { simpl. rewrite Nat.sub_0_r. apply substring_all. }
  rewrite Hsub, (digitRun_app_nil id _ Hd Hx1). cbn [String.eqb negb].
  do 5 (rewrite matchChunk_cons; cbv zeta;
        match goal with |- context [String.prefix "chunk-" (String ?c ?r)] =>
          replace (String.prefix "chunk-" (String c r)) with false by done
        end;
        cbn [String.eqb negb]).
  rewrite (matchChunk_skip_uuid id) by done. by rewrite Hx3.
Qed.

Lemma isChunkFile_renamed (job : Job) (id : string) :
  isChunkFile job (sessionId job ++ "-chunk-" ++ id ++ outputExt job) = true.
Proof.
  unfold isChunkFile, Str.startsWith. apply andb_true_iff. split.
  - rewrite <- (string_app_assoc (sessionId job) "-chunk-"). apply prefix_app.
  - rewrite <- !string_app_assoc. apply endsWith_app.
Qed.

(** The comparator of the watcher's sort throws as soon as one of two
    or more chunk files has no number. *)
Lemma currentChunks_numberless (job : Job) (listing : list string) (bad other : string) :
  In bad listing -> In other listing -> other <> bad ->
  isChunkFile job bad = true -> isChunkFile job other = true ->
  chunkNum bad = None ->
  currentChunks job listing = None.
Proof.
  intros Hb Ho Hne Hcb Hco Hn. unfold currentChunks.
  assert (Hfb : In bad (List.filter (isChunkFile job) listing)) by by apply filter_In.
  assert (Hfo : In other (List.filter (isChunkFile job) listing)) by by apply filter_In.
  destruct (List.filter (isChunkFile job) listing) as [|a [|b l]] eqn:Ef.
  - destruct Hfb.
  - destruct Hfb as [<-|[]]. destruct Hfo as [->|[]]. done.
  - rewrite <- Ef in *. clear Ef.
    assert (Hm : mapM (fun file => (fun n => (n, file)) <$> chunkNum file)
                   (List.filter (isChunkFile job) listing) = None).
    { apply mapM_None_2, Exists_exists. exists bad.
      split; [by apply list_elem_of_In|]. by rewrite Hn. }
    by rewrite Hm.
Qed.

End RenamedFacts.

(** X22. The names the repair gives to sub-chunks do not fit the
    watcher.  A file [<session>-chunk-<id><ext>], where [id] is the
    head of a uuid and does not start with a digit, counts as a chunk of
    the session, but it has no number for [/chunk-(\d+)/]: a tick of the
    watcher that finds it beside another chunk file of the session
    throws a TypeError out of the interval callback. *)
Theorem watcher_throws_on_renamed_sub_chunk (job : Pool.Job) (inputExt id other : string)
    (listing : list string) (disk : Pool.Disk) (st : Pool.State) :
  Names.uuidLike (Pool.sessionId job) = true ->
  Pool.outputExt job = Names.outputExtOf inputExt ->
  Names.uuidLike id = true ->
  Str.digitRun id = ""%string ->
  let renamed := (Pool.sessionId job ++ "-chunk-" ++ id ++ Pool.outputExt job)%string in
  In renamed listing ->
  In other listing -> other <> renamed -> Pool.isChunkFile job other = true ->
  Pool.watching st = true ->
  Pool.isSplittingComplete st = false ->
  Pool.isChunkFile job renamed = true
  /\ Pool.chunkNum renamed = None
  /\ Pool.step job st (Pool.WatcherTick listing disk) = Pool.Uncaught Pool.typeError.
Proof.
  intros Hs He Hi Hd renamed Hin Ho Hne Hco Hw Ec.
  pose proof (isChunkFile_renamed job id) as Hcr.
  pose proof (chunkNum_renamed job inputExt id Hs Hi Hd He) as Hn.
  split; [done|]. split; [done|].
  cbn [Pool.step]. rewrite Hw. unfold Pool.watcherTick. rewrite Ec.
  by rewrite (currentChunks_numberless job listing renamed other).
Qed.

Lemma watcher_throws_on_renamed_sub_chunk_witness :
  Pool.isChunkFile Pool.sampleJob "5d1e-chunk-a1b2c3d4.mp3" = true
  /\ Pool.chunkNum "5d1e-chunk-a1b2c3d4.mp3" = None
  /\ Pool.step Pool.sampleJob Pool.initial
       (Pool.WatcherTick ["5d1e-chunk-000.mp3"; "5d1e-chunk-a1b2c3d4.mp3"] Pool.sampleDisk)
     = Pool.Uncaught Pool.typeError.
Proof.
  apply (watcher_throws_on_renamed_sub_chunk Pool.sampleJob ".mp3" "a1b2c3d4"
           "5d1e-chunk-000.mp3"
           ["5d1e-chunk-000.mp3"; "5d1e-chunk-a1b2c3d4.mp3"] Pool.sampleDisk Pool.initial);
    try reflexivity.
  - right. by left.
  - by left.
  - discriminate.
Defined.

(** ** What the repair touches *)

Section MendingFacts.
Import Repair Mending.
Local Open Scope list_scope.

(** [logs_bind] with what is known of the value passed on. *)
Lemma logs_bind_post {A B} (P : Op -> Prop) (Q : A -> Prop)
    (m : Exn.M World A) (k : A -> Exn.M World B) :
  logs P m -> (forall w a w', m w = (inl a, w') -> Q a) ->
  (forall a, Q a -> logs P (k a)) -> logs P (Exn.bind m k).
Proof.
  intros Hm HQ Hk w. unfold Exn.bind. destruct (Hm w) as (n1 & E1 & F1).
  destruct (m w) as [[a|e] w1] eqn:Em; simpl in E1.
  - destruct (Hk a (HQ _ _ _ Em) w1) as (n2 & E2 & F2). exists (n1 ++ n2).
    rewrite E2, E1, app_assoc. split; [done|]. by apply Forall_app.
  - exists n1. done.
Qed.

Lemma oversized_sub (files : list string) (w w' : World) (l : list string) :
  oversized files w = (inl l, w') -> forall f, In f l -> In f files.
Proof.
  revert l. induction files as [|file rest IH]; intros l; simpl.
  - unfold Exn.ret. by intros [= <- _].
  - unfold Exn.bind, statSize.
    destruct (sizeOf (dir w) file) as [bytes|]; [|done].
    destruct (oversized rest w) as [[l0|e] w1] eqn:E; [|done].
    pose proof (oversized_world _ _ _ _ E) as ->.
    unfold Exn.ret. intros [= <- <-] f.
    destruct (bytes >? OPENAI_WHISPER_LIMIT)%Z; [intros [<-|Hin]|intros Hin];
      [by left|right; by apply (IH l0)|right; by apply (IH l0)].
Qed.

Lemma sessionOnly_writePieces (env : Env) (options : Options) (base ext : string)
    (pieces : list Z) :
  forall k, logs (sessionOnly env options) (writePieces base ext k pieces).
Proof.
  induction pieces as [|b rest IH]; intros k; cbn [writePieces]; [apply logs_ret|].
  apply logs_bind; [|intros _; apply IH].
  eapply logs_one; [|intros w; left; reflexivity].
  cbn [sessionOnly]. apply includes_app.
Qed.

Lemma sessionOnly_resplit (env : Env) (options : Options) (file : string) :
  isChunkFile options file = true ->
  logs (sessionOnly env options) (resplit env options file).
Proof.
  intros Hc. unfold resplit. apply logs_bind; [apply logs_statSize|]. intros bytes.
  apply logs_bind.
  { eapply logs_one; [|intros w; left; reflexivity]. exact Hc. }
  intros _. apply logs_bind; [apply sessionOnly_writePieces|].
  intros _. destruct (snd _); [apply logs_throw|by apply logs_unlinkSync].
Qed.

Lemma sessionOnly_resplitAll (env : Env) (options : Options) (files : list string) :
  (forall f, In f files -> isChunkFile options f = true) ->
  logs (sessionOnly env options) (resplitAll env options files).
Proof.
  induction files as [|file rest IH]; intros Hall; cbn [resplitAll]; [apply logs_ret|].
  apply logs_bind; [apply sessionOnly_resplit, Hall; by left|].
  intros _. apply IH. intros f Hf. apply Hall. by right.
Qed.

Lemma sessionOnly_renameAll (env : Env) (options : Options) (subChunks : list string) :
  (forall f, In f subChunks -> Str.includes "-sub-" f = true) ->
  logs (sessionOnly env options) (renameAll env options subChunks).
Proof.
  induction subChunks as [|c rest IH]; intros Hall; cbn [renameAll]; [apply logs_ret|].
  apply (logs_bind_post _ (fun id => exists k, id = String.substring 0 8 (uuidv4 env k))).
  - intros w. exists []. by rewrite app_nil_r.
  - intros w a w'. unfold freshId. intros [= <- _]. eauto.
  - intros id [k ->]. apply logs_bind.
    + apply logs_renameSync. split; [apply Hall; by left|eauto].
    + intros _. apply IH. intros f Hf. apply Hall. by right.
Qed.

End MendingFacts.

(** X23. Whatever the directory holds and whatever ffmpeg does, in any
    number of passes the repair runs ffmpeg on, and unlinks, only chunk
    files of its own session; every file it creates has [-sub-] in its
    name; and every rename takes a file with [-sub-] in its name, of
    whichever session, to [<session>-chunk-<first 8 characters of a
    uuid><ext>]. *)
Theorem repair_touches_only_session_chunks_and_sub_files (env : Repair.Env)
    (options : Repair.Options) (scans : nat) (w : Repair.World) :
  exists new,
    Repair.ops (snd (Repair.verifyAndResplitChunks env scans options w))
    = (Repair.ops w ++ new)%list
    /\ Forall (Mending.sessionOnly env options) new.
Proof.
  revert w.
  change (Repair.logs (Mending.sessionOnly env options)
            (Repair.verifyAndResplitChunks env scans options)).
  induction scans as [|n IH]; cbn [Repair.verifyAndResplitChunks]; [apply logs_ret|].
  unfold Repair.scan.
  apply logs_bind; [by apply logs_readdirSync|]. intros listing.
  apply (logs_bind_post _
           (fun l => forall f, In f l -> Repair.isChunkFile options f = true)).
  - apply logs_oversized.
  - intros w l w' Eo f Hf. apply (oversized_sub _ _ _ _ Eo) in Hf.
    by apply filter_In in Hf as [_ Hf].
  - intros l Hl. destruct (List.length l =? 0)%nat; [apply logs_ret|].
    apply logs_bind; [by apply sessionOnly_resplitAll|]. intros _.
    apply logs_bind; [by apply logs_readdirSync|]. intros listing2.
    apply logs_bind; [|by intros _].
    apply sessionOnly_renameAll. intros f Hf. by apply filter_In in Hf as [_ Hf].
Qed.

Section MendingFailure.
Import Repair Mending.
Local Open Scope list_scope.

Lemma sizeOf_Some_listed (d : Dir) (file : string) (bytes : Z) :
  sizeOf d file = Some bytes -> In file (names d).
Proof.
  unfold sizeOf, names. induction d as [|[n b] d IH]; simpl; [done|].
  destruct (String.eqb_spec n file) as [->|Hne]; [by left|]. intros H. right. by apply IH.
Qed.

(** On listed files the size filter does not throw, and it keeps the
    files above the limit. *)
Lemma oversized_listed (files : list string) (w : World) :
  (forall f, In f files -> In f (names (dir w))) ->
  exists l, oversized files w = (inl l, w)
            /\ forall f, In f l <-> In f files
                                    /\ exists b, sizeOf (dir w) f = Some b
                                                 /\ (b > OPENAI_WHISPER_LIMIT)%Z.
Proof.
  induction files as [|file rest IH]; intros Hall.
  - exists []. split; [done|]. intros f. split; [done|]. by intros [[] _].
  - destruct IH as (l & El & Hl); [intros f Hf; apply Hall; by right|].
    destruct (sizeOf_listed (dir w) file) as (bytes & Es & _); [apply Hall; by left|].
    cbn [oversized]. unfold Exn.bind, statSize. rewrite Es, El. unfold Exn.ret.
    eexists. split; [reflexivity|]. intros f.
    rewrite Z.gtb_ltb. destruct (Z.ltb_spec OPENAI_WHISPER_LIMIT bytes) as [Hgt|Hle].
    + split.
      * intros [<-|Hin]; [split; [by left|exists bytes; split; [done|lia]]|].
        apply Hl in Hin as [Hin Hb]. split; [by right|done].
      * intros [[<-|Hin] Hb]; [by left|]. right. by apply Hl.
    + split.
      * intros Hin. apply Hl in Hin as [Hin Hb]. split; [by right|done].
      * intros [[<-|Hin] (b & Eb & Hb)]; [|by apply Hl; eauto].
        rewrite Es in Eb. injection Eb as <-. lia.
Qed.

Lemma scan_ffmpeg_fails (env : Env) (options : Options) (again : Exn.M World Completion)
    (w : World) (file : string) (bytes : Z) (err : string) :
  (forall f b t, snd (ffmpeg env f b t) = Some err) ->
  isChunkFile options file = true ->
  sizeOf (dir w) file = Some bytes ->
  (bytes > OPENAI_WHISPER_LIMIT)%Z ->
  exists w2 f0 new,
    scan env options again w = (inr err, w2)
    /\ (forall f, In f (names (dir w)) -> In f (names (dir w2)))
    /\ ops w2 = ops w ++ Readdir :: FfmpegSegment f0 (newSegmentDuration options) :: new
    /\ Forall (fun o => exists name b, o = Create name b) new.
Proof.
  intros Hff Hc Es Hb.
  set (w0 := {| dir := dir w; drawn := drawn w; ops := ops w ++ [Readdir] |}).
  destruct (oversized_listed (List.filter (isChunkFile options) (names (dir w))) w0)
    as (l & El & Hl).
  { intros f Hf. by apply filter_In in Hf as [Hf _]. }
  assert (Hin : In file l).
  { apply Hl. split; [|eauto]. apply filter_In. split; [|done].
    by eapply sizeOf_Some_listed. }
  destruct l as [|f0 rest]; [destruct Hin|].
  destruct (proj1 (Hl f0) (or_introl eq_refl)) as (_ & b0 & Eb0 & _).
  set (w1 := {| dir := dir w0; drawn := drawn w0;
                ops := ops w0 ++ [FfmpegSegment f0 (newSegmentDuration options)] |}).
  set (out := ffmpeg env f0 b0 (newSegmentDuration options)).
  destruct (writePieces_keeps (Str.basename f0 (outputExt options)) (outputExt options)
              (fst out) 0%nat w1) as (Hr & Hn & new & Eo & Hk).
  destruct (writePieces (Str.basename f0 (outputExt options)) (outputExt options) 0
              (fst out) w1) as [[[]|e] w2] eqn:Ew; [|done].
  exists w2, f0, new. split; [|split; [exact Hn|split; [|exact Hk]]].
  - unfold scan. unfold Exn.bind at 1. unfold readdirSync at 1. fold w0.
    unfold Exn.bind at 1. rewrite El. cbn [List.length Nat.eqb resplitAll].
    unfold Exn.bind at 1. unfold Exn.bind at 1. unfold resplit.
    unfold Exn.bind at 1. unfold statSize at 1. rewrite Eb0.
    unfold Exn.bind at 1. unfold log at 1. fold w1.
    unfold Exn.bind at 1. fold out. rewrite Ew.
    unfold out. rewrite Hff. done.
  - cbn [snd] in Eo. rewrite Eo. cbn [ops w1 w0]. by rewrite <- !app_assoc.
Qed.

End MendingFailure.

(** X24. When ffmpeg fails, the repair rejects with ffmpeg's error at
    the first chunk file of the session above the limit: no file is
    unlinked or renamed, every file of the directory is still there,
    the oversized chunk included, and there is no second pass. *)
Theorem repair_rejects_when_ffmpeg_fails (env : Repair.Env) (options : Repair.Options)
    (n : nat) (w : Repair.World) (file : string) (bytes : Z) (err : string) :
  (forall f b t, snd (Repair.ffmpeg env f b t) = Some err) ->
  Repair.isChunkFile options file = true ->
  Repair.sizeOf (Repair.dir w) file = Some bytes ->
  (bytes > OPENAI_WHISPER_LIMIT)%Z ->
  let out := Repair.verifyAndResplitChunks env (S n) options w in
  fst out = inr err
  /\ (forall f, In f (Repair.names (Repair.dir w)) ->
                In f (Repair.names (Repair.dir (snd out))))
  /\ exists new,
       Repair.ops (snd out) = (Repair.ops w ++ new)%list
       /\ Forall Mending.keepsFiles new
       /\ List.length (List.filter (fun o => match o with Repair.Readdir => true | _ => false end)
                         new) = 1%nat.
Proof.
  intros Hff Hc Es Hb. cbv zeta. cbn [Repair.verifyAndResplitChunks].
  destruct (scan_ffmpeg_fails env options (Repair.verifyAndResplitChunks env n options)
              w file bytes err Hff Hc Es Hb) as (w2 & f0 & new & -> & Hn & Eo & Hk).
  cbn [fst snd]. split; [done|]. split; [exact Hn|].
  exists (Repair.Readdir :: Repair.FfmpegSegment f0 (Repair.newSegmentDuration options) :: new).
  split; [exact Eo|]. split.
  - repeat (constructor; [exact I|]).
    eapply Forall_impl; [exact Hk|]. by intros o (? & ? & ->).
  - cbn [List.filter List.length]. f_equal.
    clear -Hk. induction Hk as [|o l (? & ? & ->) _ IH]; [done|]. exact IH.
Qed.

Lemma repair_rejects_when_ffmpeg_fails_witness :
  let out := Repair.verifyAndResplitChunks Mending.brokenEnv 3 Repair.repairableOptions
               Repair.repairableWorld in
  fst out = inr "ffmpeg exited with code 1"
  /\ (forall f, In f (Repair.names (Repair.dir Repair.repairableWorld)) ->
                In f (Repair.names (Repair.dir (snd out))))
  /\ exists new,
       Repair.ops (snd out) = (Repair.ops Repair.repairableWorld ++ new)%list
       /\ Forall Mending.keepsFiles new
       /\ List.length (List.filter (fun o => match o with Repair.Readdir => true | _ => false end)
                         new) = 1%nat.
Proof.
  apply (repair_rejects_when_ffmpeg_fails Mending.brokenEnv Repair.repairableOptions 2
           Repair.repairableWorld (Repair.hiResSession ++ "-chunk-000.mp3") 27000000
           "ffmpeg exited with code 1").
  - reflexivity.
  - reflexivity.
  - reflexivity.
  - reflexivity.
Defined.

(** ** The planner and the bitrate *)

(** X25. The planner never gives longer chunks to a file of higher
    estimated bitrate: for two files of positive size and duration, if
    the second has at least the bitrate of the first, its chunk
    duration is at most that of the first. *)
Theorem higher_bitrate_never_gets_longer_chunks (fileSize fileSize' : Z)
    (fileDuration fileDuration' : Q) :
  0 < fileSize -> (0 < fileDuration)%Q -> (0 < fileDuration')%Q ->
  (estimatedBitrate fileSize fileDuration <= estimatedBitrate fileSize' fileDuration')%Q ->
  calculateOptimalChunkDuration fileSize' fileDuration'
  <= calculateOptimalChunkDuration fileSize fileDuration.
Proof.
  intros Hs Hd Hd' Hle.
  assert (Hb : (0 < estimatedBitrate fileSize fileDuration)%Q).
  { unfold estimatedBitrate. apply Qlt_shift_div_l; [done|].
    rewrite Qmult_0_l. replace 0%Q with (inject_Z 0) by done. by rewrite <- Zlt_Qlt. }
  assert (Hb' : (0 < estimatedBitrate fileSize' fileDuration')%Q)
    by (eapply Qlt_le_trans; [exact Hb|exact Hle]).
  assert (Ho : optimalDuration fileSize' fileDuration'
               <= optimalDuration fileSize fileDuration).
  { unfold optimalDuration. cbv zeta. apply Qfloor_resp_le.
    set (b := estimatedBitrate fileSize fileDuration) in *.
    set (b' := estimatedBitrate fileSize' fileDuration') in *.
    assert (Hc : (0 <= inject_Z (24 * MB) / b')%Q).
    { apply Qle_shift_div_l; [done|]. rewrite Qmult_0_l. by vm_compute. }
    apply Qle_shift_div_l; [done|].
    apply Qle_trans with (inject_Z (24 * MB) / b' * b')%Q.
    - rewrite !(Qmult_comm (inject_Z (24 * MB) / b')).
      by apply Qmult_le_compat_r.
    - rewrite Qdiv_mult_cancel by done. apply Qle_refl. }
  unfold calculateOptimalChunkDuration, MIN_CHUNK_DURATION. lia.
Qed.

Lemma higher_bitrate_never_gets_longer_chunks_witness :
  calculateOptimalChunkDuration 61440000 600 <= calculateOptimalChunkDuration 30720000 600.
Proof.
  apply (higher_bitrate_never_gets_longer_chunks 30720000 61440000 600 600);
    [reflexivity|reflexivity|reflexivity|by vm_compute].
Defined.

(** ** The retry loop *)

(** X26. A chunk is sent to the service at most three times: the
    result of the retry loop depends on the first three answers only;
    it is a text exactly when one of them is a text, and then the first
    such; it is an error exactly when all three are errors, and then
    the error of the third call. *)
Theorem retry_gives_first_text_or_third_error (answers : nat -> ApiResponse) :
  (forall answers' : nat -> ApiResponse,
     (forall k, (k <= 2)%nat -> answers' k = answers k) ->
     Pool.transcribeWithRetry answers' = Pool.transcribeWithRetry answers)
  /\ (forall text,
        Pool.transcribeWithRetry answers = ApiOk text
        <-> exists k, (k <= 2)%nat /\ answers k = ApiOk text
                      /\ forall j, (j < k)%nat -> exists e, answers j = ApiError e)
  /\ (forall e,
        Pool.transcribeWithRetry answers = ApiError e
        <-> answers 2%nat = ApiError e
            /\ (exists e0, answers 0%nat = ApiError e0)
            /\ (exists e1, answers 1%nat = ApiError e1)).
Proof.
  split; [|split].
  - intros answers' H. rewrite !transcribeWithRetry_calls.
    by rewrite (H 0%nat), (H 1%nat), (H 2%nat) by lia.
  - intros text. rewrite transcribeWithRetry_calls. split.
    + destruct (answers 0%nat) as [t0|e0] eqn:E0.
      { intros [= ->]. exists 0%nat. split; [lia|]. split; [done|]. intros j Hj. lia. }
      destruct (answers 1%nat) as [t1|e1] eqn:E1.
      { intros [= ->]. exists 1%nat. split; [lia|]. split; [done|].
        intros j Hj. assert (j = 0%nat) as -> by lia. eauto. }
      intros E2. exists 2%nat. split; [lia|]. split; [done|].
      intros j Hj. assert (j = 0 \/ j = 1)%nat as [-> | ->] by lia; eauto.
    + intros (k & Hk & Ek & Hbefore).
      assert (k = 0 \/ k = 1 \/ k = 2)%nat as [-> | [-> | ->]] by lia.
      * by rewrite Ek.
      * destruct (Hbefore 0%nat) as [e0 ->]; [lia|]. by rewrite Ek.
      * destruct (Hbefore 0%nat) as [e0 ->]; [lia|].
        destruct (Hbefore 1%nat) as [e1 ->]; [lia|]. done.
  - intros e. rewrite transcribeWithRetry_calls. split.
    + destruct (answers 0%nat) as [t0|e0]; [done|].
      destruct (answers 1%nat) as [t1|e1]; [done|]. eauto.
    + intros (E2 & [e0 ->] & [e1 ->]). done.
Qed.

(** ** The listing and the Word document *)

Section BaseNames.
Import Store.

Lemma removeFirst_appended (base : string) :
  Str.includes ".txt" base = false -> removeFirst ".txt" (base ++ ".txt") = base.
Proof.
  induction base as [|c base IH]; [done|].
  cbn [Str.includes]. destruct (String.prefix ".txt" (String c base)) eqn:Ep; [done|].
  intros Hi. rewrite string_app_cons. cbn [removeFirst].
  assert (Hp : String.prefix ".txt" (String c (base ++ ".txt")) = false).
  { cbn [String.prefix] in *. destruct (ascii_dec "." c) as [_|]; [|done].
    destruct base as [|c1 base]; [done|]. rewrite string_app_cons.
    cbn [String.prefix] in *. destruct (ascii_dec "t" c1) as [_|]; [|done].
    destruct base as [|c2 base]; [done|]. rewrite string_app_cons.
    cbn [String.prefix] in *. destruct (ascii_dec "x" c2) as [_|]; [|done].
    destruct base as [|c3 base]; [done|]. rewrite string_app_cons.
    cbn [String.prefix] in *. destruct (ascii_dec "t" c3) as [_|]; [|done].
    by rewrite prefix_nil in Ep. }
  rewrite Hp. f_equal. by apply IH.
Qed.

End BaseNames.

(** X27. The listing finds the Word document of a saved transcription.
    [saveTranscription] names the text file [<base>.txt] and the Word
    document [<base>.docx], where [base] is the timestamp, an
    underscore and the uploaded name without extension; when [base]
    does not contain [.txt], the listing recovers exactly [base] from
    the text file's name and reports [hasDocx] according to whether
    [<base>.docx] is in the directory. *)
Theorem listing_recovers_the_saved_base_name (env : Route.Env) (originalFilename : string)
    (dir : list Store.Entry) (e : Store.Entry) :
  let base := (Route.now env ++ "_" ++ Str.stripExtension originalFilename)%string in
  Str.includes ".txt" base = false ->
  Store.name e = (base ++ ".txt")%string ->
  Store.baseFilename (Store.toItem dir e) = base
  /\ Store.hasDocx (Store.toItem dir e)
     = existsb (fun other => String.eqb (Store.name other) (base ++ ".docx")) dir.
Proof.
  intros base Hi He. unfold Store.toItem. cbn [Store.baseFilename Store.hasDocx].
  by rewrite He, removeFirst_appended.
Qed.

Lemma listing_recovers_the_saved_base_name_witness :
  let e := {| Store.name := "2025-01-01T00-00-00-000Z_talk.txt"; Store.mtime := 0;
              Store.bytes := 12 |} in
  Store.baseFilename (Store.toItem [e] e) = "2025-01-01T00-00-00-000Z_talk"
  /\ Store.hasDocx (Store.toItem [e] e) = false.
Proof.
  apply (listing_recovers_the_saved_base_name (Route.sampleEnv (ApiOk "")) "talk.mp3"
           [ {| Store.name := "2025-01-01T00-00-00-000Z_talk.txt"; Store.mtime := 0;
                Store.bytes := 12 |} ]); reflexivity.
Defined.

(** ** Word documents *)

Section DocxFacts.
Import Docx.




End DocxFacts.

